(** * A shallow embedding of the micromouse navigator (src/Algo.cpp)

    The navigator senses walls, replans with a shortest-path search over
    the whole grid, follows the known prefix of the plan and switches
    between the CENTER and ORIGIN goals.  The C++ code threads a mutable
    state (mouse pose, grid, queue, undo log) through every call and may
    abort on a failed assertion; here this is a state monad whose
    outcomes are [Done], [Aborted] (an [ASSERT_*] failed, [exit(1)]) and
    [Timeout] (a loop ran out of fuel). *)

From Stdlib Require Import ZArith List Bool Lia Ascii.
Import ListNotations.
Local Open Scope Z_scope.

(** ** Machine integers *)

(** [byte] is an unsigned 8-bit and [twobyte] an unsigned 16-bit integer;
    a conversion to either keeps the low bits. *)
Definition to_byte (z : Z) : Z := z mod 256.
Definition to_twobyte (z : Z) : Z := z mod 65536.

(** ** Directions and modes *)

(** Modelled from the spec: Direction.h is absent.  The numbering is the
    one Algo.cpp relies on: [directionChars = {'n','e','s','w'}] is
    indexed by direction and [(m_d + 1) % 4] is a right turn. *)
Module Direction.
Abbreviation NORTH := 0%Z (only parsing).
Abbreviation EAST := 1%Z (only parsing).
Abbreviation SOUTH := 2%Z (only parsing).
Abbreviation WEST := 3%Z (only parsing).
End Direction.
Import Direction.

(** Modelled from the spec: Mode.h is absent; the three goal modes. *)
Inductive Mode : Type := CENTER | ORIGIN | GIVEUP.

Definition Mode_eqb (a b : Mode) : bool :=
  match a, b with
  | CENTER, CENTER | ORIGIN, ORIGIN | GIVEUP, GIVEUP => true
  | _, _ => false
  end.

(** ** Build-time configuration *)

(** The constants of Maze.h and Algo.h (both absent) that Algo.cpp reads:
    the grid size, the corners of the center rectangle, the cost regime
    and the heading restored by [reset]. *)
Record Config : Type := mkConfig {
  WIDTH : Z;
  HEIGHT : Z;
  CLLX : Z;
  CLLY : Z;
  CURX : Z;
  CURY : Z;
  FAST_STRAIGHT_AWAYS : bool;
  m_initialDirection : Z
}.

(** ** Cells *)

(** Modelled from the spec: Maze.h is absent.  A cell is identified by
    its integer coordinates; [Maze::getCell], [Maze::getX] and
    [Maze::getY] are the coordinate/identifier conversion, whose
    arguments are bytes. *)
Definition cell : Type := (Z * Z)%type.

Definition cell_eqb (a b : cell) : bool :=
  (fst a =? fst b) && (snd a =? snd b).

Definition upd {V : Type} (f : cell -> V) (c : cell) (v : V) : cell -> V :=
  fun c' => if cell_eqb c' c then v else f c'.

Definition upd2 {V : Type} (f : cell -> Z -> V) (c : cell) (d : Z) (v : V)
  : cell -> Z -> V :=
  fun c' d' => if cell_eqb c' c && (d' =? d) then v else f c' d'.

(** Modelled from the spec: the per-cell attributes of §3 (Maze.cpp is
    absent): wall knowledge and presence per direction, distance,
    the pass-scoped discovered flag, the traversal pointer (a direction
    and a flag saying whether it is set) and the run length. *)
Record Grid : Type := mkGrid {
  wallKnown : cell -> Z -> bool;
  wallPresent : cell -> Z -> bool;
  distance : cell -> Z;
  discovered : cell -> bool;
  nextDirection : cell -> Z;
  nextSet : cell -> bool;
  straightAwayLength : cell -> Z
}.

Module Maze.

Definition getCell (x y : Z) : cell := (to_byte x, to_byte y).
Definition getX (c : cell) : Z := fst c.
Definition getY (c : cell) : Z := snd c.

(** Nothing is known about a fresh grid. *)
Definition empty : Grid :=
  mkGrid (fun _ _ => false) (fun _ _ => false) (fun _ => 0)
         (fun _ => false) (fun _ => 0) (fun _ => false) (fun _ => 0).

Definition isKnown (g : Grid) (c : cell) (d : Z) : bool := wallKnown g c d.

(** A wall counts only where it is known and present. *)
Definition isWall (g : Grid) (c : cell) (d : Z) : bool :=
  wallKnown g c d && wallPresent g c d.

Definition setWall (c : cell) (d : Z) (isWall : bool) (g : Grid) : Grid :=
  mkGrid (upd2 (wallKnown g) c d true) (upd2 (wallPresent g) c d isWall)
         (distance g) (discovered g) (nextDirection g) (nextSet g)
         (straightAwayLength g).

(** The wall goes back to unknown. *)
Definition clearWall (c : cell) (d : Z) (g : Grid) : Grid :=
  mkGrid (upd2 (wallKnown g) c d false) (upd2 (wallPresent g) c d false)
         (distance g) (discovered g) (nextDirection g) (nextSet g)
         (straightAwayLength g).

Definition getDistance (g : Grid) (c : cell) : Z := distance g c.

Definition setDistance (c : cell) (v : Z) (g : Grid) : Grid :=
  mkGrid (wallKnown g) (wallPresent g) (upd (distance g) c (to_twobyte v))
         (discovered g) (nextDirection g) (nextSet g)
         (straightAwayLength g).

Definition getDiscovered (g : Grid) (c : cell) : bool := discovered g c.

Definition setDiscovered (c : cell) (b : bool) (g : Grid) : Grid :=
  mkGrid (wallKnown g) (wallPresent g) (distance g)
         (upd (discovered g) c b) (nextDirection g) (nextSet g)
         (straightAwayLength g).

Definition hasNext (g : Grid) (c : cell) : bool := nextSet g c.

Definition getNextDirection (g : Grid) (c : cell) : Z := nextDirection g c.

(** Setting the pointer records the direction and marks it as set. *)
Definition setNextDirection (c : cell) (d : Z) (g : Grid) : Grid :=
  mkGrid (wallKnown g) (wallPresent g) (distance g) (discovered g)
         (upd (nextDirection g) c d) (upd (nextSet g) c true)
         (straightAwayLength g).

(** Clearing the pointer keeps the direction: [generatePath] sets the
    direction of the start cell, clears the pointer, and
    [checkNeighbor] still reads the direction. *)
Definition clearNext (c : cell) (g : Grid) : Grid :=
  mkGrid (wallKnown g) (wallPresent g) (distance g) (discovered g)
         (nextDirection g) (upd (nextSet g) c false)
         (straightAwayLength g).

Definition getStraightAwayLength (g : Grid) (c : cell) : Z :=
  straightAwayLength g c.

Definition setStraightAwayLength (c : cell) (n : Z) (g : Grid) : Grid :=
  mkGrid (wallKnown g) (wallPresent g) (distance g) (discovered g)
         (nextDirection g) (nextSet g)
         (upd (straightAwayLength g) c (to_byte n)).

End Maze.

(** ** The undo log *)

(** Modelled from the spec: History.h is absent.  §4.3: [add] appends
    one entry, [pop] removes and returns the most recent one, no entry is
    changed after it was recorded; [move] is a hook called once per
    physical hop, here a counter.  An entry pairs the cell with the data
    byte that [readWalls] builds. *)
Module History.

Record t : Type := mk { entries : list (cell * Z); moves : Z }.

Definition empty : t := mk [] 0.

Definition size (h : t) : Z := Z.of_nat (length (entries h)).

Definition add (c : cell) (data : Z) (h : t) : t :=
  mk ((c, data) :: entries h) (moves h).

Definition move (h : t) : t := mk (entries h) (moves h + 1).

Definition pop (h : t) : option ((cell * Z) * t) :=
  match entries h with
  | [] => None
  | e :: rest => Some (e, mk rest (moves h))
  end.

Definition cell (cellAndData : cell * Z) : cell := fst cellAndData.
Definition data (cellAndData : (Z * Z) * Z) : Z := snd cellAndData.

End History.

(** ** The priority queue *)

(** Modelled from the spec: Heap.h is absent.  §4.2: [push] inserts,
    [pop] removes and returns the cell with the smallest current
    distance (the earliest pushed among equals), [update] tells the queue
    that a distance decreased, [clear] empties it.  The queue is a list
    and the minimum is looked up when popping, so [update] has nothing to
    reorder. *)
Module Heap.

Definition t : Type := list cell.

Definition size (h : t) : Z := Z.of_nat (length h).

Definition push (c : cell) (h : t) : t := h ++ [c].

Fixpoint minimum (dist : cell -> Z) (best : cell) (l : list cell) : cell :=
  match l with
  | [] => best
  | c :: l' => minimum dist (if dist c <? dist best then c else best) l'
  end.

Fixpoint remove (c : cell) (l : list cell) : list cell :=
  match l with
  | [] => []
  | c' :: l' => if cell_eqb c' c then l' else c' :: remove c l'
  end.

Definition pop (dist : cell -> Z) (h : t) : option (cell * t) :=
  match h with
  | [] => None
  | c :: l => let m := minimum dist c l in Some (m, remove m h)
  end.

Definition update (c : cell) (h : t) : t := h.

Definition clear : t := [].

End Heap.

(** ** The boundary *)

(** API.h is the interface to the simulator or robot.  Queries return an
    answer, commands do not; both may change the world.  Every call is
    also recorded, newest first, in the trace of the state. *)
Inductive query : Type := WallFront | WallLeft | WallRight | WasReset.

Inductive command : Type :=
| AckReset
| MoveForward
| TurnLeft
| TurnRight
| SetColor (x y : Z) (color : ascii)
| SetText (x y : Z) (number : Z)
| SetWall (x y : Z) (direction : ascii)
| ClearWall (x y : Z) (direction : ascii)
| ClearAllColor.

Inductive event : Type :=
| Asked (q : query) (answer : bool)
| Told (c : command).

Class Boundary (E : Type) : Type := {
  ask : query -> E -> bool * E;
  tell : command -> E -> E
}.

(** ** The state of the navigator and the monad of its code *)

Section Navigator.

Context {E : Type} {B : Boundary E}.
Variable cfg : Config.

(** The members of [Algo] ([m_x], [m_y], [m_d], [m_mode]), the static
    stores of [Maze], [Heap] and [History], the world behind the
    boundary and the trace of the calls made to it (newest first). *)
Record State : Type := mkState {
  m_x : Z;
  m_y : Z;
  m_d : Z;
  m_mode : Mode;
  maze : Grid;
  heap : Heap.t;
  history : History.t;
  world : E;
  trace : list event
}.

Inductive outcome (A : Type) : Type :=
| Done (a : A) (s : State)
| Aborted (s : State)
| Timeout (s : State).

Arguments Done {A} a s.
Arguments Aborted {A} s.
Arguments Timeout {A} s.

Definition M (A : Type) : Type := State -> outcome A.

Definition ret {A : Type} (a : A) : M A := fun s => Done a s.

Definition bind {A C : Type} (m : M A) (k : A -> M C) : M C :=
  fun s =>
    match m s with
    | Done a s' => k a s'
    | Aborted s' => Aborted s'
    | Timeout s' => Timeout s'
    end.

Notation "x <- m ;; k" := (bind m (fun x => k))
  (at level 61, m at next level, right associativity).
Notation "m ;; k" := (bind m (fun _ => k))
  (at level 61, right associativity).

Definition gets {A : Type} (f : State -> A) : M A := fun s => Done (f s) s.
Definition modify (f : State -> State) : M unit := fun s => Done tt (f s).
Definition abort {A : Type} : M A := fun s => Aborted s.
Definition timeout {A : Type} : M A := fun s => Timeout s.

(** The state an outcome ends in. *)
Definition final {A : Type} (o : outcome A) : State :=
  match o with
  | Done _ s => s
  | Aborted s => s
  | Timeout s => s
  end.

(** [ASSERT_TR] of Assert.h: a failed condition ends the process. *)
Definition ASSERT_TR (condition : bool) : M unit :=
  if condition then ret tt else abort.

Fixpoint forM_ {A : Type} (l : list A) (body : A -> M unit) : M unit :=
  match l with
  | [] => ret tt
  | a :: l' => body a ;; forM_ l' body
  end.

(** The values [lo, lo+1, ..., lo+n-1] a counting loop runs through. *)
Fixpoint counting (lo : Z) (n : nat) : list Z :=
  match n with
  | O => []
  | S n' => lo :: counting (lo + 1) n'
  end.

(** [for (v = lo; v < hi; v += 1)] and [for (v = lo; v <= hi; v += 1)],
    for the loops whose bound is a small constant or a side of the
    grid, which [solve] has checked to be at most 16 before any of them
    runs: their counters never wrap.  The loops over the center region
    are bounded by its corners, which nothing checks: see [forByte]. *)
Definition below (lo hi : Z) : list Z := counting lo (Z.to_nat (hi - lo)).
Definition upto (lo hi : Z) : list Z := counting lo (Z.to_nat (hi + 1 - lo)).

Definition set_pose (x y d : Z) (s : State) : State :=
  mkState x y d (m_mode s) (maze s) (heap s) (history s) (world s) (trace s).
Definition set_mode (m : Mode) (s : State) : State :=
  mkState (m_x s) (m_y s) (m_d s) m (maze s) (heap s) (history s) (world s)
          (trace s).
Definition set_maze (g : Grid) (s : State) : State :=
  mkState (m_x s) (m_y s) (m_d s) (m_mode s) g (heap s) (history s) (world s)
          (trace s).
Definition set_heap (h : Heap.t) (s : State) : State :=
  mkState (m_x s) (m_y s) (m_d s) (m_mode s) (maze s) h (history s) (world s)
          (trace s).
Definition set_history (h : History.t) (s : State) : State :=
  mkState (m_x s) (m_y s) (m_d s) (m_mode s) (maze s) (heap s) h (world s)
          (trace s).

Definition onMaze (f : Grid -> Grid) : M unit :=
  modify (fun s => set_maze (f (maze s)) s).

(** A query to the boundary: the world answers and the call is traced. *)
Definition API_ask (q : query) : M bool :=
  fun s =>
    let (answer, w) := ask q (world s) in
    Done answer
         (mkState (m_x s) (m_y s) (m_d s) (m_mode s) (maze s) (heap s)
                  (history s) w (Asked q answer :: trace s)).

(** A command to the boundary. *)
Definition API_tell (c : command) : M unit :=
  fun s =>
    Done tt
         (mkState (m_x s) (m_y s) (m_d s) (m_mode s) (maze s) (heap s)
                  (history s) (tell c (world s)) (Told c :: trace s)).

(** ** Algo.cpp *)

Definition shouldColorVisitedCells : bool := false.

Definition colorVisitedCellsDelayMs : Z := 10.

Definition resetButtonPressed : M bool := API_ask WasReset.

Definition acknowledgeResetButtonPressed : M unit := API_tell AckReset.

Definition getTurnCost : Z :=
  if FAST_STRAIGHT_AWAYS cfg then 256 else 2.

(** The parameter is a byte: the argument is narrowed to its low eight
    bits.  [256 / length] has no value for a zero length. *)
Definition getStraightAwayCost (length : Z) : option Z :=
  let length := to_byte length in
  if FAST_STRAIGHT_AWAYS cfg
  then (if length =? 0 then None else Some (Z.quot 256 length))
  else Some 3.

Definition getOppositeDirection (direction : Z) : M Z :=
  if direction =? NORTH then ret SOUTH
  else if direction =? EAST then ret WEST
  else if direction =? SOUTH then ret NORTH
  else if direction =? WEST then ret EAST
  else abort.

(** The switch has no default; for a value that is not a direction the
    C++ function returns nothing defined, here [false]. *)
Definition hasNeighboringCell (c : cell) (direction : Z) : bool :=
  let x := Maze.getX c in
  let y := Maze.getY c in
  if direction =? NORTH then y <? HEIGHT cfg - 1
  else if direction =? EAST then x <? WIDTH cfg - 1
  else if direction =? SOUTH then 0 <? y
  else if direction =? WEST then 0 <? x
  else false.

Definition getNeighboringCell (c : cell) (direction : Z) : M cell :=
  ASSERT_TR (hasNeighboringCell c direction) ;;
  let x := Maze.getX c in
  let y := Maze.getY c in
  if direction =? NORTH then ret (Maze.getCell x (y + 1))
  else if direction =? EAST then ret (Maze.getCell (x + 1) y)
  else if direction =? SOUTH then ret (Maze.getCell x (y - 1))
  else ret (Maze.getCell (x - 1) y).

Definition directionChars (direction : Z) : ascii :=
  if direction =? NORTH then "n"%char
  else if direction =? EAST then "e"%char
  else if direction =? SOUTH then "s"%char
  else "w"%char.

Definition setCellDistance (c : cell) (dist : Z) : M unit :=
  onMaze (Maze.setDistance c dist) ;;
  API_tell (SetText (Maze.getX c) (Maze.getY c) (to_twobyte dist)).

(** One side of [setCellWall]: the body before the recursive call. *)
Definition setCellWallSide (c : cell) (direction : Z) (isWall : bool)
  : M unit :=
  onMaze (Maze.setWall c direction isWall) ;;
  if isWall
  then API_tell (SetWall (Maze.getX c) (Maze.getY c)
                         (directionChars direction))
  else ret tt.

(** The recursive call passes [bothSides = false], so the recursion is
    one level deep and is written out. *)
Definition setCellWall (c : cell) (direction : Z) (isWall : bool)
  (bothSides : bool) : M unit :=
  setCellWallSide c direction isWall ;;
  if bothSides && hasNeighboringCell c direction
  then neighboringCell <- getNeighboringCell c direction ;;
       opposite <- getOppositeDirection direction ;;
       setCellWallSide neighboringCell opposite isWall
  else ret tt.

Definition unsetCellWallSide (c : cell) (direction : Z) : M unit :=
  onMaze (Maze.clearWall c direction) ;;
  API_tell (ClearWall (Maze.getX c) (Maze.getY c) (directionChars direction)).

Definition unsetCellWall (c : cell) (direction : Z) (bothSides : bool)
  : M unit :=
  unsetCellWallSide c direction ;;
  if bothSides && hasNeighboringCell c direction
  then neighboringCell <- getNeighboringCell c direction ;;
       opposite <- getOppositeDirection direction ;;
       unsetCellWallSide neighboringCell opposite
  else ret tt.

(** [History::pop] on an empty log is guarded by the size test. *)
Fixpoint rollBack (fuel : nat) : M unit :=
  match fuel with
  | O => timeout
  | S fuel' =>
      h <- gets history ;;
      if 0 <? History.size h
      then match History.pop h with
           | None => abort
           | Some (cellAndData, h') =>
               modify (set_history h') ;;
               let c := History.cell cellAndData in
               let data := History.data cellAndData in
               forM_ (below 0 4) (fun direction =>
                 if negb (Z.land (Z.shiftr data (direction + 4)) 1 =? 0)
                 then unsetCellWall c direction true
                 else ret tt) ;;
               rollBack fuel'
           end
      else ret tt
  end.

(** The roll-back loop pops one entry per round, so one round more than
    the log has entries lets it end. *)
Definition reset : M unit :=
  acknowledgeResetButtonPressed ;;
  modify (set_pose 0 0 (m_initialDirection cfg)) ;;
  modify (set_mode CENTER) ;;
  onMaze (Maze.setStraightAwayLength (Maze.getCell 0 0) 0) ;;
  h <- gets history ;;
  rollBack (S (length (History.entries h))).

Definition readWall (direction : Z) : M bool :=
  d <- gets m_d ;;
  let k := Z.rem (direction - d + 4) 4 in
  if k =? 0 then API_ask WallFront
  else if k =? 1 then API_ask WallRight
  else if k =? 3 then API_ask WallLeft
  else abort.

(** The loop of [readWalls] over [i = -1, 0, 1]; it carries [data]. *)
Fixpoint readWallsLoop (offsets : list Z) (data : Z) : M Z :=
  match offsets with
  | [] => ret data
  | i :: rest =>
      d <- gets m_d ;;
      x <- gets m_x ;;
      y <- gets m_y ;;
      g <- gets maze ;;
      let direction := to_byte (Z.rem (d + i + 4) 4) in
      if negb (Maze.isKnown g (Maze.getCell x y) direction)
      then isWall <- readWall direction ;;
           setCellWall (Maze.getCell x y) direction isWall true ;;
           let learned := to_byte (Z.lor data (Z.shiftl 1 (direction + 4))) in
           readWallsLoop rest
             (if isWall
              then to_byte (Z.lor learned (Z.shiftl 1 direction))
              else learned)
      else readWallsLoop rest data
  end.

Definition readWalls : M unit :=
  x <- gets m_x ;;
  y <- gets m_y ;;
  let c := Maze.getCell x y in
  data <- readWallsLoop (upto (-1) 1) 0 ;;
  modify (fun s => set_history (History.add c data (history s)) s).

Definition turnLeftUpdateState : M unit :=
  modify (fun s => set_pose (m_x s) (m_y s) (to_byte (Z.rem (m_d s + 3) 4)) s).

Definition turnRightUpdateState : M unit :=
  modify (fun s => set_pose (m_x s) (m_y s) (to_byte (Z.rem (m_d s + 1) 4)) s).

Definition turnAroundUpdateState : M unit :=
  modify (fun s => set_pose (m_x s) (m_y s) (to_byte (Z.rem (m_d s + 2) 4)) s).

Definition moveForwardUpdateState : M unit :=
  modify (fun s =>
    let d := m_d s in
    set_pose
      (to_byte (m_x s + (if d =? EAST then 1 else if d =? WEST then -1 else 0)))
      (to_byte (m_y s + (if d =? NORTH then 1 else if d =? SOUTH then -1 else 0)))
      d s).

Definition moveForward : M unit :=
  moveForwardUpdateState ;; API_tell MoveForward.

Definition leftAndForward : M unit :=
  turnLeftUpdateState ;; moveForwardUpdateState ;;
  API_tell TurnLeft ;; API_tell MoveForward.

Definition rightAndForward : M unit :=
  turnRightUpdateState ;; moveForwardUpdateState ;;
  API_tell TurnRight ;; API_tell MoveForward.

Definition aroundAndForward : M unit :=
  turnAroundUpdateState ;; moveForwardUpdateState ;;
  API_tell TurnLeft ;; API_tell TurnLeft ;; API_tell MoveForward.

Definition isOneCellAway (target : cell) (s : State) : bool :=
  let x := Maze.getX target in
  let y := Maze.getY target in
  let here := Maze.getCell (m_x s) (m_y s) in
  if (m_x s =? x) && (m_y s + 1 =? y) && negb (Maze.isWall (maze s) here NORTH)
  then true
  else if (m_x s =? x) && (m_y s - 1 =? y)
          && negb (Maze.isWall (maze s) here SOUTH)
  then true
  else if (m_x s + 1 =? x) && (m_y s =? y)
          && negb (Maze.isWall (maze s) here EAST)
  then true
  else if (m_x s - 1 =? x) && (m_y s =? y)
          && negb (Maze.isWall (maze s) here WEST)
  then true
  else false.

Definition moveOneCell (target : cell) : M unit :=
  ok <- gets (isOneCellAway target) ;;
  ASSERT_TR ok ;;
  let x := Maze.getX target in
  let y := Maze.getY target in
  mx <- gets m_x ;;
  my <- gets m_y ;;
  d <- gets m_d ;;
  let moveDirection :=
    if mx <? x then EAST
    else if y <? my then SOUTH
    else if x <? mx then WEST
    else NORTH in
  if moveDirection =? d then moveForward
  else if moveDirection =? Z.rem (d + 1) 4 then rightAndForward
  else if moveDirection =? Z.rem (d + 2) 4 then aroundAndForward
  else if moveDirection =? Z.rem (d + 3) 4 then leftAndForward
  else ret tt.

(** [for (byte v = lo; v <= hi; v += 1)]: the counter is a byte, so it
    wraps from 255 to 0, and the test compares it with [hi] as an
    integer: with [hi] at 255 or more the test never fails and the loop
    runs for as long as there is fuel. *)
Fixpoint forByte (fuel : nat) (v hi : Z) (body : Z -> M unit) : M unit :=
  match fuel with
  | O => timeout
  | S fuel' =>
      if v <=? hi
      then body v ;; forByte fuel' (to_byte (v + 1)) hi body
      else ret tt
  end.

(** The same loop around a computation without effects that carries a
    value; [None] when the fuel ends first. *)
Fixpoint foldByte {A : Type} (fuel : nat) (v hi : Z)
  (f : A -> Z -> option A) (a : A) : option A :=
  match fuel with
  | O => None
  | S fuel' =>
      if v <=? hi
      then match f a v with
           | Some a' => foldByte fuel' (to_byte (v + 1)) hi f a'
           | None => None
           end
      else Some a
  end.

(** The inner loop of [inCenter], for the column [xx]: [Some true] when
    it returns true, [Some false] when the loop ends, [None] when the
    fuel ends first. *)
Fixpoint inCenterColumn (fuel : nat) (x y xx yy : Z) : option bool :=
  match fuel with
  | O => None
  | S fuel' =>
      if yy <=? CURY cfg
      then if (x =? xx) && (y =? yy) then Some true
           else inCenterColumn fuel' x y xx (to_byte (yy + 1))
      else Some false
  end.

(** The outer loop of [inCenter]; the two loops return at the first
    match. *)
Fixpoint inCenterRows (fuel fuelY : nat) (x y xx : Z) : option bool :=
  match fuel with
  | O => None
  | S fuel' =>
      if xx <=? CURX cfg
      then match inCenterColumn fuelY x y xx (to_byte (CLLY cfg)) with
           | Some true => Some true
           | Some false => inCenterRows fuel' fuelY x y (to_byte (xx + 1))
           | None => None
           end
      else Some false
  end.

(** [inCenter]: the answer of its loops, with the state untouched, or
    still running when the fuel ends. *)
Definition inCenter (fuel : nat) (x y : Z) : M bool :=
  fun s =>
    match inCenterRows fuel fuel x y (to_byte (CLLX cfg)) with
    | Some inside => Done inside s
    | None => Timeout s
    end.

Definition inOrigin (x y : Z) : bool := (x =? 0) && (y =? 0).

Definition colorCenter (fuel : nat) (color : ascii) : M unit :=
  forByte fuel (to_byte (CLLX cfg)) (CURX cfg) (fun x =>
    forByte fuel (to_byte (CLLY cfg)) (CURY cfg) (fun y =>
      API_tell (SetColor x y color))).

Definition resetDestinationCellDistances (fuel : nat) : M unit :=
  let maxDistance := 65535 in
  mode <- gets m_mode ;;
  if Mode_eqb mode CENTER
  then forByte fuel (to_byte (CLLX cfg)) (CURX cfg) (fun x =>
         forByte fuel (to_byte (CLLY cfg)) (CURY cfg) (fun y =>
           setCellDistance (Maze.getCell x y) maxDistance))
  else setCellDistance (Maze.getCell 0 0) maxDistance.

(** The nested loops of [getClosestDestinationCell] change nothing but
    the local [closest]; they are still running when the fuel ends
    first. *)
Definition getClosestDestinationCell (fuel : nat) : M cell :=
  fun s =>
    let g := maze s in
    let closest := Maze.getCell (CLLX cfg) (CLLY cfg) in
    if Mode_eqb (m_mode s) CENTER
    then match foldByte fuel (to_byte (CLLX cfg)) (CURX cfg)
                 (fun closest x =>
                    foldByte fuel (to_byte (CLLY cfg)) (CURY cfg)
                      (fun closest y =>
                         let other := Maze.getCell x y in
                         Some (if Maze.getDistance g other
                                  <? Maze.getDistance g closest
                               then other else closest))
                      closest)
                 closest with
         | Some c => Done c s
         | None => Timeout s
         end
    else Done (Maze.getCell 0 0) s.

(** The cost [checkNeighbor] adds for the edge out of [c]: a straight
    continuation when the pointer of [c] is the direction back from the
    neighbor, a turn otherwise.  The run length is handed over as a byte. *)
Definition edgeCost (g : Grid) (c : cell) (directionFromNeighbor : Z)
  : option Z :=
  if Maze.getNextDirection g c =? directionFromNeighbor
  then getStraightAwayCost (to_byte (Maze.getStraightAwayLength g c + 1))
  else Some getTurnCost.

(** A zero run length handed to [getStraightAwayCost] divides by zero;
    the process does not survive it. *)
Definition checkNeighbor (c : cell) (direction : Z) : M unit :=
  neighbor <- getNeighboringCell c direction ;;
  directionFromNeighbor <- getOppositeDirection direction ;;
  g <- gets maze ;;
  edge <- match edgeCost g c directionFromNeighbor with
          | Some cost => ret cost
          | None => abort
          end ;;
  let costToNeighbor := to_twobyte (Maze.getDistance g c + edge) in
  if negb (Maze.getDiscovered g neighbor)
     || (costToNeighbor <? Maze.getDistance g neighbor)
  then setCellDistance neighbor costToNeighbor ;;
       onMaze (Maze.setNextDirection neighbor directionFromNeighbor) ;;
       g1 <- gets maze ;;
       onMaze (Maze.setStraightAwayLength neighbor
                 (if Maze.getNextDirection g1 c =? directionFromNeighbor
                  then Maze.getStraightAwayLength g1 c + 1 else 1)) ;;
       g2 <- gets maze ;;
       if negb (Maze.getDiscovered g2 neighbor)
       then onMaze (Maze.setDiscovered neighbor true) ;;
            modify (fun s => set_heap (Heap.push neighbor (heap s)) s)
       else modify (fun s => set_heap (Heap.update neighbor (heap s)) s)
  else ret tt.

(** The loop of [reverseLinkedList]; the variable [closest] is assigned
    in it and never read again, so it is not carried. *)
Fixpoint reverseLoop (fuel : nat) (direction : Z) (current : cell)
  : M (Z * cell) :=
  match fuel with
  | O => timeout
  | S fuel' =>
      g <- gets maze ;;
      if Maze.hasNext g current
      then let temp := Maze.getNextDirection g current in
           opposite <- getOppositeDirection direction ;;
           onMaze (Maze.setNextDirection current opposite) ;;
           next <- getNeighboringCell current temp ;;
           reverseLoop fuel' temp next
      else ret (direction, current)
  end.

Definition reverseLinkedList (fuel : nat) (c : cell) : M cell :=
  let closest := c in
  g <- gets maze ;;
  let direction := Maze.getNextDirection g closest in
  current <- getNeighboringCell closest direction ;;
  onMaze (Maze.clearNext closest) ;;
  r <- reverseLoop fuel direction current ;;
  opposite <- getOppositeDirection (fst r) ;;
  onMaze (Maze.setNextDirection (snd r) opposite) ;;
  ret (snd r).

(** The loop of Dijkstra's algorithm in [generatePath]. *)
Fixpoint dijkstra (fuel : nat) (colorVisitedCells : bool) : M unit :=
  match fuel with
  | O => timeout
  | S fuel' =>
      h <- gets heap ;;
      if 0 <? Heap.size h
      then g <- gets maze ;;
           match Heap.pop (Maze.getDistance g) h with
           | None => abort
           | Some (c, h') =>
               modify (set_heap h') ;;
               forM_ (below 0 4) (fun direction =>
                 g' <- gets maze ;;
                 if negb (Maze.isWall g' c direction)
                 then checkNeighbor c direction
                 else ret tt) ;;
               (if colorVisitedCells
                then API_tell (SetColor (Maze.getX c) (Maze.getY c) "Y"%char)
                else ret tt) ;;
               closest <- getClosestDestinationCell fuel ;;
               if cell_eqb c closest
               then modify (set_heap Heap.clear)
               else dijkstra fuel' colorVisitedCells
           end
      else ret tt
  end.

Definition generatePath (fuel : nat) (start : cell) : M cell :=
  forM_ (below 0 (WIDTH cfg)) (fun x =>
    forM_ (below 0 (HEIGHT cfg)) (fun y =>
      onMaze (Maze.setDiscovered (Maze.getCell x y) false))) ;;
  onMaze (Maze.setDiscovered start true) ;;
  setCellDistance start 0 ;;
  d <- gets m_d ;;
  opposite <- getOppositeDirection d ;;
  onMaze (Maze.setNextDirection start opposite) ;;
  onMaze (Maze.clearNext start) ;;
  resetDestinationCellDistances fuel ;;
  let colorVisitedCells := shouldColorVisitedCells in
  h <- gets heap ;;
  ASSERT_TR (Heap.size h =? 0) ;;
  modify (fun s => set_heap (Heap.push start (heap s)) s) ;;
  dijkstra fuel colorVisitedCells ;;
  closest <- getClosestDestinationCell fuel ;;
  reverseLinkedList fuel closest.

(** One of the two passes of [drawPath]; it returns where it stopped. *)
Fixpoint drawLoop (fuel : nat) (i : Z) (current : cell) : M cell :=
  match fuel with
  | O => timeout
  | S fuel' =>
      g <- gets maze ;;
      if Maze.hasNext g current
      then next <- getNeighboringCell current
                     (Maze.getNextDirection g current) ;;
           if i =? 0
           then if negb (Maze.isKnown g current
                           (Maze.getNextDirection g current))
                then ret current
                else API_tell (SetColor (Maze.getX next) (Maze.getY next)
                                        "V"%char) ;;
                     drawLoop fuel' i next
           else API_tell (SetColor (Maze.getX next) (Maze.getY next)
                                   "B"%char) ;;
                drawLoop fuel' i next
      else ret current
  end.

Definition drawPath (fuel : nat) (start : cell) : M unit :=
  current <- drawLoop fuel 0 start ;;
  current' <- drawLoop fuel 1 current ;;
  ret tt.

Fixpoint followLoop (fuel : nat) (current : cell) : M unit :=
  match fuel with
  | O => timeout
  | S fuel' =>
      g <- gets maze ;;
      if Maze.hasNext g current
         && Maze.isKnown g current (Maze.getNextDirection g current)
      then next <- getNeighboringCell current
                     (Maze.getNextDirection g current) ;;
           moveOneCell next ;;
           modify (fun s => set_history (History.move (history s)) s) ;;
           pressed <- resetButtonPressed ;;
           if pressed then ret tt else followLoop fuel' next
      else ret tt
  end.

Definition followPath (fuel : nat) (start : cell) : M unit :=
  followLoop fuel start.

Fixpoint getFirstUnknown (fuel : nat) (current : cell) : M cell :=
  match fuel with
  | O => timeout
  | S fuel' =>
      g <- gets maze ;;
      if Maze.hasNext g current
         && Maze.isKnown g current (Maze.getNextDirection g current)
      then next <- getNeighboringCell current
                     (Maze.getNextDirection g current) ;;
           getFirstUnknown fuel' next
      else ret current
  end.

(** The goal check that ends [step]: two tests, one after the other;
    [inCenter] is called only in CENTER mode. *)
Definition goalCheck (fuel : nat) : M unit :=
  mode <- gets m_mode ;;
  x <- gets m_x ;;
  y <- gets m_y ;;
  (if Mode_eqb mode CENTER
   then inside <- inCenter fuel x y ;;
        if inside then modify (set_mode ORIGIN) else ret tt
   else ret tt) ;;
  mode' <- gets m_mode ;;
  if Mode_eqb mode' ORIGIN && inOrigin x y
  then modify (set_mode CENTER)
  else ret tt.

Definition step (fuel : nat) : M unit :=
  readWalls ;;
  x <- gets m_x ;;
  y <- gets m_y ;;
  let current := Maze.getCell x y in
  start <- generatePath fuel current ;;
  if negb (cell_eqb start current)
  then modify (set_mode GIVEUP)
  else drawPath fuel start ;;
       followPath fuel start ;;
       goalCheck fuel.

(** The body of the perimeter loop that opens [solve]. *)
Definition initCell (x y : Z) : M unit :=
  (if x =? 0
   then setCellWall (Maze.getCell x y) WEST true true else ret tt) ;;
  (if y =? 0
   then setCellWall (Maze.getCell x y) SOUTH true true else ret tt) ;;
  (if x =? WIDTH cfg - 1
   then setCellWall (Maze.getCell x y) EAST true true else ret tt) ;;
  (if y =? HEIGHT cfg - 1
   then setCellWall (Maze.getCell x y) NORTH true true else ret tt).

Definition initPerimeter : M unit :=
  forM_ (below 0 (WIDTH cfg)) (fun x =>
    forM_ (below 0 (HEIGHT cfg)) (fun y => initCell x y)).

Definition initMouse : M unit :=
  modify (set_pose 0 0 NORTH) ;; modify (set_mode CENTER).

(** The endless loop of [solve]; [rounds] bounds the rounds run here and
    [fuel] the loops inside one step. *)
Fixpoint solveLoop (rounds fuel : nat) : M unit :=
  match rounds with
  | O => timeout
  | S rounds' =>
      API_tell ClearAllColor ;;
      API_tell (SetColor 0 0 "G"%char) ;;
      colorCenter fuel "G"%char ;;
      pressed <- resetButtonPressed ;;
      (if pressed then reset else ret tt) ;;
      step fuel ;;
      mode <- gets m_mode ;;
      if Mode_eqb mode GIVEUP then ret tt else solveLoop rounds' fuel
  end.

(** What [solve] does before its loop. *)
Definition startUp : M unit := initPerimeter ;; initMouse.

(** The size of the maze the boundary reports only feeds a warning. *)
Definition solve (rounds fuel : nat) : M unit :=
  if negb ((1 <=? WIDTH cfg) && (1 <=? HEIGHT cfg)
           && (WIDTH cfg <=? 16) && (HEIGHT cfg <=? 16))
  then ret tt
  else startUp ;; solveLoop rounds fuel.

(** The state [solve] starts from: nothing known, queue and log empty. *)
Definition initialState (w : E) : State :=
  mkState 0 0 NORTH CENTER Maze.empty [] History.empty w [].

(** ** Notions the properties are stated with *)

Definition validConfig : Prop :=
  1 <= WIDTH cfg <= 16 /\ 1 <= HEIGHT cfg <= 16
  /\ 0 <= m_initialDirection cfg < 4.

Definition validDirection (d : Z) : Prop := 0 <= d < 4.

Definition inGrid (c : cell) : Prop :=
  0 <= Maze.getX c < WIDTH cfg /\ 0 <= Maze.getY c < HEIGHT cfg.

(** The result of [getOppositeDirection] and of [getNeighboringCell]
    where their assertions hold. *)
Definition opposite (d : Z) : Z :=
  if d =? NORTH then SOUTH
  else if d =? EAST then WEST
  else if d =? SOUTH then NORTH
  else EAST.

Definition neighbor (c : cell) (d : Z) : cell :=
  let x := Maze.getX c in
  let y := Maze.getY c in
  if d =? NORTH then Maze.getCell x (y + 1)
  else if d =? EAST then Maze.getCell (x + 1) y
  else if d =? SOUTH then Maze.getCell x (y - 1)
  else Maze.getCell (x - 1) y.

(** If a side of a cell is known, the facing side of the cell behind it
    is known with the same presence. *)
Definition wallsSymmetric (g : Grid) : Prop :=
  forall c d, inGrid c -> validDirection d ->
    hasNeighboringCell c d = true ->
    Maze.isKnown g c d = true ->
    Maze.isKnown g (neighbor c d) (opposite d) = true
    /\ Maze.isWall g (neighbor c d) (opposite d) = Maze.isWall g c d.

(** A perimeter wall is a side of a cell of the grid with no cell behind
    it: WEST at x = 0, SOUTH at y = 0, EAST at x = WIDTH - 1 and NORTH at
    y = HEIGHT - 1. *)
Definition perimeterWall (c : cell) (d : Z) : Prop :=
  inGrid c /\ validDirection d /\ hasNeighboringCell c d = false.

Definition perimeterKnown (g : Grid) : Prop :=
  forall c d, perimeterWall c d ->
    Maze.isKnown g c d = true /\ Maze.isWall g c d = true.

(** The states a run goes through: it starts with [startUp], and then
    steps, resets and talks to the boundary. *)
Inductive reachable : State -> Prop :=
| reach_start (w : E) (s : State) :
    startUp (initialState w) = Done tt s -> reachable s
| reach_step (fuel : nat) (s s' : State) :
    reachable s -> step fuel s = Done tt s' -> reachable s'
| reach_reset (s s' : State) :
    reachable s -> reset s = Done tt s' -> reachable s'
| reach_ask (q : query) (s : State) :
    reachable s -> reachable (final (API_ask q s))
| reach_tell (c : command) (s : State) :
    reachable s -> reachable (final (API_tell c s)).

(** [knownChain g c hops]: following the pointers from [c] leads through
    [hops], and the wall of every edge taken is known. *)
Inductive knownChain (g : Grid) : cell -> list cell -> Prop :=
| kc_stop (c : cell) : knownChain g c []
| kc_hop (c : cell) (hops : list cell) :
    Maze.hasNext g c = true ->
    Maze.isKnown g c (Maze.getNextDirection g c) = true ->
    hasNeighboringCell c (Maze.getNextDirection g c) = true ->
    knownChain g (neighbor c (Maze.getNextDirection g c)) hops ->
    knownChain g c (neighbor c (Maze.getNextDirection g c) :: hops).

(** [pointerChain g cells]: every cell of the list but the last has its
    pointer set, and it points to the next cell of the list; the last
    cell has no pointer. *)
Inductive pointerChain (g : Grid) : list cell -> Prop :=
| pc_end (c : cell) :
    inGrid c -> Maze.hasNext g c = false -> pointerChain g [c]
| pc_link (c c' : cell) (rest : list cell) :
    inGrid c ->
    Maze.hasNext g c = true ->
    validDirection (Maze.getNextDirection g c) ->
    hasNeighboringCell c (Maze.getNextDirection g c) = true ->
    c' = neighbor c (Maze.getNextDirection g c) ->
    pointerChain g (c' :: rest) ->
    pointerChain g (c :: c' :: rest).

(** Two cells are connected when a path of edges without a known wall
    leads from one to the other. *)
Inductive connected (g : Grid) : cell -> cell -> Prop :=
| conn_here (c : cell) : connected g c c
| conn_edge (c c' : cell) (d : Z) :
    validDirection d ->
    hasNeighboringCell c d = true ->
    Maze.isWall g c d = false ->
    connected g (neighbor c d) c' ->
    connected g c c'.

(** The cells of the active goal region: in CENTER mode the cells for
    which the loops of [inCenter] return true. *)
Definition inGoal (mode : Mode) (c : cell) : Prop :=
  match mode with
  | CENTER =>
      exists fuel,
        inCenterRows fuel fuel (Maze.getX c) (Maze.getY c)
          (to_byte (CLLX cfg)) = Some true
  | _ => c = Maze.getCell 0 0
  end.

(** The rectangle between the two corners of the center region. *)
Definition inCenterRegion (x y : Z) : bool :=
  (CLLX cfg <=? x) && (x <=? CURX cfg) && (CLLY cfg <=? y) && (y <=? CURY cfg).

(** The corners of the center region leave the byte counters of its
    loops room to pass the upper corner. *)
Definition centerFitsBytes : Prop :=
  0 <= CLLX cfg <= 255 /\ CURX cfg < 255
  /\ 0 <= CLLY cfg <= 255 /\ CURY cfg < 255.

(** The fuel that lets the loops over the center region end. *)
Definition centerFuel (fuel : nat) : Prop :=
  (Z.to_nat (CURX cfg + 1 - CLLX cfg) < fuel)%nat
  /\ (Z.to_nat (CURY cfg + 1 - CLLY cfg) < fuel)%nat.

(** The center region is a rectangle of cells of the grid. *)
Definition centerOnGrid : Prop :=
  0 <= CLLX cfg <= CURX cfg /\ CURX cfg < WIDTH cfg
  /\ 0 <= CLLY cfg <= CURY cfg /\ CURY cfg < HEIGHT cfg.

(** The two goals taken in turn: the mode after a round that ended in
    the cell (x, y), from the mode before it. *)
Definition modeAfterGoalCheck (mode : Mode) (x y : Z) : Mode :=
  match mode with
  | CENTER => if inCenterRegion x y then ORIGIN else CENTER
  | ORIGIN => if inOrigin x y then CENTER else ORIGIN
  | GIVEUP => GIVEUP
  end.

(** A piece of trace, newest event first, made of hops: each hop is
    some quarter turns, then one forward move, then at once one poll
    of the reset button. *)
Inductive hopBlocks : list event -> Prop :=
  | hopBlocks_nil : hopBlocks []
  | hopBlocks_hop (pressed : bool) (turns rest : list event) :
      (forall e, In e turns -> e = Told TurnLeft \/ e = Told TurnRight) ->
      hopBlocks rest ->
      hopBlocks (Asked WasReset pressed :: Told MoveForward :: turns ++ rest).

(** The calls of a piece of trace that moved the mouse one cell. *)
Definition forwardMoves (t : list event) : nat :=
  length (filter (fun e => match e with
                           | Told MoveForward => true
                           | _ => false
                           end) t).

(** The sensor readings of a piece of trace, oldest first. *)
Definition sensorReads (t : list event) : list query :=
  flat_map (fun e => match e with
                     | Asked WasReset _ => []
                     | Asked q _ => [q]
                     | Told _ => []
                     end) (rev t).

(** The sensor that looks in direction [direction] when heading [d]. *)
Definition sensorFor (d direction : Z) : query :=
  let k := Z.rem (direction - d + 4) 4 in
  if k =? 0 then WallFront else if k =? 1 then WallRight else WallLeft.

(** ** Notions used in the proofs *)

(** [keeps p m]: whatever the outcome, [m] ends in a state with the same
    [p]. *)
Definition keeps {X A : Type} (p : State -> X) (m : M A) : Prop :=
  forall s, p (final (m s)) = p s.

(** A projection that looks neither at the world nor at the trace. *)
Definition inward {X : Type} (p : State -> X) : Prop :=
  forall s w t,
    p (mkState (m_x s) (m_y s) (m_d s) (m_mode s) (maze s) (heap s)
               (history s) w t) = p s.

(** A projection that sees only the pose and the mode of the mouse. *)
Definition senseBlind {X : Type} (p : State -> X) : Prop :=
  forall s s',
    m_x s' = m_x s -> m_y s' = m_y s -> m_d s' = m_d s ->
    m_mode s' = m_mode s -> p s' = p s.

(** A projection that the search cannot change: it ignores the queue,
    the boundary and every field of the grid but the walls. *)
Definition searchBlind {X : Type} (p : State -> X) : Prop :=
  forall s s',
    m_x s' = m_x s -> m_y s' = m_y s -> m_d s' = m_d s ->
    m_mode s' = m_mode s ->
    wallKnown (maze s') = wallKnown (maze s) ->
    wallPresent (maze s') = wallPresent (maze s) ->
    history s' = history s -> p s' = p s.

(** A projection that moving cannot change: it ignores the pose, the
    move counter of the log and the boundary. *)
Definition moveBlind {X : Type} (p : State -> X) : Prop :=
  forall s s',
    m_mode s' = m_mode s -> maze s' = maze s -> heap s' = heap s ->
    History.entries (history s') = History.entries (history s) ->
    p s' = p s.


(** The step a direction makes in x and in y. *)
Definition stepX (d : Z) : Z :=
  if d =? EAST then 1 else if d =? WEST then -1 else 0.
Definition stepY (d : Z) : Z :=
  if d =? NORTH then 1 else if d =? SOUTH then -1 else 0.

(** The side [(c', d')] is one of the sides a two-sided update of
    [(c, d)] writes. *)
Definition touched (c : cell) (d : Z) (c' : cell) (d' : Z) : bool :=
  (cell_eqb c' c && (d' =? d))
  || (hasNeighboringCell c d
      && (cell_eqb c' (neighbor c d) && (d' =? opposite d))).

(** The grid after [setCellWall] and after [unsetCellWall] on both
    sides. *)
Definition setBoth (c : cell) (d : Z) (w : bool) (g : Grid) : Grid :=
  if hasNeighboringCell c d
  then Maze.setWall (neighbor c d) (opposite d) w (Maze.setWall c d w g)
  else Maze.setWall c d w g.

Definition clearBoth (c : cell) (d : Z) (g : Grid) : Grid :=
  if hasNeighboringCell c d
  then Maze.clearWall (neighbor c d) (opposite d) (Maze.clearWall c d g)
  else Maze.clearWall c d g.

(** Everything of the state but the grid, the world and the trace. *)
Definition mouseAndLog (s : State) :=
  (m_x s, m_y s, m_d s, m_mode s, heap s, history s).

(** The sides of the cell [(x, y)] that the perimeter loop marks. *)
Definition perimeterTest (x y d : Z) : bool :=
  ((d =? WEST) && (x =? 0)) || ((d =? SOUTH) && (y =? 0))
  || ((d =? EAST) && (x =? WIDTH cfg - 1))
  || ((d =? NORTH) && (y =? HEIGHT cfg - 1)).

Definition marks (x y : Z) (c' : cell) (d' : Z) : bool :=
  cell_eqb c' (x, y) && perimeterTest x y d'.

Definition markCell (x y : Z) (g : Grid) : Grid :=
  let g1 := if x =? 0 then Maze.setWall (x, y) WEST true g else g in
  let g2 := if y =? 0 then Maze.setWall (x, y) SOUTH true g1 else g1 in
  let g3 := if x =? WIDTH cfg - 1
            then Maze.setWall (x, y) EAST true g2 else g2 in
  if y =? HEIGHT cfg - 1 then Maze.setWall (x, y) NORTH true g3 else g3.

(** The test [reset] makes on the data byte: was direction [d] learned? *)
Definition learnedBit (data d : Z) : bool :=
  negb (Z.land (Z.shiftr data (d + 4)) 1 =? 0).

(** The sides an entry of the log stands for: those its learned
    directions wrote, on either side of the wall. *)
Definition coveredBy (e : cell * Z) (c : cell) (d : Z) : bool :=
  existsb (fun d0 => learnedBit (snd e) d0 && touched (fst e) d0 c d)
          (below 0 4).

Definition symInternal (g : Grid) : Prop :=
  forall c d, inGrid c -> validDirection d ->
    hasNeighboringCell c d = true ->
    wallKnown g (neighbor c d) (opposite d) = wallKnown g c d
    /\ wallPresent g (neighbor c d) (opposite d) = wallPresent g c d.

Definition perimInternal (g : Grid) : Prop :=
  forall c d, perimeterWall c d ->
    wallKnown g c d = true /\ wallPresent g c d = true.

(** Every entry is about a cell of the grid and learned only walls with
    a cell behind them. *)
Definition logSound (l : list (cell * Z)) : Prop :=
  forall e, In e l ->
    inGrid (fst e)
    /\ forall d, validDirection d -> learnedBit (snd e) d = true ->
         hasNeighboringCell (fst e) d = true.

(** Every known wall with a cell behind it is in the log. *)
Definition logCovers (g : Grid) (l : list (cell * Z)) : Prop :=
  forall c d, inGrid c -> validDirection d ->
    hasNeighboringCell c d = true -> wallKnown g c d = true ->
    existsb (fun e => coveredBy e c d) l = true.

Definition wallsInv (g : Grid) (l : list (cell * Z)) : Prop :=
  symInternal g /\ perimInternal g /\ logSound l /\ logCovers g l.

Definition poseInv (s : State) : Prop :=
  validDirection (m_d s) /\ inGrid (m_x s, m_y s).

Definition Inv (s : State) : Prop :=
  poseInv s /\ wallsInv (maze s) (History.entries (history s)).

(** What the invariant looks at. *)
Definition invView (s : State) :=
  (m_x s, m_y s, m_d s, wallKnown (maze s), wallPresent (maze s),
   History.entries (history s)).

(** The grid after [reset] has undone the directions [ds] of an entry. *)
Definition undoDirections (e : cell * Z) (ds : list Z) (g : Grid) : Grid :=
  fold_left (fun g d => if learnedBit (snd e) d
                        then clearBoth (fst e) d g else g) ds g.

(** What [moveOneCell] does to the mouse when its assertion holds. *)
Definition movedTo (s s' : State) (dir : Z) : Prop :=
  m_x s' = m_x s + stepX dir /\ m_y s' = m_y s + stepY dir /\ m_d s' = dir
  /\ m_mode s' = m_mode s /\ maze s' = maze s /\ heap s' = heap s
  /\ history s' = history s
  /\ exists turns,
       trace s' = Told MoveForward :: turns ++ trace s
       /\ forall e, In e turns -> e = Told TurnLeft \/ e = Told TurnRight.

(** What [followPath] did, read off the state [s] it started in, the
    cell [start] it was given and its outcome [o]: the cells [hops] it
    moved through and the piece [delta] it added to the trace. *)
Definition followed (s : State) (start : cell) (o : outcome unit)
  (hops : list cell) (delta : list event) : Prop :=
  knownChain (maze s) start hops
  /\ maze (final o) = maze s
  /\ trace (final o) = delta ++ trace s
  /\ forwardMoves delta = length hops
  /\ (m_x (final o), m_y (final o)) = last hops start
  /\ poseInv (final o)
  /\ ~ In (Asked WasReset true) (tl delta)
  /\ hopBlocks delta
  /\ (hd_error delta = Some (Asked WasReset true) -> exists s', o = Done tt s')
  /\ (forall s', o = Done tt s' ->
        hd_error delta = Some (Asked WasReset true)
        \/ Maze.hasNext (maze s) (last hops start)
           && Maze.isKnown (maze s) (last hops start)
                (Maze.getNextDirection (maze s) (last hops start)) = false).

(** [a] is followed by [b] in the list. *)
Definition adjacent (l : list cell) (a b : cell) : Prop :=
  exists l1 l2, l = l1 ++ a :: b :: l2.

(** The pointer of [a] is set and leads to [b]. *)
Definition linked (g : Grid) (a b : cell) : Prop :=
  Maze.hasNext g a = true
  /\ validDirection (Maze.getNextDirection g a)
  /\ hasNeighboringCell a (Maze.getNextDirection g a) = true
  /\ b = neighbor a (Maze.getNextDirection g a).

(** The fields of the grid that a reversal does not write. *)
Definition sameOther (g' g : Grid) : Prop :=
  wallKnown g' = wallKnown g /\ wallPresent g' = wallPresent g
  /\ distance g' = distance g /\ discovered g' = discovered g
  /\ straightAwayLength g' = straightAwayLength g.

(** The end of [reverseLinkedList]: its loop and what follows it. *)
Definition reverseTail (fuel : nat) (direction : Z) (current : cell)
  : M cell :=
  bind (reverseLoop fuel direction current) (fun r =>
    bind (getOppositeDirection (fst r)) (fun opposite =>
      bind (onMaze (Maze.setNextDirection (snd r) opposite)) (fun _ =>
        ret (snd r)))).

(** The three directions [readWalls] looks at, each with its sensor:
    left, front and right of the heading [d]. *)
Definition lookedAt (d : Z) : list (Z * query) :=
  [((d + 3) mod 4, WallLeft); (d, WallFront); ((d + 1) mod 4, WallRight)].

(** The direction the loop of [readWalls] computes for the offset [i]. *)
Definition directionAt (d i : Z) : Z := to_byte (Z.rem (d + i + 4) 4).

(** A piece of code that reads no sensor. *)
Definition quiet {A : Type} (m : M A) : Prop :=
  forall s, exists tells,
    trace (final (m s)) = tells ++ trace s /\ sensorReads tells = [].

End Navigator.

Arguments Done {E A} a s.
Arguments Aborted {E A} s.
Arguments Timeout {E A} s.

(** ** A simulated world *)

(** The maze the mouse really stands in: its walls, the pose of the
    mouse and the answers still to give to the reset query.  Sensors
    are truthful and moves are carried out as told. *)
Record Sim : Type := mkSim {
  realWall : Z -> Z -> Z -> bool;
  px : Z;
  py : Z;
  pd : Z;
  resets : list bool
}.

Definition sim_ask (q : query) (w : Sim) : bool * Sim :=
  match q with
  | WallFront => (realWall w (px w) (py w) (pd w), w)
  | WallLeft => (realWall w (px w) (py w) ((pd w + 3) mod 4), w)
  | WallRight => (realWall w (px w) (py w) ((pd w + 1) mod 4), w)
  | WasReset =>
      match resets w with
      | [] => (false, w)
      | b :: r => (b, mkSim (realWall w) (px w) (py w) (pd w) r)
      end
  end.

Definition sim_tell (c : command) (w : Sim) : Sim :=
  match c with
  | MoveForward =>
      let d := pd w in
      mkSim (realWall w)
            (px w + (if d =? EAST then 1 else if d =? WEST then -1 else 0))
            (py w + (if d =? NORTH then 1 else if d =? SOUTH then -1 else 0))
            d (resets w)
  | TurnLeft => mkSim (realWall w) (px w) (py w) ((pd w + 3) mod 4) (resets w)
  | TurnRight => mkSim (realWall w) (px w) (py w) ((pd w + 1) mod 4) (resets w)
  | _ => w
  end.

#[export] Instance SimBoundary : Boundary Sim :=
  {| ask := sim_ask; tell := sim_tell |}.

(** The 4 x 4 grid of the scenarios of the specification, with the
    center block {(1,1),(1,2),(2,1),(2,2)}, and the 16 x 16 build with
    its 2 x 2 center; simple cost regime, heading NORTH after a reset. *)
Definition cfg4 : Config := mkConfig 4 4 1 1 2 2 false NORTH.
Definition cfg16 : Config := mkConfig 16 16 7 7 8 8 false NORTH.

(** The same 16 x 16 build in the fast-straightaways regime. *)
Definition cfg16fast : Config := mkConfig 16 16 7 7 8 8 true NORTH.

(** A corridor of three cells, (0,0), (1,0) and (2,0), whose center
    region is the far cell (2,0). *)
Definition cfgCorridor : Config := mkConfig 3 1 2 0 2 0 false NORTH.

Definition outside (cfg : Config) (x y : Z) : bool :=
  (x <? 0) || (WIDTH cfg - 1 <? x) || (y <? 0) || (HEIGHT cfg - 1 <? y).

(** A maze with no inner wall at all. *)
Definition openMaze (cfg : Config) (x y d : Z) : bool :=
  outside cfg (x + stepX d) (y + stepY d).

(** A maze whose only inner walls seal the center region off: a wall
    stands on an edge when it leaves the grid or when exactly one of
    its two cells lies in the center region. *)
Definition sealedMaze (cfg : Config) (x y d : Z) : bool :=
  if outside cfg (x + stepX d) (y + stepY d) then true
  else xorb (inCenterRegion cfg x y)
            (inCenterRegion cfg (x + stepX d) (y + stepY d)).

(** The world at the start of a run: the mouse at the origin facing
    NORTH, and the answers the reset query will give. *)
Definition worldOf (walls : Z -> Z -> Z -> bool) (resets : list bool) : Sim :=
  mkSim walls 0 0 NORTH resets.

(** How an outcome ended, and what it returned. *)
Definition isDone {E A : Type} (o : @outcome E A) : bool :=
  match o with Done _ _ => true | _ => false end.

Definition isAborted {E A : Type} (o : @outcome E A) : bool :=
  match o with Aborted _ => true | _ => false end.

(** Still running when the fuel ended. *)
Definition isTimeout {E A : Type} (o : @outcome E A) : bool :=
  match o with Timeout _ => true | _ => false end.

Definition resultOf {E A : Type} (o : @outcome E A) : option A :=
  match o with Done a _ => Some a | _ => None end.

Definition inGridb (cfg : Config) (c : cell) : bool :=
  (0 <=? fst c) && (fst c <? WIDTH cfg) && (0 <=? snd c) && (snd c <? HEIGHT cfg).

(** ** Concrete runs *)

(** The run on the 4 x 4 grid whose center block is sealed off. *)
Definition sealedRun (rounds : nat) : @outcome Sim unit :=
  solve cfg4 rounds 100 (initialState (worldOf (sealedMaze cfg4) [])).

(** The state after eleven rounds of that run, after the sensing of the
    twelfth round, and after its search and the drawing of the path. *)
Definition sealedBefore : @State Sim := final (sealedRun 11).
Definition sealedSensed : @State Sim := final (readWalls cfg4 sealedBefore).
Definition sealedCurrent : cell :=
  Maze.getCell (m_x sealedSensed) (m_y sealedSensed).
Definition sealedPlanned : @State Sim :=
  final (drawPath cfg4 100 sealedCurrent
           (final (generatePath cfg4 100 sealedCurrent sealedSensed))).

(** The cells of the 4 x 4 grid outside the center block. *)
Definition ring (c : cell) : bool :=
  inGridb cfg4 c && negb (inCenterRegion cfg4 (fst c) (snd c)).

(** The run on the corridor whose far cell is walled off: the state
    after its first round, after the sensing of the second round, and
    after the search and the drawing of the path of that round. *)
Definition corridorRun (rounds : nat) : @outcome Sim unit :=
  solve cfgCorridor rounds 100
    (initialState (worldOf (sealedMaze cfgCorridor) [])).
Definition corridorBefore : @State Sim := final (corridorRun 1).
Definition corridorSensed : @State Sim :=
  final (readWalls cfgCorridor corridorBefore).
Definition corridorCurrent : cell :=
  Maze.getCell (m_x corridorSensed) (m_y corridorSensed).
Definition corridorPlanned : @State Sim :=
  final (drawPath cfgCorridor 100 corridorCurrent
           (final (generatePath cfgCorridor 100 corridorCurrent
                     corridorSensed))).

(** The two near cells of the corridor. *)
Definition nearCells (c : cell) : bool :=
  inGridb cfgCorridor c && negb (inCenterRegion cfgCorridor (fst c) (snd c)).

(** The run on the 4 x 4 grid with no inner wall: its start, the states
    after one and after three rounds, and the first round after its
    search. *)
Definition openStart : @State Sim :=
  final (startUp cfg4 (initialState (worldOf (openMaze cfg4) []))).
Definition openRun (rounds : nat) : @outcome Sim unit :=
  solve cfg4 rounds 100 (initialState (worldOf (openMaze cfg4) [])).
Definition openSearched : @State Sim :=
  let s := final (readWalls cfg4 openStart) in
  final (generatePath cfg4 100 (Maze.getCell (m_x s) (m_y s)) s).

(** A grid with two pointers, from (0,2) down to (0,0). *)
Definition twoPointers : @State Sim :=
  set_maze (Maze.setNextDirection (0, 2) SOUTH
              (Maze.setNextDirection (0, 1) SOUTH Maze.empty))
           (initialState (worldOf (openMaze cfg4) [])).

(** A 2 x 2 grid that is all center region. *)
Definition cfgWhole : Config := mkConfig 2 2 0 0 1 1 false NORTH.

(** Constants with the upper corner of the center region at 255 in x:
    the region is the six cells (250,0) to (255,0). *)
Definition cfgWrap : Config := mkConfig 16 16 250 0 255 0 false NORTH.

(** A grid whose only pointers lead from (0,0) to (0,1) and back. *)
Definition circle : @State Sim :=
  set_maze (Maze.setNextDirection (0, 0) NORTH
              (Maze.setNextDirection (0, 1) SOUTH Maze.empty))
           (initialState (worldOf (openMaze cfg4) [])).

(** ** Notions for the further properties *)

(** What a command does to the pose of a mouse that obeys it: a turn is
    a quarter turn, a move is one cell ahead, and an acknowledged reset
    means that the mouse was put back on the origin with the configured
    heading.  The other commands only draw. *)
Definition afterCommand (cfg : Config) (c : command) (p : Z * Z * Z)
  : Z * Z * Z :=
  let '(x, y, d) := p in
  match c with
  | TurnLeft => (x, y, (d + 3) mod 4)
  | TurnRight => (x, y, (d + 1) mod 4)
  | MoveForward => (x + stepX d, y + stepY d, d)
  | AckReset => (0, 0, m_initialDirection cfg)
  | _ => p
  end.

(** The pose after the commands of a trace (newest first), from [p]. *)
Fixpoint replay (cfg : Config) (t : list event) (p : Z * Z * Z)
  : Z * Z * Z :=
  match t with
  | [] => p
  | Told c :: t' => afterCommand cfg c (replay cfg t' p)
  | Asked _ _ :: t' => replay cfg t' p
  end.

(** The pose the navigator keeps. *)
Definition pose {E : Type} (s : @State E) : Z * Z * Z :=
  (m_x s, m_y s, m_d s).

(** [emits ok m]: whatever the outcome, [m] adds to the trace only calls
    that [ok] accepts. *)
Definition emits {E A : Type} (ok : event -> bool) (m : @M E A) : Prop :=
  forall s, exists delta,
    trace (final (m s)) = delta ++ trace s /\ forallb ok delta = true.

(** The pose the navigator keeps is the pose of a mouse that obeyed
    every command of the trace, from the origin heading NORTH. *)
Definition tracked {E : Type} (cfg : Config) (s : @State E) : Prop :=
  pose s = replay cfg (trace s) (0, 0, NORTH).

(** [openChain cfg g c hops]: following the pointers from [c] leads
    through [hops], and every edge taken is known to have no wall. *)
Inductive openChain (cfg : Config) (g : Grid)
  : cell -> list cell -> Prop :=
| oc_stop (c : cell) : openChain cfg g c []
| oc_hop (c : cell) (hops : list cell) :
    Maze.hasNext g c = true ->
    Maze.isKnown g c (Maze.getNextDirection g c) = true ->
    Maze.isWall g c (Maze.getNextDirection g c) = false ->
    hasNeighboringCell cfg c (Maze.getNextDirection g c) = true ->
    openChain cfg g (neighbor c (Maze.getNextDirection g c)) hops ->
    openChain cfg g c (neighbor c (Maze.getNextDirection g c) :: hops).

(** The calls that change the pose of the mouse. *)
Definition isMotion (e : event) : bool :=
  match e with
  | Told MoveForward | Told TurnLeft | Told TurnRight | Told AckReset => true
  | _ => false
  end.

Definition isSetText (e : event) : bool :=
  match e with Told (SetText _ _ _) => true | _ => false end.

Definition isSetColor (e : event) : bool :=
  match e with Told (SetColor _ _ _) => true | _ => false end.

(** * Properties *)

Section Properties.

Context {E : Type} {B : Boundary E}.
Variable cfg : Config.

Local Abbreviation State := (@State E).
Local Abbreviation M := (@M E).

(** ** The monad *)

Lemma bind_Done {A C : Type} (m : M A) (k : A -> M C) (s s' : State) (c : C) :
  bind m k s = Done c s' ->
  exists a s1, m s = Done a s1 /\ k a s1 = Done c s'.
Proof.
  unfold bind. destruct (m s) as [a s1| |]; try discriminate.
  intros H. exists a, s1. split; [reflexivity | exact H].
Qed.

Lemma bind_Done_intro {A C : Type} (m : M A) (k : A -> M C)
  (s s1 : State) (a : A) :
  m s = Done a s1 -> bind m k s = k a s1.
Proof. unfold bind. intros ->. reflexivity. Qed.

(** Run the first command of a sequence whose outcome [H] gives. *)
Ltac run_bind H := rewrite (bind_Done_intro _ _ _ _ _ H); cbv beta.

Lemma keeps_ret {X A} (p : State -> X) (a : A) : keeps p (ret a).
Proof. intros s. reflexivity. Qed.

Lemma keeps_abort {X A} (p : State -> X) : keeps p (@abort E A).
Proof. intros s. reflexivity. Qed.

Lemma keeps_timeout {X A} (p : State -> X) : keeps p (@timeout E A).
Proof. intros s. reflexivity. Qed.

Lemma keeps_gets {X A} (p : State -> X) (f : State -> A) : keeps p (gets f).
Proof. intros s. reflexivity. Qed.

Lemma keeps_bind {X A C} (p : State -> X) (m : M A) (k : A -> M C) :
  keeps p m -> (forall a, keeps p (k a)) -> keeps p (bind m k).
Proof.
  intros Hm Hk s. unfold bind. specialize (Hm s).
  destruct (m s) as [a s1| s1 | s1]; simpl in *; try exact Hm.
  rewrite Hk. exact Hm.
Qed.

Lemma keeps_modify {X} (p : State -> X) (f : State -> State) :
  (forall s, p (f s) = p s) -> keeps p (modify f).
Proof. intros H s. simpl. apply H. Qed.

Lemma keeps_forM {X A} (p : State -> X) (l : list A) (body : A -> M unit) :
  (forall a, keeps p (body a)) -> keeps p (forM_ l body).
Proof.
  intros H. induction l as [|a l IH]; simpl.
  - apply keeps_ret.
  - apply keeps_bind; [apply H | intros _; exact IH].
Qed.

Lemma keeps_forByte {X} (p : State -> X) (hi : Z) (body : Z -> M unit) :
  (forall a, keeps p (body a)) ->
  forall fuel v, keeps p (forByte fuel v hi body).
Proof.
  intros H. induction fuel as [|fuel IH]; intros v; simpl.
  - apply keeps_timeout.
  - destruct (v <=? hi); [|apply keeps_ret].
    apply keeps_bind; [apply H | intros _; apply IH].
Qed.

Lemma inCenter_still (fuel : nat) (x y : Z) (s : State) :
  final (inCenter cfg fuel x y s) = s.
Proof.
  unfold inCenter.
  destruct (inCenterRows cfg fuel fuel x y (to_byte (CLLX cfg)));
    reflexivity.
Qed.

Lemma getClosestDestinationCell_still (fuel : nat) (s : State) :
  final (getClosestDestinationCell cfg fuel s) = s.
Proof.
  unfold getClosestDestinationCell. cbv zeta.
  destruct (Mode_eqb (m_mode s) CENTER); [|reflexivity].
  match goal with |- final (match ?o with _ => _ end) = _ => destruct o end;
    reflexivity.
Qed.

Lemma keeps_inCenter {X} (p : State -> X) (fuel : nat) (x y : Z) :
  keeps p (inCenter cfg fuel x y).
Proof. intros s. rewrite inCenter_still. reflexivity. Qed.

Lemma keeps_getClosestDestinationCell {X} (p : State -> X) (fuel : nat) :
  keeps p (getClosestDestinationCell cfg fuel).
Proof. intros s. rewrite getClosestDestinationCell_still. reflexivity. Qed.

Lemma keeps_ASSERT {X} (p : State -> X) (b : bool) : keeps p (ASSERT_TR b).
Proof. destruct b; [apply keeps_ret | apply keeps_abort]. Qed.

Lemma keeps_ask {X} (p : State -> X) (q : query) :
  inward p -> keeps p (API_ask q).
Proof.
  intros H s. unfold API_ask. destruct (ask q (world s)) as [a w]. simpl.
  apply H.
Qed.

Lemma keeps_tell {X} (p : State -> X) (c : command) :
  inward p -> keeps p (API_tell c).
Proof. intros H s. unfold API_tell. simpl. apply H. Qed.

(** One step of a proof that a piece of code keeps a projection. *)
Ltac keeps_step :=
  lazymatch goal with
  | |- keeps _ (bind _ _) => apply keeps_bind; [| intros ?]
  | |- keeps _ (ret _) => apply keeps_ret
  | |- keeps _ abort => apply keeps_abort
  | |- keeps _ timeout => apply keeps_timeout
  | |- keeps _ (gets _) => apply keeps_gets
  | |- keeps _ (ASSERT_TR _) => apply keeps_ASSERT
  | |- keeps _ (forM_ _ _) => apply keeps_forM; intros ?
  | |- keeps _ (forByte _ _ _ _) => apply keeps_forByte; intros ?
  | |- keeps _ (inCenter _ _ _ _) => apply keeps_inCenter
  | |- keeps _ (getClosestDestinationCell _ _) =>
      apply keeps_getClosestDestinationCell
  | |- keeps _ (API_ask _) => apply keeps_ask; intros ? ? ?; reflexivity
  | |- keeps _ (API_tell _) => apply keeps_tell; intros ? ? ?; reflexivity
  | |- keeps _ (modify _) => apply keeps_modify; intros ?; reflexivity
  | |- keeps _ (onMaze _) => apply keeps_modify; intros ?; reflexivity
  | |- keeps _ (if ?b then _ else _) => destruct b
  | |- keeps _ (match ?x with _ => _ end) => destruct x
  end.

Ltac keeps_auto := repeat (cbv zeta; keeps_step).

(** The goal check changes the mode and nothing else. *)
Lemma keeps_goalCheck {X} (p : State -> X) (fuel : nat) :
  (forall mode s, p (set_mode mode s) = p s) -> keeps p (goalCheck cfg fuel).
Proof.
  intros Hp. unfold goalCheck.
  apply keeps_bind; [apply keeps_gets | intros mode].
  apply keeps_bind; [apply keeps_gets | intros x].
  apply keeps_bind; [apply keeps_gets | intros y].
  apply keeps_bind.
  { destruct (Mode_eqb mode CENTER); [|apply keeps_ret].
    apply keeps_bind; [apply keeps_inCenter | intros inside].
    destruct inside; [apply keeps_modify; intros s; apply Hp
                     | apply keeps_ret]. }
  intros _. apply keeps_bind; [apply keeps_gets | intros mode'].
  destruct (Mode_eqb mode' ORIGIN && inOrigin x y);
    [apply keeps_modify; intros s; apply Hp | apply keeps_ret].
Qed.

(** ** Directions and neighbors *)

Lemma validDirection_cases (d : Z) :
  validDirection d -> d = 0 \/ d = 1 \/ d = 2 \/ d = 3.
Proof. unfold validDirection. lia. Qed.

Lemma getOppositeDirection_valid (d : Z) (s : State) :
  validDirection d -> getOppositeDirection d s = Done (opposite d) s.
Proof.
  intros H. destruct (validDirection_cases d H) as [->|[->|[->| ->]]];
    reflexivity.
Qed.

Lemma opposite_valid (d : Z) : validDirection d -> validDirection (opposite d).
Proof.
  intros H. destruct (validDirection_cases d H) as [->|[->|[->| ->]]];
    unfold validDirection, opposite; simpl; lia.
Qed.

Lemma opposite_involutive (d : Z) :
  validDirection d -> opposite (opposite d) = d.
Proof.
  intros H. destruct (validDirection_cases d H) as [->|[->|[->| ->]]];
    reflexivity.
Qed.

Lemma getNeighboringCell_has (c : cell) (d : Z) (s : State) :
  hasNeighboringCell cfg c d = true ->
  getNeighboringCell cfg c d s = Done (neighbor c d) s.
Proof.
  intros H. unfold getNeighboringCell, neighbor, bind. rewrite H. simpl.
  destruct (d =? 0); [reflexivity|].
  destruct (d =? 1); [reflexivity|].
  destruct (d =? 2); reflexivity.
Qed.

Lemma getNeighboringCell_none (c : cell) (d : Z) (s : State) :
  hasNeighboringCell cfg c d = false ->
  getNeighboringCell cfg c d s = Aborted s.
Proof.
  intros H. unfold getNeighboringCell, bind. rewrite H. reflexivity.
Qed.

Lemma to_byte_small (z : Z) : 0 <= z < 256 -> to_byte z = z.
Proof. intros H. unfold to_byte. apply Z.mod_small. exact H. Qed.

Lemma cell_eqb_eq (a b : cell) : cell_eqb a b = true <-> a = b.
Proof.
  destruct a as [x y], b as [x' y']. unfold cell_eqb. simpl.
  rewrite andb_true_iff, !Z.eqb_eq. split.
  - intros [-> ->]. reflexivity.
  - intros H. inversion H. split; reflexivity.
Qed.

Lemma cell_eqb_refl (a : cell) : cell_eqb a a = true.
Proof. apply cell_eqb_eq. reflexivity. Qed.

Lemma cell_eq_dec (a b : cell) : {a = b} + {a <> b}.
Proof.
  destruct (cell_eqb a b) eqn:H;
    [left; apply cell_eqb_eq | right; intros Heq; apply cell_eqb_eq in Heq];
    congruence.
Qed.

Lemma cell_eqb_neq (a b : cell) : cell_eqb a b = false <-> a <> b.
Proof.
  split.
  - intros H Heq. apply cell_eqb_eq in Heq. congruence.
  - intros H. destruct (cell_eqb a b) eqn:Heq; [|reflexivity].
    apply cell_eqb_eq in Heq. contradiction.
Qed.

(** ** Lists of loop values *)

Lemma In_counting (lo : Z) (n : nat) (z : Z) :
  In z (counting lo n) <-> lo <= z < lo + Z.of_nat n.
Proof.
  revert lo. induction n as [|n IH]; intros lo; simpl.
  - lia.
  - rewrite IH. lia.
Qed.

Lemma In_below (lo hi z : Z) : In z (below lo hi) <-> lo <= z < hi.
Proof. unfold below. rewrite In_counting. lia. Qed.

Lemma In_upto (lo hi z : Z) : In z (upto lo hi) <-> lo <= z <= hi.
Proof. unfold upto. rewrite In_counting. lia. Qed.

(** ** The byte loops

    With the upper corner below 255 and the counter started in the byte
    range, a byte loop with enough fuel is the loop over the values
    from the lower to the upper corner. *)

Lemma forM_ext {A : Type} (l : list A) (f g : A -> M unit) :
  (forall a s, f a s = g a s) -> forall s, forM_ l f s = forM_ l g s.
Proof.
  intros H. induction l as [|a l IH]; intros s; simpl; [reflexivity|].
  unfold bind. rewrite H. destruct (g a s); try reflexivity. apply IH.
Qed.

Lemma forByte_upto (hi : Z) (body : Z -> M unit) :
  hi < 255 ->
  forall (fuel : nat) (lo : Z) (s : State),
    0 <= lo <= 255 -> (Z.to_nat (hi + 1 - lo) < fuel)%nat ->
    forByte fuel lo hi body s = forM_ (upto lo hi) body s.
Proof.
  intros Hhi. induction fuel as [|fuel IH]; intros lo s Hlo Hf; [lia|].
  simpl. unfold upto. destruct (lo <=? hi) eqn:Hle.
  - apply Z.leb_le in Hle.
    replace (Z.to_nat (hi + 1 - lo)) with (S (Z.to_nat (hi + 1 - (lo + 1))))
      by lia.
    simpl. unfold bind. destruct (body lo s); try reflexivity.
    rewrite to_byte_small by lia. apply IH; lia.
  - apply Z.leb_gt in Hle.
    replace (Z.to_nat (hi + 1 - lo)) with O by lia. reflexivity.
Qed.

Lemma foldByte_upto {A : Type} (hi : Z) (f : A -> Z -> option A)
  (h : A -> Z -> A) :
  hi < 255 ->
  (forall a v, f a v = Some (h a v)) ->
  forall (fuel : nat) (lo : Z) (a : A),
    0 <= lo <= 255 -> (Z.to_nat (hi + 1 - lo) < fuel)%nat ->
    foldByte fuel lo hi f a = Some (fold_left h (upto lo hi) a).
Proof.
  intros Hhi Hfh. induction fuel as [|fuel IH]; intros lo a Hlo Hf; [lia|].
  simpl. unfold upto. destruct (lo <=? hi) eqn:Hle.
  - apply Z.leb_le in Hle.
    replace (Z.to_nat (hi + 1 - lo)) with (S (Z.to_nat (hi + 1 - (lo + 1))))
      by lia.
    simpl. rewrite Hfh. rewrite to_byte_small by lia. apply IH; lia.
  - apply Z.leb_gt in Hle.
    replace (Z.to_nat (hi + 1 - lo)) with O by lia. reflexivity.
Qed.

(** With the upper bound at 255 or more the test of a byte loop never
    fails: when its body neither aborts nor leaves the loop, the loop is
    still running when the fuel ends, whatever the fuel. *)
Lemma forByte_endless (hi : Z) (body : Z -> M unit) :
  255 <= hi ->
  (forall v s, isAborted (body v s) = false) ->
  forall (fuel : nat) (v : Z) (s : State),
    0 <= v <= 255 -> isTimeout (forByte fuel v hi body s) = true.
Proof.
  intros Hhi Hbody. induction fuel as [|fuel IH]; intros v s Hv;
    [reflexivity|].
  simpl. destruct (v <=? hi) eqn:Hle; [|apply Z.leb_gt in Hle; lia].
  unfold bind. specialize (Hbody v s).
  destruct (body v s) as [[] s1|s1|s1]; [|discriminate|reflexivity].
  apply IH. unfold to_byte. pose proof (Z.mod_pos_bound (v + 1) 256). lia.
Qed.

Ltac bool_cases :=
  repeat match goal with
         | |- context [?a =? ?b] => destruct (Z.eqb_spec a b)
         | |- context [?a <=? ?b] => destruct (Z.leb_spec a b)
         end;
  simpl; try reflexivity; try lia.

Lemma inCenterColumn_spec (x y xx : Z) :
  CURY cfg < 255 ->
  forall (fuel : nat) (yy : Z),
    0 <= yy <= 255 ->
    ((Z.to_nat (CURY cfg + 1 - yy) < fuel)%nat ->
       inCenterColumn cfg fuel x y xx yy
       = Some ((x =? xx) && (yy <=? y) && (y <=? CURY cfg)))
    /\ (forall b, inCenterColumn cfg fuel x y xx yy = Some b ->
           b = (x =? xx) && (yy <=? y) && (y <=? CURY cfg)).
Proof.
  intros Hhi. induction fuel as [|fuel IH]; intros yy Hyy.
  - split; [lia | discriminate].
  - simpl. destruct (yy <=? CURY cfg) eqn:Hle.
    + apply Z.leb_le in Hle.
      destruct ((x =? xx) && (y =? yy)) eqn:Hhit.
      * apply andb_true_iff in Hhit. destruct Hhit as [H1 H2].
        apply Z.eqb_eq in H1. apply Z.eqb_eq in H2. subst.
        assert (Hv : (xx =? xx) && (yy <=? yy) && (yy <=? CURY cfg) = true)
          by bool_cases.
        rewrite Hv. split; [reflexivity | intros b Hb; congruence].
      * rewrite to_byte_small by lia.
        destruct (IH (yy + 1)) as [IH1 IH2]; [lia|].
        assert (Hv : (x =? xx) && (yy + 1 <=? y) && (y <=? CURY cfg)
                     = (x =? xx) && (yy <=? y) && (y <=? CURY cfg)).
        { apply andb_false_iff in Hhit.
          destruct Hhit as [Hn|Hn]; apply Z.eqb_neq in Hn; bool_cases. }
        rewrite <- Hv. split; [intros Hf; apply IH1; lia | exact IH2].
    + apply Z.leb_gt in Hle.
      assert (Hv : (x =? xx) && (yy <=? y) && (y <=? CURY cfg) = false)
        by bool_cases.
      rewrite Hv. split; [reflexivity | intros b Hb; congruence].
Qed.

Lemma inCenterRows_spec (x y : Z) :
  centerFitsBytes cfg ->
  forall (fuelY fuel : nat) (xx : Z),
    0 <= xx <= 255 ->
    ((Z.to_nat (CURX cfg + 1 - xx) < fuel)%nat ->
     (Z.to_nat (CURY cfg + 1 - CLLY cfg) < fuelY)%nat ->
       inCenterRows cfg fuel fuelY x y xx
       = Some ((xx <=? x) && (x <=? CURX cfg)
               && (CLLY cfg <=? y) && (y <=? CURY cfg)))
    /\ (forall b, inCenterRows cfg fuel fuelY x y xx = Some b ->
           b = (xx <=? x) && (x <=? CURX cfg)
               && (CLLY cfg <=? y) && (y <=? CURY cfg)).
Proof.
  intros [Hlx [Hux [Hly Huy]]] fuelY.
  induction fuel as [|fuel IH]; intros xx Hxx.
  - split; [lia | discriminate].
  - simpl. destruct (xx <=? CURX cfg) eqn:Hle.
    + apply Z.leb_le in Hle. rewrite (to_byte_small (CLLY cfg)) by lia.
      destruct (inCenterColumn_spec x y xx Huy fuelY (CLLY cfg))
        as [C1 C2]; [lia|].
      rewrite (to_byte_small (xx + 1)) by lia.
      destruct (IH (xx + 1)) as [IH1 IH2]; [lia|].
      destruct (inCenterColumn cfg fuelY x y xx (CLLY cfg)) as [[|]|] eqn:Hcol.
      * specialize (C2 true eq_refl).
        assert (Hv : (xx <=? x) && (x <=? CURX cfg)
                     && (CLLY cfg <=? y) && (y <=? CURY cfg) = true).
        { symmetry in C2. apply andb_true_iff in C2. destruct C2 as [C2 C3].
          apply andb_true_iff in C2. destruct C2 as [C1' C2].
          apply Z.eqb_eq in C1'. subst xx. rewrite C2, C3. bool_cases. }
        rewrite Hv. split; [reflexivity | intros b Hb; congruence].
      * specialize (C2 false eq_refl).
        assert (Hv : (xx + 1 <=? x) && (x <=? CURX cfg)
                     && (CLLY cfg <=? y) && (y <=? CURY cfg)
                     = (xx <=? x) && (x <=? CURX cfg)
                       && (CLLY cfg <=? y) && (y <=? CURY cfg)).
        { destruct (Z.eqb_spec x xx) as [Heq|Hne].
          - subst xx. simpl in C2.
            destruct (CLLY cfg <=? y); [|bool_cases].
            destruct (y <=? CURY cfg); [discriminate|]. simpl.
            rewrite !andb_false_r. reflexivity.
          - bool_cases. }
        rewrite <- Hv. split; [intros Hf Hg; apply IH1; lia | exact IH2].
      * split; [|discriminate]. intros _ Hg. specialize (C1 Hg). discriminate.
    + apply Z.leb_gt in Hle.
      assert (Hv : (xx <=? x) && (x <=? CURX cfg)
                   && (CLLY cfg <=? y) && (y <=? CURY cfg) = false)
        by bool_cases.
      rewrite Hv. split; [reflexivity | intros b Hb; congruence].
Qed.

(** On a center region that fits the bytes, [inCenter] answers whether
    the cell lies in the rectangle between the corners: it cannot answer
    anything else, and with enough fuel it answers. *)
Lemma inCenter_answer (fuel : nat) (x y : Z) (s s' : State) (b : bool) :
  centerFitsBytes cfg ->
  inCenter cfg fuel x y s = Done b s' ->
  b = inCenterRegion cfg x y /\ s' = s.
Proof.
  intros Hc H. unfold inCenter in H.
  destruct (inCenterRows cfg fuel fuel x y (to_byte (CLLX cfg))) as [b'|]
    eqn:Hrows; [|discriminate].
  assert (b' = b /\ s = s') as [-> ->] by (split; congruence).
  split; [|reflexivity].
  pose proof Hc as [Hlx _]. rewrite to_byte_small in Hrows by lia.
  destruct (inCenterRows_spec x y Hc fuel fuel (CLLX cfg)) as [_ R]; [lia|].
  apply R. exact Hrows.
Qed.

Lemma inCenter_region (fuel : nat) (x y : Z) (s : State) :
  centerFitsBytes cfg -> centerFuel cfg fuel ->
  inCenter cfg fuel x y s = Done (inCenterRegion cfg x y) s.
Proof.
  intros Hc [Hfx Hfy]. unfold inCenter.
  pose proof Hc as [Hlx _]. rewrite to_byte_small by lia.
  destruct (inCenterRows_spec x y Hc fuel fuel (CLLX cfg)) as [R _]; [lia|].
  rewrite (R Hfx Hfy). reflexivity.
Qed.

Lemma inGoal_region (c : cell) :
  centerFitsBytes cfg ->
  inGoal cfg CENTER c
  <-> inCenterRegion cfg (Maze.getX c) (Maze.getY c) = true.
Proof.
  intros Hc. pose proof Hc as [Hlx _]. unfold inGoal. split.
  - intros [fuel H]. rewrite to_byte_small in H by lia.
    destruct (inCenterRows_spec (Maze.getX c) (Maze.getY c) Hc fuel fuel
                (CLLX cfg)) as [_ R]; [lia|].
    symmetry. apply R. exact H.
  - intros H.
    exists (S (Nat.max (Z.to_nat (CURX cfg + 1 - CLLX cfg))
                       (Z.to_nat (CURY cfg + 1 - CLLY cfg)))).
    rewrite to_byte_small by lia.
    destruct (inCenterRows_spec (Maze.getX c) (Maze.getY c) Hc
                (S (Nat.max (Z.to_nat (CURX cfg + 1 - CLLX cfg))
                            (Z.to_nat (CURY cfg + 1 - CLLY cfg))))
                (S (Nat.max (Z.to_nat (CURX cfg + 1 - CLLX cfg))
                            (Z.to_nat (CURY cfg + 1 - CLLY cfg))))
                (CLLX cfg)) as [R _]; [lia|].
    rewrite R by lia. unfold inCenterRegion in H. rewrite H. reflexivity.
Qed.

Lemma inCenterRegion_spec (x y : Z) :
  inCenterRegion cfg x y = true <->
  CLLX cfg <= x <= CURX cfg /\ CLLY cfg <= y <= CURY cfg.
Proof.
  unfold inCenterRegion. rewrite !andb_true_iff, !Z.leb_le. lia.
Qed.

(** ** The cost model *)

Lemma quot_256_strict :
  forall k k', In k (upto 1 20) -> In k' (upto 1 20) -> k < k' ->
    256 / k' < 256 / k.
Proof.
  assert (H : forallb (fun k => forallb (fun k' =>
                implb (k <? k') (256 / k' <? 256 / k)) (upto 1 20))
                (upto 1 20) = true) by (vm_compute; reflexivity).
  intros k k' Hk Hk' Hlt.
  rewrite forallb_forall in H. specialize (H k Hk).
  rewrite forallb_forall in H. specialize (H k' Hk').
  apply Z.ltb_lt in Hlt. rewrite Hlt in H. simpl in H.
  apply Z.ltb_lt. exact H.
Qed.

(** C6.  For every run length k >= 1 that fits the grid (k straight
    edges in a row join k + 1 cells of one row or column, so k is below
    the larger side of the grid): in the simple regime a turn costs
    exactly 2 and a straight continuation exactly 3, whatever k is; in
    the fast-straightaways regime a turn costs exactly 256 and the k-th
    consecutive straight edge exactly 256 / k in integer arithmetic,
    which is strictly less than the cost of every shorter run and
    strictly more than the cost of every longer run that fits the grid.
    [checkNeighbor] charges these costs: for a cell whose stored run
    length is k - 1 the edge costs the straight cost of k when it
    continues the pointer of the cell and the turn cost otherwise. *)
Theorem cost_model (k : Z) :
  validConfig cfg ->
  1 <= k < Z.max (WIDTH cfg) (HEIGHT cfg) ->
  (FAST_STRAIGHT_AWAYS cfg = false ->
     getTurnCost cfg = 2 /\ getStraightAwayCost cfg k = Some 3)
  /\ (FAST_STRAIGHT_AWAYS cfg = true ->
        getTurnCost cfg = 256
        /\ getStraightAwayCost cfg k = Some (256 / k)
        /\ (forall k', k < k' < Z.max (WIDTH cfg) (HEIGHT cfg) ->
              exists a b, getStraightAwayCost cfg k = Some a
                          /\ getStraightAwayCost cfg k' = Some b /\ b < a)
        /\ (forall k', 1 <= k' < k ->
              exists a b, getStraightAwayCost cfg k = Some a
                          /\ getStraightAwayCost cfg k' = Some b /\ a < b))
  /\ (forall g c directionFromNeighbor,
        Maze.getStraightAwayLength g c = k - 1 ->
        edgeCost cfg g c directionFromNeighbor =
          if Maze.getNextDirection g c =? directionFromNeighbor
          then getStraightAwayCost cfg k
          else Some (getTurnCost cfg)).
Proof.
  intros [Hw [Hh _]] Hk.
  assert (Hfast : forall j, 1 <= j <= 255 ->
            FAST_STRAIGHT_AWAYS cfg = true ->
            getStraightAwayCost cfg j = Some (256 / j)).
  { intros j Hj Hf. unfold getStraightAwayCost. cbv zeta.
    rewrite to_byte_small by lia. rewrite Hf.
    destruct (j =? 0) eqn:Hz; [apply Z.eqb_eq in Hz; lia|].
    rewrite Z.quot_div_nonneg by lia. reflexivity. }
  split; [|split].
  - intros Hf. unfold getTurnCost, getStraightAwayCost. cbv zeta.
    rewrite Hf. split; reflexivity.
  - intros Hf. split; [unfold getTurnCost; rewrite Hf; reflexivity|].
    split; [apply Hfast; [lia | assumption]|]. split.
    + intros k' Hk'. exists (256 / k), (256 / k').
      rewrite !Hfast by (assumption || lia). repeat split.
      apply quot_256_strict; try apply In_upto; lia.
    + intros k' Hk'. exists (256 / k), (256 / k').
      rewrite !Hfast by (assumption || lia). repeat split.
      apply quot_256_strict; try apply In_upto; lia.
  - intros g c dfn Hlen. unfold edgeCost. rewrite Hlen.
    replace (k - 1 + 1) with k by lia.
    rewrite to_byte_small by lia. reflexivity.
Qed.

(** ** What the phases of a step leave alone *)

Lemma senseBlind_searchBlind {X} (p : State -> X) :
  senseBlind p -> searchBlind p.
Proof. intros H s s' H1 H2 H3 H4 _ _ _. apply H; assumption. Qed.

Lemma searchBlind_inward {X} (p : State -> X) : searchBlind p -> inward p.
Proof. intros H s w t. apply H; reflexivity. Qed.

Lemma senseBlind_inward {X} (p : State -> X) : senseBlind p -> inward p.
Proof. intros H s w t. apply H; reflexivity. Qed.

Lemma moveBlind_inward {X} (p : State -> X) : moveBlind p -> inward p.
Proof. intros H s w t. apply H; reflexivity. Qed.

Ltac blind_step :=
  lazymatch goal with
  | |- keeps _ (API_ask _) =>
      apply keeps_ask;
      first [ assumption
            | apply searchBlind_inward; assumption
            | apply senseBlind_inward; assumption
            | apply moveBlind_inward; assumption ]
  | |- keeps _ (API_tell _) =>
      apply keeps_tell;
      first [ assumption
            | apply searchBlind_inward; assumption
            | apply senseBlind_inward; assumption
            | apply moveBlind_inward; assumption ]
  | |- keeps _ (modify _) =>
      apply keeps_modify; intros ?;
      match goal with
      | H : searchBlind _ |- _ => apply H; reflexivity
      | H : senseBlind _ |- _ => apply H; reflexivity
      | H : moveBlind _ |- _ => apply H; reflexivity
      end
  | |- keeps _ (onMaze _) => unfold onMaze
  | |- keeps _ (bind _ _) => apply keeps_bind; [| intros ?]
  | |- keeps _ (ret _) => apply keeps_ret
  | |- keeps _ abort => apply keeps_abort
  | |- keeps _ timeout => apply keeps_timeout
  | |- keeps _ (gets _) => apply keeps_gets
  | |- keeps _ (ASSERT_TR _) => apply keeps_ASSERT
  | |- keeps _ (forM_ _ _) => apply keeps_forM; intros ?
  | |- keeps _ (forByte _ _ _ _) => apply keeps_forByte; intros ?
  | |- keeps _ (inCenter _ _ _ _) => apply keeps_inCenter
  | |- keeps _ (getClosestDestinationCell _ _) =>
      apply keeps_getClosestDestinationCell
  | |- keeps _ (if ?b then _ else _) => destruct b
  | |- keeps _ (match ?x with _ => _ end) => destruct x
  end.

Ltac blind_auto := repeat (cbv zeta; blind_step).

Section SearchBlind.

Context {X : Type} (p : State -> X) (Hp : searchBlind p).

Lemma keeps_getOppositeDirection (d : Z) : keeps p (getOppositeDirection d).
Proof. unfold getOppositeDirection. blind_auto. Qed.

Lemma keeps_getNeighboringCell (c : cell) (d : Z) :
  keeps p (getNeighboringCell cfg c d).
Proof. unfold getNeighboringCell. blind_auto. Qed.

Lemma keeps_setCellDistance (c : cell) (v : Z) : keeps p (setCellDistance c v).
Proof. unfold setCellDistance. blind_auto. Qed.

Lemma keeps_checkNeighbor (c : cell) (d : Z) : keeps p (checkNeighbor cfg c d).
Proof.
  unfold checkNeighbor.
  apply keeps_bind; [apply keeps_getNeighboringCell | intros nb].
  apply keeps_bind; [apply keeps_getOppositeDirection | intros od].
  apply keeps_bind; [apply keeps_gets | intros g].
  apply keeps_bind; [blind_auto | intros edge].
  cbv zeta. destruct (_ || _); [|apply keeps_ret].
  apply keeps_bind; [apply keeps_setCellDistance | intros _].
  blind_auto.
Qed.

Lemma keeps_dijkstra (fuel : nat) (cv : bool) : keeps p (dijkstra cfg fuel cv).
Proof.
  induction fuel as [|fuel IH]; cbn [dijkstra]; [apply keeps_timeout|].
  apply keeps_bind; [apply keeps_gets | intros h].
  destruct (0 <? Heap.size h); [|apply keeps_ret].
  apply keeps_bind; [apply keeps_gets | intros g].
  destruct (Heap.pop _ h) as [[c h']|]; [|apply keeps_abort].
  apply keeps_bind; [blind_auto | intros _].
  apply keeps_bind.
  { apply keeps_forM. intros d.
    apply keeps_bind; [apply keeps_gets | intros g'].
    destruct (negb _); [apply keeps_checkNeighbor | apply keeps_ret]. }
  intros _. apply keeps_bind; [blind_auto | intros _].
  apply keeps_bind; [apply keeps_getClosestDestinationCell | intros closest].
  destruct (cell_eqb c closest); [blind_auto | exact IH].
Qed.

Lemma keeps_reverseLoop (fuel : nat) (d : Z) (c : cell) :
  keeps p (reverseLoop cfg fuel d c).
Proof.
  revert d c. induction fuel as [|fuel IH]; intros d c; cbn [reverseLoop];
    [apply keeps_timeout|].
  apply keeps_bind; [apply keeps_gets | intros g].
  destruct (Maze.hasNext g c); [|apply keeps_ret].
  cbv zeta.
  apply keeps_bind; [apply keeps_getOppositeDirection | intros od].
  apply keeps_bind; [blind_auto | intros _].
  apply keeps_bind; [apply keeps_getNeighboringCell | intros nx].
  apply IH.
Qed.

Lemma keeps_reverseLinkedList (fuel : nat) (c : cell) :
  keeps p (reverseLinkedList cfg fuel c).
Proof.
  unfold reverseLinkedList. cbv zeta.
  apply keeps_bind; [apply keeps_gets | intros g].
  apply keeps_bind; [apply keeps_getNeighboringCell | intros cur].
  apply keeps_bind; [blind_auto | intros _].
  apply keeps_bind; [apply keeps_reverseLoop | intros r].
  apply keeps_bind; [apply keeps_getOppositeDirection | intros od].
  blind_auto.
Qed.

Lemma keeps_resetDestinationCellDistances (fuel : nat) :
  keeps p (resetDestinationCellDistances cfg fuel).
Proof.
  unfold resetDestinationCellDistances. cbv zeta.
  apply keeps_bind; [apply keeps_gets | intros mode].
  destruct (Mode_eqb mode CENTER).
  - apply keeps_forByte. intros x. apply keeps_forByte. intros y.
    apply keeps_setCellDistance.
  - apply keeps_setCellDistance.
Qed.

Lemma keeps_generatePath (fuel : nat) (start : cell) :
  keeps p (generatePath cfg fuel start).
Proof.
  unfold generatePath. cbv zeta.
  apply keeps_bind; [blind_auto | intros _].
  apply keeps_bind; [blind_auto | intros _].
  apply keeps_bind; [apply keeps_setCellDistance | intros _].
  apply keeps_bind; [apply keeps_gets | intros d].
  apply keeps_bind; [apply keeps_getOppositeDirection | intros od].
  apply keeps_bind; [blind_auto | intros _].
  apply keeps_bind; [blind_auto | intros _].
  apply keeps_bind; [apply keeps_resetDestinationCellDistances | intros _].
  apply keeps_bind; [apply keeps_gets | intros h].
  apply keeps_bind; [apply keeps_ASSERT | intros _].
  apply keeps_bind; [blind_auto | intros _].
  apply keeps_bind; [apply keeps_dijkstra | intros _].
  apply keeps_bind; [apply keeps_getClosestDestinationCell | intros closest].
  apply keeps_reverseLinkedList.
Qed.

Lemma keeps_drawLoop (fuel : nat) (i : Z) (c : cell) :
  keeps p (drawLoop cfg fuel i c).
Proof.
  revert c. induction fuel as [|fuel IH]; intros c; cbn [drawLoop];
    [apply keeps_timeout|].
  apply keeps_bind; [apply keeps_gets | intros g].
  destruct (Maze.hasNext g c); [|apply keeps_ret].
  apply keeps_bind; [apply keeps_getNeighboringCell | intros nx].
  destruct (i =? 0).
  - destruct (negb _); [apply keeps_ret|].
    apply keeps_bind; [blind_auto | intros _]. apply IH.
  - apply keeps_bind; [blind_auto | intros _]. apply IH.
Qed.

Lemma keeps_drawPath (fuel : nat) (start : cell) :
  keeps p (drawPath cfg fuel start).
Proof.
  unfold drawPath.
  apply keeps_bind; [apply keeps_drawLoop | intros c].
  apply keeps_bind; [apply keeps_drawLoop | intros c'].
  apply keeps_ret.
Qed.

End SearchBlind.

Section MoveBlind.

Context {X : Type} (p : State -> X) (Hp : moveBlind p).

Lemma keeps_getNeighboringCell_move (c : cell) (d : Z) :
  keeps p (getNeighboringCell cfg c d).
Proof. unfold getNeighboringCell. blind_auto. Qed.

Lemma keeps_moveOneCell (target : cell) : keeps p (moveOneCell target).
Proof.
  unfold moveOneCell, moveForward, rightAndForward, aroundAndForward,
    leftAndForward, turnLeftUpdateState, turnRightUpdateState,
    turnAroundUpdateState, moveForwardUpdateState.
  blind_auto.
Qed.

Lemma keeps_followLoop (fuel : nat) (c : cell) :
  keeps p (followLoop cfg fuel c).
Proof.
  revert c. induction fuel as [|fuel IH]; intros c; cbn [followLoop];
    [apply keeps_timeout|].
  apply keeps_bind; [apply keeps_gets | intros g].
  destruct (_ && _); [|apply keeps_ret].
  apply keeps_bind; [apply keeps_getNeighboringCell_move | intros nx].
  apply keeps_bind; [apply keeps_moveOneCell | intros _].
  apply keeps_bind; [blind_auto | intros _].
  apply keeps_bind; [unfold resetButtonPressed; blind_auto | intros pressed].
  destruct pressed; [apply keeps_ret | apply IH].
Qed.

Lemma keeps_followPath (fuel : nat) (start : cell) :
  keeps p (followPath cfg fuel start).
Proof. apply keeps_followLoop. Qed.

End MoveBlind.

Section SenseBlind.

Context {X : Type} (p : State -> X) (Hp : senseBlind p).

Lemma keeps_setCellWall (c : cell) (d : Z) (w b : bool) :
  keeps p (setCellWall cfg c d w b).
Proof.
  unfold setCellWall, setCellWallSide, getNeighboringCell,
    getOppositeDirection.
  blind_auto.
Qed.

Lemma keeps_readWallsLoop (offsets : list Z) (data : Z) :
  keeps p (readWallsLoop cfg offsets data).
Proof.
  revert data. induction offsets as [|i rest IH]; intros data;
    cbn [readWallsLoop]; [apply keeps_ret|].
  apply keeps_bind; [apply keeps_gets | intros d].
  apply keeps_bind; [apply keeps_gets | intros x].
  apply keeps_bind; [apply keeps_gets | intros y].
  apply keeps_bind; [apply keeps_gets | intros g].
  cbv zeta. destruct (negb _); [|apply IH].
  apply keeps_bind; [unfold readWall; blind_auto | intros isWall].
  apply keeps_bind; [apply keeps_setCellWall | intros _].
  apply IH.
Qed.

Lemma keeps_readWalls : keeps p (readWalls cfg).
Proof.
  unfold readWalls.
  apply keeps_bind; [apply keeps_gets | intros x].
  apply keeps_bind; [apply keeps_gets | intros y].
  cbv zeta.
  apply keeps_bind; [apply keeps_readWallsLoop | intros data].
  blind_auto.
Qed.

End SenseBlind.

Lemma senseBlind_mode : senseBlind (@m_mode E).
Proof. intros s s' _ _ _ H. exact H. Qed.

Lemma moveBlind_mode : moveBlind (@m_mode E).
Proof. intros s s' H _ _ _. exact H. Qed.

Lemma moveBlind_maze : moveBlind (@maze E).
Proof. intros s s' _ H _ _. exact H. Qed.

Lemma senseBlind_pose :
  senseBlind (fun s : State => (m_x s, m_y s, m_d s)).
Proof. intros s s' H1 H2 H3 _. rewrite H1, H2, H3. reflexivity. Qed.

(** ** Geometry of the grid *)

Hypothesis Hcfg : validConfig cfg.

Ltac geometry :=
  unfold inGrid, validDirection, hasNeighboringCell, neighbor, opposite,
    Maze.getCell, Maze.getX, Maze.getY, cell_eqb, to_byte in *;
  simpl fst in *; simpl snd in *.

(** Linear arithmetic that also knows the byte conversions. *)
Ltac zlia := Z.div_mod_to_equations; lia.

Ltac split_tests :=
  repeat match goal with
         | |- context [?a =? ?b] => destruct (Z.eqb_spec a b)
         | |- context [?a <? ?b] => destruct (Z.ltb_spec a b)
         end.

Lemma neighbor_inGrid (c : cell) (d : Z) :
  inGrid cfg c -> validDirection d -> hasNeighboringCell cfg c d = true ->
  inGrid cfg (neighbor c d).
Proof.
  destruct Hcfg as [HW [HH _]]. destruct c as [x y]. intros Hc Hd.
  destruct (validDirection_cases d Hd) as [->|[->|[->| ->]]];
    geometry; split_tests; intros Hn; try discriminate; zlia.
Qed.

Lemma hasNeighboringCell_back (c : cell) (d : Z) :
  inGrid cfg c -> validDirection d -> hasNeighboringCell cfg c d = true ->
  hasNeighboringCell cfg (neighbor c d) (opposite d) = true.
Proof.
  destruct Hcfg as [HW [HH _]]. destruct c as [x y]. intros Hc Hd.
  destruct (validDirection_cases d Hd) as [->|[->|[->| ->]]];
    geometry; split_tests; intros Hn; try discriminate; try reflexivity; zlia.
Qed.

Lemma neighbor_back (c : cell) (d : Z) :
  inGrid cfg c -> validDirection d -> hasNeighboringCell cfg c d = true ->
  neighbor (neighbor c d) (opposite d) = c.
Proof.
  destruct Hcfg as [HW [HH _]]. destruct c as [x y]. intros Hc Hd.
  destruct (validDirection_cases d Hd) as [->|[->|[->| ->]]];
    geometry; split_tests; intros Hn; try discriminate; f_equal; zlia.
Qed.

Lemma neighbor_differs (c : cell) (d : Z) :
  inGrid cfg c -> validDirection d -> hasNeighboringCell cfg c d = true ->
  neighbor c d <> c.
Proof.
  destruct Hcfg as [HW [HH _]]. destruct c as [x y]. intros Hc Hd.
  destruct (validDirection_cases d Hd) as [->|[->|[->| ->]]];
    geometry; split_tests; intros Hn; try discriminate;
    intros Heq; inversion Heq; zlia.
Qed.

(** Inside the grid the byte conversions of [getCell] change nothing. *)
Lemma neighbor_plain (c : cell) (d : Z) :
  inGrid cfg c -> validDirection d -> hasNeighboringCell cfg c d = true ->
  neighbor c d = (Maze.getX c + stepX d, Maze.getY c + stepY d).
Proof.
  destruct Hcfg as [HW [HH _]]. destruct c as [x y]. intros Hc Hd.
  destruct (validDirection_cases d Hd) as [->|[->|[->| ->]]];
    unfold stepX, stepY;
    geometry; split_tests; intros Hn; try discriminate; simpl;
    f_equal; zlia.
Qed.

Lemma getCell_inGrid (x y : Z) :
  0 <= x < WIDTH cfg -> 0 <= y < HEIGHT cfg -> Maze.getCell x y = (x, y).
Proof.
  destruct Hcfg as [HW [HH _]]. intros Hx Hy. unfold Maze.getCell.
  rewrite !to_byte_small by lia. reflexivity.
Qed.

(** ** Wall updates *)

Lemma setCellWallSide_spec (c : cell) (d : Z) (w : bool) (s : State) :
  exists s', setCellWallSide c d w s = Done tt s'
             /\ maze s' = Maze.setWall c d w (maze s)
             /\ mouseAndLog s' = mouseAndLog s.
Proof.
  unfold setCellWallSide, bind, onMaze, modify, API_tell, ret.
  destruct w; simpl; eexists; repeat split.
Qed.

Lemma unsetCellWallSide_spec (c : cell) (d : Z) (s : State) :
  exists s', unsetCellWallSide c d s = Done tt s'
             /\ maze s' = Maze.clearWall c d (maze s)
             /\ mouseAndLog s' = mouseAndLog s.
Proof.
  unfold unsetCellWallSide, bind, onMaze, modify, API_tell, ret.
  simpl; eexists; repeat split.
Qed.

Lemma setCellWall_spec (c : cell) (d : Z) (w : bool) (s : State) :
  validDirection d ->
  exists s', setCellWall cfg c d w true s = Done tt s'
             /\ maze s' = setBoth cfg c d w (maze s)
             /\ mouseAndLog s' = mouseAndLog s.
Proof.
  intros Hd. destruct (setCellWallSide_spec c d w s) as [s1 [E1 [M1 L1]]].
  unfold setCellWall, setBoth.
  run_bind E1. simpl andb.
  destruct (hasNeighboringCell cfg c d) eqn:Hn; cbn [andb]; cbv iota beta.
  - run_bind (getNeighboringCell_has c d s1 Hn).
    run_bind (getOppositeDirection_valid d s1 Hd).
    destruct (setCellWallSide_spec (neighbor c d) (opposite d) w s1)
      as [s2 [E2 [M2 L2]]].
    exists s2. rewrite E2, M2, M1, L2, L1. auto.
  - exists s1. auto.
Qed.

Lemma unsetCellWall_spec (c : cell) (d : Z) (s : State) :
  validDirection d ->
  exists s', unsetCellWall cfg c d true s = Done tt s'
             /\ maze s' = clearBoth cfg c d (maze s)
             /\ mouseAndLog s' = mouseAndLog s.
Proof.
  intros Hd. destruct (unsetCellWallSide_spec c d s) as [s1 [E1 [M1 L1]]].
  unfold unsetCellWall, clearBoth.
  run_bind E1. simpl andb.
  destruct (hasNeighboringCell cfg c d) eqn:Hn; cbn [andb]; cbv iota beta.
  - run_bind (getNeighboringCell_has c d s1 Hn).
    run_bind (getOppositeDirection_valid d s1 Hd).
    destruct (unsetCellWallSide_spec (neighbor c d) (opposite d) s1)
      as [s2 [E2 [M2 L2]]].
    exists s2. rewrite E2, M2, M1, L2, L1. auto.
  - exists s1. auto.
Qed.

Lemma setBoth_known (c : cell) (d : Z) (w : bool) (g : Grid) (c' : cell)
  (d' : Z) :
  wallKnown (setBoth cfg c d w g) c' d' =
    if touched cfg c d c' d' then true else wallKnown g c' d'.
Proof.
  unfold setBoth, touched.
  destruct (hasNeighboringCell cfg c d); simpl; unfold upd2;
    destruct (cell_eqb c' c && (d' =? d)); simpl;
    try destruct (cell_eqb c' (neighbor c d) && (d' =? opposite d));
    reflexivity.
Qed.

Lemma setBoth_present (c : cell) (d : Z) (w : bool) (g : Grid) (c' : cell)
  (d' : Z) :
  wallPresent (setBoth cfg c d w g) c' d' =
    if touched cfg c d c' d' then w else wallPresent g c' d'.
Proof.
  unfold setBoth, touched.
  destruct (hasNeighboringCell cfg c d); simpl; unfold upd2;
    destruct (cell_eqb c' c && (d' =? d)); simpl;
    try destruct (cell_eqb c' (neighbor c d) && (d' =? opposite d));
    reflexivity.
Qed.

Lemma clearBoth_known (c : cell) (d : Z) (g : Grid) (c' : cell) (d' : Z) :
  wallKnown (clearBoth cfg c d g) c' d' =
    if touched cfg c d c' d' then false else wallKnown g c' d'.
Proof.
  unfold clearBoth, touched.
  destruct (hasNeighboringCell cfg c d); simpl; unfold upd2;
    destruct (cell_eqb c' c && (d' =? d)); simpl;
    try destruct (cell_eqb c' (neighbor c d) && (d' =? opposite d));
    reflexivity.
Qed.

Lemma clearBoth_present (c : cell) (d : Z) (g : Grid) (c' : cell) (d' : Z) :
  wallPresent (clearBoth cfg c d g) c' d' =
    if touched cfg c d c' d' then false else wallPresent g c' d'.
Proof.
  unfold clearBoth, touched.
  destruct (hasNeighboringCell cfg c d); simpl; unfold upd2;
    destruct (cell_eqb c' c && (d' =? d)); simpl;
    try destruct (cell_eqb c' (neighbor c d) && (d' =? opposite d));
    reflexivity.
Qed.

Lemma touched_true (c : cell) (d : Z) (c' : cell) (d' : Z) :
  touched cfg c d c' d' = true <->
  (c' = c /\ d' = d)
  \/ (hasNeighboringCell cfg c d = true
      /\ c' = neighbor c d /\ d' = opposite d).
Proof.
  unfold touched.
  rewrite orb_true_iff, !andb_true_iff, !cell_eqb_eq, !Z.eqb_eq.
  reflexivity.
Qed.

(** A two-sided update writes a side exactly when it writes the side
    facing it. *)
Lemma touched_mirror (c : cell) (d : Z) (c' : cell) (d' : Z) :
  inGrid cfg c -> validDirection d -> inGrid cfg c' -> validDirection d' ->
  hasNeighboringCell cfg c' d' = true ->
  touched cfg c d (neighbor c' d') (opposite d') = touched cfg c d c' d'.
Proof.
  intros Hc Hd Hc' Hd' Hn'. apply eq_iff_eq_true.
  rewrite !touched_true. split.
  - intros [[H1 H2] | [Hn [H1 H2]]].
    + right. subst c d.
      rewrite (hasNeighboringCell_back c' d' Hc' Hd' Hn').
      rewrite (neighbor_back c' d' Hc' Hd' Hn').
      rewrite (opposite_involutive d' Hd'). auto.
    + left. split.
      * rewrite <- (neighbor_back c' d' Hc' Hd' Hn'), H1, H2.
        apply (neighbor_back c d Hc Hd Hn).
      * rewrite <- (opposite_involutive d' Hd'), H2.
        apply (opposite_involutive d Hd).
  - intros [[H1 H2] | [Hn [H1 H2]]].
    + right. subst c' d'. auto.
    + left. subst c' d'. split.
      * apply (neighbor_back c d Hc Hd Hn).
      * apply (opposite_involutive d Hd).
Qed.

(** A side with no cell behind it is written only by an update of
    itself. *)
Lemma touched_perimeter (c : cell) (d : Z) (c' : cell) (d' : Z) :
  inGrid cfg c -> validDirection d -> inGrid cfg c' -> validDirection d' ->
  hasNeighboringCell cfg c' d' = false ->
  touched cfg c d c' d' = true -> c' = c /\ d' = d.
Proof.
  intros Hc Hd Hc' Hd' Hn'. unfold touched.
  destruct (cell_eqb c' c && (d' =? d)) eqn:Hsame; cbn [orb].
  - intros _. apply andb_true_iff in Hsame. destruct Hsame as [H1 H2].
    apply cell_eqb_eq in H1. apply Z.eqb_eq in H2. auto.
  - destruct (hasNeighboringCell cfg c d) eqn:Hn; cbn [andb];
      [|discriminate].
    intros H. apply andb_true_iff in H. destruct H as [H1 H2].
    apply cell_eqb_eq in H1. apply Z.eqb_eq in H2. subst c' d'.
    rewrite (hasNeighboringCell_back c d Hc Hd Hn) in Hn'. discriminate.
Qed.

(** ** The perimeter *)

Lemma perimeterTest_spec (c : cell) (d : Z) :
  inGrid cfg c ->
  perimeterTest cfg (Maze.getX c) (Maze.getY c) d = true <->
  validDirection d /\ hasNeighboringCell cfg c d = false.
Proof.
  destruct c as [x y]. unfold inGrid, perimeterTest, validDirection,
    hasNeighboringCell, Maze.getX, Maze.getY. simpl. intros [Hx Hy].
  split_tests; simpl; split; intros Hq; try discriminate; try lia;
    try (split; [lia | reflexivity]); try reflexivity;
    destruct Hq as [Hq1 Hq2]; try discriminate; lia.
Qed.

Lemma setCellWall_perimeter (c : cell) (d : Z) (s : State) :
  validDirection d -> hasNeighboringCell cfg c d = false ->
  exists s', setCellWall cfg c d true true s = Done tt s'
             /\ maze s' = Maze.setWall c d true (maze s)
             /\ mouseAndLog s' = mouseAndLog s.
Proof.
  intros Hd Hn. destruct (setCellWall_spec c d true s Hd) as [s' [H1 [H2 H3]]].
  exists s'. unfold setBoth in H2. rewrite Hn in H2. auto.
Qed.

Lemma markCell_known (x y : Z) (g : Grid) (c' : cell) (d' : Z) :
  wallKnown (markCell cfg x y g) c' d' = wallKnown g c' d' || marks cfg x y c' d'.
Proof.
  unfold markCell, marks, perimeterTest.
  destruct (x =? 0), (y =? 0), (x =? WIDTH cfg - 1), (y =? HEIGHT cfg - 1);
    simpl; unfold upd2; destruct (cell_eqb c' (x, y)); simpl;
    rewrite ?andb_false_r, ?orb_false_r; try reflexivity;
    destruct (d' =? 0), (d' =? 1), (d' =? 2), (d' =? 3); simpl;
    rewrite ?orb_true_r, ?orb_false_r; reflexivity.
Qed.

Lemma markCell_present (x y : Z) (g : Grid) (c' : cell) (d' : Z) :
  wallPresent (markCell cfg x y g) c' d' = wallPresent g c' d' || marks cfg x y c' d'.
Proof.
  unfold markCell, marks, perimeterTest.
  destruct (x =? 0), (y =? 0), (x =? WIDTH cfg - 1), (y =? HEIGHT cfg - 1);
    simpl; unfold upd2; destruct (cell_eqb c' (x, y)); simpl;
    rewrite ?andb_false_r, ?orb_false_r; try reflexivity;
    destruct (d' =? 0), (d' =? 1), (d' =? 2), (d' =? 3); simpl;
    rewrite ?orb_true_r, ?orb_false_r; reflexivity.
Qed.

Lemma initCell_spec (x y : Z) (s : State) :
  0 <= x < WIDTH cfg -> 0 <= y < HEIGHT cfg ->
  exists s', initCell cfg x y s = Done tt s'
             /\ maze s' = markCell cfg x y (maze s)
             /\ mouseAndLog s' = mouseAndLog s.
Proof.
  intros Hx Hy. unfold initCell, markCell.
  rewrite (getCell_inGrid x y Hx Hy).
  assert (H1 : exists s1,
             (if x =? 0 then setCellWall cfg (x, y) WEST true true
              else ret tt) s = Done tt s1
             /\ maze s1 = (if x =? 0 then Maze.setWall (x, y) WEST true (maze s)
                           else maze s)
             /\ mouseAndLog s1 = mouseAndLog s).
  { destruct (Z.eqb_spec x 0) as [Hz|Hz].
    - apply setCellWall_perimeter; [unfold validDirection; lia|].
      unfold hasNeighboringCell, Maze.getX. simpl. apply Z.ltb_ge. lia.
    - exists s. auto. }
  destruct H1 as [s1 [E1 [M1 L1]]]. run_bind E1.
  assert (H2 : exists s2,
             (if y =? 0 then setCellWall cfg (x, y) SOUTH true true
              else ret tt) s1 = Done tt s2
             /\ maze s2 = (if y =? 0
                           then Maze.setWall (x, y) SOUTH true (maze s1)
                           else maze s1)
             /\ mouseAndLog s2 = mouseAndLog s1).
  { destruct (Z.eqb_spec y 0) as [Hz|Hz].
    - apply setCellWall_perimeter; [unfold validDirection; lia|].
      unfold hasNeighboringCell, Maze.getY. simpl. apply Z.ltb_ge. lia.
    - exists s1. auto. }
  destruct H2 as [s2 [E2 [M2 L2]]]. run_bind E2.
  assert (H3 : exists s3,
             (if x =? WIDTH cfg - 1
              then setCellWall cfg (x, y) EAST true true
              else ret tt) s2 = Done tt s3
             /\ maze s3 = (if x =? WIDTH cfg - 1
                           then Maze.setWall (x, y) EAST true (maze s2)
                           else maze s2)
             /\ mouseAndLog s3 = mouseAndLog s2).
  { destruct (Z.eqb_spec x (WIDTH cfg - 1)) as [Hz|Hz].
    - apply setCellWall_perimeter; [unfold validDirection; lia|].
      unfold hasNeighboringCell, Maze.getX. simpl. apply Z.ltb_ge. lia.
    - exists s2. auto. }
  destruct H3 as [s3 [E3 [M3 L3]]]. run_bind E3.
  assert (H4 : exists s4,
             (if y =? HEIGHT cfg - 1
              then setCellWall cfg (x, y) NORTH true true
              else ret tt) s3 = Done tt s4
             /\ maze s4 = (if y =? HEIGHT cfg - 1
                           then Maze.setWall (x, y) NORTH true (maze s3)
                           else maze s3)
             /\ mouseAndLog s4 = mouseAndLog s3).
  { destruct (Z.eqb_spec y (HEIGHT cfg - 1)) as [Hz|Hz].
    - apply setCellWall_perimeter; [unfold validDirection; lia|].
      unfold hasNeighboringCell, Maze.getY. simpl. apply Z.ltb_ge. lia.
    - exists s3. auto. }
  destruct H4 as [s4 [E4 [M4 L4]]]. exists s4.
  rewrite E4, M4, M3, M2, M1, L4, L3, L2, L1. auto.
Qed.

Lemma initColumn_spec (x : Z) (ys : list Z) (s : State) :
  0 <= x < WIDTH cfg -> (forall y, In y ys -> 0 <= y < HEIGHT cfg) ->
  exists s', forM_ ys (fun y => initCell cfg x y) s = Done tt s'
             /\ mouseAndLog s' = mouseAndLog s
             /\ forall c' d',
                  wallKnown (maze s') c' d'
                  = wallKnown (maze s) c' d'
                    || existsb (fun y => marks cfg x y c' d') ys
                  /\ wallPresent (maze s') c' d'
                     = wallPresent (maze s) c' d'
                       || existsb (fun y => marks cfg x y c' d') ys.
Proof.
  intros Hx. revert s. induction ys as [|y ys IH]; intros s Hys.
  - exists s. simpl. split; [reflexivity|]. split; [reflexivity|].
    intros c' d'. rewrite !orb_false_r. auto.
  - cbn [forM_].
    destruct (initCell_spec x y s Hx (Hys y (or_introl eq_refl)))
      as [s1 [E1 [M1 L1]]].
    run_bind E1.
    destruct (IH s1 (fun y' H => Hys y' (or_intror H))) as [s2 [E2 [L2 W2]]].
    exists s2. split; [exact E2|]. split; [congruence|].
    intros c' d'. destruct (W2 c' d') as [K P]. rewrite K, P, M1.
    rewrite markCell_known, markCell_present. simpl.
    rewrite !orb_assoc. auto.
Qed.

Lemma initPerimeter_loop (xs : list Z) (s : State) :
  (forall x, In x xs -> 0 <= x < WIDTH cfg) ->
  exists s', forM_ xs (fun x =>
               forM_ (below 0 (HEIGHT cfg)) (fun y => initCell cfg x y)) s
             = Done tt s'
             /\ mouseAndLog s' = mouseAndLog s
             /\ forall c' d',
                  wallKnown (maze s') c' d'
                  = wallKnown (maze s) c' d'
                    || existsb (fun x =>
                         existsb (fun y => marks cfg x y c' d')
                                 (below 0 (HEIGHT cfg))) xs
                  /\ wallPresent (maze s') c' d'
                     = wallPresent (maze s) c' d'
                       || existsb (fun x =>
                            existsb (fun y => marks cfg x y c' d')
                                    (below 0 (HEIGHT cfg))) xs.
Proof.
  revert s. induction xs as [|x xs IH]; intros s Hxs.
  - exists s. simpl. split; [reflexivity|]. split; [reflexivity|].
    intros c' d'. rewrite !orb_false_r. auto.
  - cbn [forM_].
    destruct (initColumn_spec x (below 0 (HEIGHT cfg)) s
                (Hxs x (or_introl eq_refl))
                (fun y H => proj1 (In_below 0 (HEIGHT cfg) y) H))
      as [s1 [E1 [L1 W1]]].
    run_bind E1.
    destruct (IH s1 (fun x' H => Hxs x' (or_intror H))) as [s2 [E2 [L2 W2]]].
    exists s2. split; [exact E2|]. split; [congruence|].
    intros c' d'. destruct (W2 c' d') as [K P]. destruct (W1 c' d') as [K1 P1].
    rewrite K, P, K1, P1. simpl. rewrite !orb_assoc. auto.
Qed.

Lemma marked_somewhere (c' : cell) (d' : Z) :
  existsb (fun x => existsb (fun y => marks cfg x y c' d')
                            (below 0 (HEIGHT cfg)))
          (below 0 (WIDTH cfg)) = true
  <-> perimeterWall cfg c' d'.
Proof.
  unfold perimeterWall. rewrite existsb_exists. split.
  - intros [x [Hx H]]. apply existsb_exists in H. destruct H as [y [Hy H]].
    unfold marks in H. apply andb_true_iff in H. destruct H as [H1 H2].
    apply cell_eqb_eq in H1. subst c'.
    apply In_below in Hx. apply In_below in Hy.
    assert (Hin : inGrid cfg (x, y)) by (unfold inGrid; simpl; lia).
    split; [exact Hin|]. apply (perimeterTest_spec (x, y) d' Hin). exact H2.
  - intros [Hin H]. destruct c' as [x y].
    exists x. split; [apply In_below; apply Hin|].
    apply existsb_exists. exists y. split; [apply In_below; apply Hin|].
    unfold marks. rewrite cell_eqb_refl. simpl.
    apply (perimeterTest_spec (x, y) d' Hin). exact H.
Qed.

(** What [startUp] leaves: the perimeter marked, the mouse at the origin
    facing NORTH in CENTER mode, queue and log empty. *)
Lemma startUp_spec (w : E) :
  exists s, startUp cfg (initialState w) = Done tt s
            /\ mouseAndLog s = (0, 0, NORTH, CENTER, [], History.empty)
            /\ forall c d,
                 (wallKnown (maze s) c d = true <-> perimeterWall cfg c d)
                 /\ (wallPresent (maze s) c d = true <-> perimeterWall cfg c d).
Proof.
  unfold startUp, initPerimeter.
  destruct (initPerimeter_loop (below 0 (WIDTH cfg)) (initialState w)
              (fun x H => proj1 (In_below 0 (WIDTH cfg) x) H))
    as [s1 [E1 [L1 W1]]].
  run_bind E1. unfold initMouse, bind, modify. simpl.
  eexists. split; [reflexivity|]. simpl.
  unfold mouseAndLog in L1. simpl in L1. inversion L1.
  split; [reflexivity|].
  intros c d. destruct (W1 c d) as [K P]. rewrite K, P. simpl.
  split; apply marked_somewhere.
Qed.

(** C5.  With a valid configuration [solve] gets through its
    initialization, and in the state it then enters its loop with (no
    step made yet) every perimeter wall - a side of a cell of the grid
    with no cell behind it - is known and present, and no other wall is
    known. *)
Theorem perimeter_after_initialization (w : E) (fuel : nat) :
  exists s,
    startUp cfg (initialState w) = Done tt s
    /\ solve cfg 0 fuel (initialState w) = Timeout s
    /\ (forall c d, perimeterWall cfg c d ->
          Maze.isKnown (maze s) c d = true /\ Maze.isWall (maze s) c d = true)
    /\ (forall c d, Maze.isKnown (maze s) c d = true -> perimeterWall cfg c d).
Proof.
  destruct (startUp_spec w) as [s [E1 [L1 W1]]]. exists s.
  split; [exact E1|]. split.
  - unfold solve. destruct Hcfg as [HW [HH _]].
    replace ((1 <=? WIDTH cfg) && (1 <=? HEIGHT cfg) && (WIDTH cfg <=? 16)
             && (HEIGHT cfg <=? 16)) with true.
    + cbn [negb]. run_bind E1. reflexivity.
    + symmetry. rewrite !andb_true_iff, !Z.leb_le. lia.
  - split.
    + intros c d Hp. unfold Maze.isKnown, Maze.isWall.
      destruct (W1 c d) as [K P].
      rewrite (proj2 K Hp), (proj2 P Hp). auto.
    + intros c d Hk. apply (proj1 (W1 c d)). exact Hk.
Qed.

(** ** The data byte of a log entry *)

Lemma learnedBit_testbit (data d : Z) :
  0 <= d -> learnedBit data d = Z.testbit data (d + 4).
Proof.
  intros Hd. unfold learnedBit.
  change 1 with (Z.ones 1) at 1. rewrite Z.land_ones by lia.
  change (2 ^ 1) with 2. rewrite <- Z.bit0_mod.
  rewrite Z.shiftr_spec by lia. simpl (0 + (d + 4)).
  destruct (Z.testbit data (d + 4)); reflexivity.
Qed.

Lemma learnedBit_zero (d : Z) : 0 <= d -> learnedBit 0 d = false.
Proof.
  intros Hd. rewrite learnedBit_testbit by exact Hd. apply Z.bits_0.
Qed.

Lemma learnedBit_learn (data direction d : Z) :
  validDirection direction -> validDirection d ->
  learnedBit (to_byte (Z.lor data (Z.shiftl 1 (direction + 4)))) d
  = learnedBit data d || (d =? direction).
Proof.
  intros Hdir Hd. rewrite !learnedBit_testbit by (unfold validDirection in *; lia).
  unfold to_byte. change 256 with (2 ^ 8).
  rewrite Z.mod_pow2_bits_low by (unfold validDirection in *; lia).
  rewrite Z.lor_spec.
  destruct (validDirection_cases _ Hdir) as [->|[->|[->| ->]]];
    destruct (validDirection_cases _ Hd) as [->|[->|[->| ->]]];
    simpl; rewrite ?orb_false_r, ?orb_true_r; reflexivity.
Qed.

Lemma learnedBit_wall (data direction d : Z) :
  validDirection direction -> validDirection d ->
  learnedBit (to_byte (Z.lor data (Z.shiftl 1 direction))) d
  = learnedBit data d.
Proof.
  intros Hdir Hd. rewrite !learnedBit_testbit by (unfold validDirection in *; lia).
  unfold to_byte. change 256 with (2 ^ 8).
  rewrite Z.mod_pow2_bits_low by (unfold validDirection in *; lia).
  rewrite Z.lor_spec.
  destruct (validDirection_cases _ Hdir) as [->|[->|[->| ->]]];
    destruct (validDirection_cases _ Hd) as [->|[->|[->| ->]]];
    simpl; rewrite ?orb_false_r, ?orb_true_r; reflexivity.
Qed.

(** ** The invariant of a run *)

Lemma Inv_view (s s' : State) : invView s' = invView s -> Inv cfg s -> Inv cfg s'.
Proof.
  unfold invView. intros H. inversion H as [[Hx Hy Hd Hk Hp He]].
  unfold Inv, poseInv, wallsInv, symInternal, perimInternal, logCovers.
  rewrite Hx, Hy, Hd, Hk, Hp, He. auto.
Qed.

Lemma searchBlind_invView : searchBlind (@invView E).
Proof.
  intros s s' Hx Hy Hd _ Hk Hp Hh. unfold invView.
  rewrite Hx, Hy, Hd, Hk, Hp, Hh. reflexivity.
Qed.

Lemma coveredBy_true (e : cell * Z) (c : cell) (d : Z) :
  coveredBy cfg e c d = true <->
  exists d0, validDirection d0 /\ learnedBit (snd e) d0 = true
             /\ touched cfg (fst e) d0 c d = true.
Proof.
  unfold coveredBy. rewrite existsb_exists. split.
  - intros [d0 [Hin H]]. apply In_below in Hin.
    apply andb_true_iff in H. exists d0. unfold validDirection. tauto.
  - intros [d0 [Hd0 [H1 H2]]]. exists d0.
    split; [apply In_below; exact Hd0|]. rewrite H1, H2. reflexivity.
Qed.

Lemma symInternal_setBoth (c : cell) (d : Z) (w : bool) (g : Grid) :
  inGrid cfg c -> validDirection d -> symInternal cfg g ->
  symInternal cfg (setBoth cfg c d w g).
Proof.
  intros Hc Hd Hs c' d' Hc' Hd' Hn'.
  rewrite !setBoth_known, !setBoth_present.
  rewrite (touched_mirror c d c' d' Hc Hd Hc' Hd' Hn').
  destruct (touched cfg c d c' d'); [auto | apply Hs; assumption].
Qed.

Lemma symInternal_clearBoth (c : cell) (d : Z) (g : Grid) :
  inGrid cfg c -> validDirection d -> symInternal cfg g ->
  symInternal cfg (clearBoth cfg c d g).
Proof.
  intros Hc Hd Hs c' d' Hc' Hd' Hn'.
  rewrite !clearBoth_known, !clearBoth_present.
  rewrite (touched_mirror c d c' d' Hc Hd Hc' Hd' Hn').
  destruct (touched cfg c d c' d'); [auto | apply Hs; assumption].
Qed.

Lemma touched_interior (c : cell) (d : Z) (c' : cell) (d' : Z) :
  inGrid cfg c -> validDirection d -> hasNeighboringCell cfg c d = true ->
  perimeterWall cfg c' d' -> touched cfg c d c' d' = false.
Proof.
  intros Hc Hd Hn [Hc' [Hd' Hn']].
  destruct (touched cfg c d c' d') eqn:Ht; [|reflexivity].
  destruct (touched_perimeter c d c' d' Hc Hd Hc' Hd' Hn' Ht) as [-> ->].
  congruence.
Qed.

Lemma perimInternal_setBoth (c : cell) (d : Z) (w : bool) (g : Grid) :
  inGrid cfg c -> validDirection d -> hasNeighboringCell cfg c d = true ->
  perimInternal cfg g -> perimInternal cfg (setBoth cfg c d w g).
Proof.
  intros Hc Hd Hn Hp c' d' Hw.
  rewrite setBoth_known, setBoth_present.
  rewrite (touched_interior c d c' d' Hc Hd Hn Hw). apply Hp. exact Hw.
Qed.

Lemma perimInternal_clearBoth (c : cell) (d : Z) (g : Grid) :
  inGrid cfg c -> validDirection d -> hasNeighboringCell cfg c d = true ->
  perimInternal cfg g -> perimInternal cfg (clearBoth cfg c d g).
Proof.
  intros Hc Hd Hn Hp c' d' Hw.
  rewrite clearBoth_known, clearBoth_present.
  rewrite (touched_interior c d c' d' Hc Hd Hn Hw). apply Hp. exact Hw.
Qed.

(** ** Sensing keeps the invariant *)

Lemma bind_gets {A C : Type} (f : State -> A) (k : A -> M C) (s : State) :
  bind (gets f) k s = k (f s) s.
Proof. reflexivity. Qed.

Lemma bind_modify {C : Type} (f : State -> State) (k : unit -> M C)
  (s : State) :
  bind (modify f) k s = k tt (f s).
Proof. reflexivity. Qed.

Lemma bind_ret {A C : Type} (a : A) (k : A -> M C) (s : State) :
  bind (ret a) k s = k a s.
Proof. reflexivity. Qed.

Lemma bind_assoc {A C D : Type} (m : M A) (k1 : A -> M C) (k2 : C -> M D)
  (s : State) :
  bind (bind m k1) k2 s = bind m (fun a => bind (k1 a) k2) s.
Proof. unfold bind. destruct (m s); reflexivity. Qed.

Lemma API_ask_spec (q : query) (s : State) :
  exists b s', API_ask q s = Done b s'
               /\ b = fst (ask q (world s))
               /\ maze s' = maze s
               /\ mouseAndLog s' = mouseAndLog s
               /\ trace s' = Asked q b :: trace s.
Proof.
  unfold API_ask. destruct (ask q (world s)) as [b w].
  eexists. eexists. repeat split.
Qed.

Lemma sensed_direction (d i : Z) :
  validDirection d -> -1 <= i <= 1 ->
  validDirection (to_byte (Z.rem (d + i + 4) 4))
  /\ to_byte (Z.rem (d + i + 4) 4) = (d + i + 4) mod 4.
Proof.
  intros Hd Hi. unfold validDirection in *.
  rewrite Z.rem_mod_nonneg by lia.
  rewrite to_byte_small by (pose proof (Z.mod_pos_bound (d + i + 4) 4); lia).
  pose proof (Z.mod_pos_bound (d + i + 4) 4). split; [lia | reflexivity].
Qed.

Lemma readWall_sensor (i : Z) (s : State) :
  validDirection (m_d s) -> -1 <= i <= 1 ->
  readWall (to_byte (Z.rem (m_d s + i + 4) 4)) s
  = API_ask (sensorFor (m_d s) (to_byte (Z.rem (m_d s + i + 4) 4))) s.
Proof.
  intros Hd Hi. unfold readWall, sensorFor. rewrite bind_gets.
  assert (Hi' : i = -1 \/ i = 0 \/ i = 1) by lia.
  destruct (validDirection_cases _ Hd) as [->|[->|[->| ->]]];
    destruct Hi' as [->|[->| ->]]; reflexivity.
Qed.

Lemma wallsInv_pending (c : cell) (g : Grid) (l : list (cell * Z)) :
  inGrid cfg c -> wallsInv cfg g l -> wallsInv cfg g ((c, 0) :: l).
Proof.
  intros Hc [Hs [Hp [Hl Hv]]].
  split; [exact Hs|]. split; [exact Hp|]. split.
  - intros e [<-|He]; [|apply Hl; exact He].
    split; [exact Hc|]. intros d Hd Hb. simpl in Hb.
    rewrite learnedBit_zero in Hb by apply Hd. discriminate.
  - intros c' d' Hc' Hd' Hn' Hk. cbn [existsb].
    rewrite (Hv c' d' Hc' Hd' Hn' Hk). apply orb_true_r.
Qed.

Lemma wallsInv_learn (c : cell) (direction : Z) (w : bool) (data data' : Z)
  (g : Grid) (l : list (cell * Z)) :
  inGrid cfg c -> validDirection direction ->
  wallKnown g c direction = false ->
  (forall d, validDirection d ->
     learnedBit data' d = learnedBit data d || (d =? direction)) ->
  wallsInv cfg g ((c, data) :: l) ->
  wallsInv cfg (setBoth cfg c direction w g) ((c, data') :: l).
Proof.
  intros Hc Hdir Hunknown Hbits [Hs [Hp [Hl Hv]]].
  assert (Hn : hasNeighboringCell cfg c direction = true).
  { destruct (hasNeighboringCell cfg c direction) eqn:Hn; [reflexivity|].
    destruct (Hp c direction) as [K _];
      [split; [exact Hc | split; [exact Hdir | exact Hn]]|].
    congruence. }
  split; [apply symInternal_setBoth; assumption|].
  split; [apply perimInternal_setBoth; assumption|].
  split.
  - intros e [<-|He].
    + simpl. split; [exact Hc|]. intros d Hd Hb.
      rewrite (Hbits d Hd) in Hb. apply orb_true_iff in Hb.
      destruct Hb as [Hb|Hb].
      * apply (proj2 (Hl (c, data) (or_introl eq_refl))); assumption.
      * apply Z.eqb_eq in Hb. subst d. exact Hn.
    + apply Hl. right. exact He.
  - intros c' d' Hc' Hd' Hn' Hk. rewrite setBoth_known in Hk. cbn [existsb].
    destruct (touched cfg c direction c' d') eqn:Ht.
    + apply orb_true_iff. left. apply coveredBy_true. exists direction.
      split; [exact Hdir|]. simpl. split; [|exact Ht].
      rewrite (Hbits direction Hdir), Z.eqb_refl. apply orb_true_r.
    + specialize (Hv c' d' Hc' Hd' Hn' Hk). cbn [existsb] in Hv.
      apply orb_true_iff in Hv. apply orb_true_iff.
      destruct Hv as [Hv|Hv]; [left | right; exact Hv].
      apply coveredBy_true in Hv. destruct Hv as [d0 [Hd0 [H1 H2]]].
      apply coveredBy_true. exists d0. split; [exact Hd0|]. simpl in *.
      split; [|exact H2]. rewrite (Hbits d0 Hd0), H1. reflexivity.
Qed.

Lemma learned_data (data direction : Z) (isWall : bool) (d : Z) :
  validDirection direction -> validDirection d ->
  learnedBit
    (if isWall
     then to_byte (Z.lor (to_byte (Z.lor data (Z.shiftl 1 (direction + 4))))
                         (Z.shiftl 1 direction))
     else to_byte (Z.lor data (Z.shiftl 1 (direction + 4)))) d
  = learnedBit data d || (d =? direction).
Proof.
  intros Hdir Hd. destruct isWall.
  - rewrite learnedBit_wall by assumption. apply learnedBit_learn; assumption.
  - apply learnedBit_learn; assumption.
Qed.

Lemma readWallsLoop_inv (offsets : list Z) (data : Z) (s : State) :
  (forall i, In i offsets -> -1 <= i <= 1) ->
  poseInv cfg s ->
  wallsInv cfg (maze s) ((Maze.getCell (m_x s) (m_y s), data)
                     :: History.entries (history s)) ->
  exists data' s',
    readWallsLoop cfg offsets data s = Done data' s'
    /\ mouseAndLog s' = mouseAndLog s
    /\ wallsInv cfg (maze s') ((Maze.getCell (m_x s) (m_y s), data')
                           :: History.entries (history s)).
Proof.
  revert data s. induction offsets as [|i rest IH]; intros data s Hoff Hpose Hw.
  - exists data, s. auto.
  - cbn [readWallsLoop]. rewrite !bind_gets. cbv zeta.
    destruct Hpose as [Hd Hin].
    destruct (sensed_direction (m_d s) i Hd (Hoff i (or_introl eq_refl)))
      as [Hdir _].
    set (direction := to_byte (Z.rem (m_d s + i + 4) 4)) in *.
    assert (Hcell : Maze.getCell (m_x s) (m_y s) = (m_x s, m_y s))
      by (apply getCell_inGrid; apply Hin).
    destruct (Maze.isKnown (maze s) (Maze.getCell (m_x s) (m_y s)) direction)
      eqn:Hknown; cbn [negb]; cbv iota.
    + apply IH; [intros j Hj; apply Hoff; right; exact Hj | split; assumption
                | exact Hw].
    + destruct (API_ask_spec (sensorFor (m_d s) direction) s)
        as [b [s1 [E1 [_ [M1 [L1 _]]]]]].
      assert (E1' : readWall direction s = Done b s1).
      { unfold direction.
        rewrite (readWall_sensor i s Hd (Hoff i (or_introl eq_refl))).
        exact E1. }
      run_bind E1'.
      destruct (setCellWall_spec (Maze.getCell (m_x s) (m_y s)) direction b
                  s1 Hdir) as [s2 [E2 [M2 L2]]].
      run_bind E2.
      assert (L : mouseAndLog s2 = mouseAndLog s) by congruence.
      unfold mouseAndLog in L. inversion L as [[Lx Ly Ld Lm Lh Lhist]].
      destruct (IH (if b
                    then to_byte
                           (Z.lor (to_byte
                                     (Z.lor data (Z.shiftl 1 (direction + 4))))
                                  (Z.shiftl 1 direction))
                    else to_byte (Z.lor data (Z.shiftl 1 (direction + 4))))
                  s2) as [data' [s3 [E3 [L3 W3]]]].
      * intros j Hj. apply Hoff. right. exact Hj.
      * unfold poseInv. rewrite Lx, Ly, Ld. split; assumption.
      * rewrite Lx, Ly, Lhist, M2, M1, Hcell.
        apply (wallsInv_learn (m_x s, m_y s) direction b data); try assumption.
        -- rewrite <- Hcell. exact Hknown.
        -- intros d0 Hd0. apply learned_data; assumption.
        -- rewrite <- Hcell. exact Hw.
      * exists data', s3. split; [exact E3|]. split; [congruence|].
        rewrite ?Lx, ?Ly, ?Lhist in W3. rewrite ?Lx, ?Ly, ?Lhist. exact W3.
Qed.

Lemma readWalls_Inv (s : State) :
  Inv cfg s ->
  exists s', readWalls cfg s = Done tt s' /\ Inv cfg s'
             /\ (m_x s', m_y s', m_d s', m_mode s') =
                (m_x s, m_y s, m_d s, m_mode s).
Proof.
  intros [Hpose Hw]. unfold readWalls. rewrite !bind_gets. cbv zeta.
  destruct (readWallsLoop_inv (upto (-1) 1) 0 s) as [data [s1 [E1 [L1 W1]]]].
  - intros i Hi. apply In_upto in Hi. exact Hi.
  - exact Hpose.
  - apply wallsInv_pending; [|exact Hw].
    rewrite getCell_inGrid by apply Hpose. apply Hpose.
  - run_bind E1. unfold modify. eexists. split; [reflexivity|].
    unfold mouseAndLog in L1. inversion L1 as [[Lx Ly Ld Lm Lh Lhist]].
    split; [|simpl; congruence].
    split.
    + unfold poseInv. simpl. rewrite Lx, Ly, Ld. exact Hpose.
    + simpl. rewrite ?Lx, ?Ly, ?Lhist. exact W1.
Qed.

(** ** Undoing the log *)

Lemma undoDirections_run (e : cell * Z) (ds : list Z) (s : State) :
  (forall d, In d ds -> validDirection d) ->
  exists s',
    forM_ ds (fun direction =>
      if negb (Z.land (Z.shiftr (History.data e) (direction + 4)) 1 =? 0)
      then unsetCellWall cfg (History.cell e) direction true
      else ret tt) s = Done tt s'
    /\ maze s' = undoDirections cfg e ds (maze s)
    /\ mouseAndLog s' = mouseAndLog s.
Proof.
  revert s. induction ds as [|d ds IH]; intros s Hds.
  - exists s. auto.
  - cbn [forM_]. unfold undoDirections. cbn [fold_left].
    fold (learnedBit (History.data e) d).
    change (History.data e) with (snd e). change (History.cell e) with (fst e).
    assert (H1 : exists s1,
               (if learnedBit (snd e) d
                then unsetCellWall cfg (fst e) d true else ret tt) s
               = Done tt s1
               /\ maze s1 = (if learnedBit (snd e) d
                             then clearBoth cfg (fst e) d (maze s) else maze s)
               /\ mouseAndLog s1 = mouseAndLog s).
    { destruct (learnedBit (snd e) d).
      - apply unsetCellWall_spec. apply Hds. left. reflexivity.
      - exists s. auto. }
    destruct H1 as [s1 [E1 [M1 L1]]]. run_bind E1.
    destruct (IH s1 (fun d' H => Hds d' (or_intror H))) as [s2 [E2 [M2 L2]]].
    exists s2. split; [exact E2|]. split; [|congruence].
    rewrite M2, M1. reflexivity.
Qed.

Lemma undoDirections_known (e : cell * Z) (ds : list Z) (g : Grid)
  (c : cell) (d : Z) :
  wallKnown (undoDirections cfg e ds g) c d
  = wallKnown g c d
    && negb (existsb (fun d0 => learnedBit (snd e) d0
                                && touched cfg (fst e) d0 c d) ds)
  /\ wallPresent (undoDirections cfg e ds g) c d
     = wallPresent g c d
       && negb (existsb (fun d0 => learnedBit (snd e) d0
                                   && touched cfg (fst e) d0 c d) ds).
Proof.
  revert g. induction ds as [|d0 ds IH]; intros g.
  - simpl. rewrite !andb_true_r. auto.
  - unfold undoDirections. cbn [fold_left existsb].
    fold (undoDirections cfg e ds
            (if learnedBit (snd e) d0 then clearBoth cfg (fst e) d0 g else g)).
    destruct (IH (if learnedBit (snd e) d0
                  then clearBoth cfg (fst e) d0 g else g)) as [K P].
    rewrite K, P. destruct (learnedBit (snd e) d0); cbn [andb orb].
    + rewrite clearBoth_known, clearBoth_present.
      destruct (touched cfg (fst e) d0 c d); cbn [orb negb];
        rewrite ?andb_false_r; auto.
    + auto.
Qed.

Lemma coveredBy_mirror (e : cell * Z) (c : cell) (d : Z) :
  inGrid cfg (fst e) -> inGrid cfg c -> validDirection d ->
  hasNeighboringCell cfg c d = true ->
  coveredBy cfg e (neighbor c d) (opposite d) = coveredBy cfg e c d.
Proof.
  intros He Hc Hd Hn. apply eq_iff_eq_true. rewrite !coveredBy_true.
  split; intros [d0 [Hd0 [H1 H2]]]; exists d0; (split; [exact Hd0|]);
    (split; [exact H1|]).
  - rewrite <- (touched_mirror (fst e) d0 c d He Hd0 Hc Hd Hn). exact H2.
  - rewrite (touched_mirror (fst e) d0 c d He Hd0 Hc Hd Hn). exact H2.
Qed.

Lemma wallsInv_undo (e : cell * Z) (g : Grid) (l : list (cell * Z)) :
  wallsInv cfg g (e :: l) -> wallsInv cfg (undoDirections cfg e (below 0 4) g) l.
Proof.
  intros [Hs [Hp [Hl Hv]]].
  destruct (Hl e (or_introl eq_refl)) as [He Hlearn].
  split; [|split; [|split]].
  - intros c d Hc Hd Hn.
    destruct (undoDirections_known e (below 0 4) g c d) as [K P].
    destruct (undoDirections_known e (below 0 4) g (neighbor c d)
                (opposite d)) as [K' P'].
    rewrite K, P, K', P'. fold (coveredBy cfg e c d).
    fold (coveredBy cfg e (neighbor c d) (opposite d)).
    rewrite (coveredBy_mirror e c d He Hc Hd Hn).
    destruct (Hs c d Hc Hd Hn) as [-> ->]. auto.
  - intros c d Hw.
    destruct (undoDirections_known e (below 0 4) g c d) as [K P].
    rewrite K, P. fold (coveredBy cfg e c d).
    assert (Hno : coveredBy cfg e c d = false).
    { destruct (coveredBy cfg e c d) eqn:Hcov; [|reflexivity].
      apply coveredBy_true in Hcov. destruct Hcov as [d0 [Hd0 [H1 H2]]].
      rewrite (touched_interior (fst e) d0 c d He Hd0 (Hlearn d0 Hd0 H1) Hw)
        in H2. discriminate. }
    rewrite Hno. destruct (Hp c d Hw) as [-> ->]. auto.
  - intros e' He'. apply Hl. right. exact He'.
  - intros c d Hc Hd Hn Hk.
    destruct (undoDirections_known e (below 0 4) g c d) as [K _].
    rewrite K in Hk. fold (coveredBy cfg e c d) in Hk.
    apply andb_true_iff in Hk. destruct Hk as [Hk Hcov].
    specialize (Hv c d Hc Hd Hn Hk). cbn [existsb] in Hv.
    destruct (coveredBy cfg e c d); [discriminate | exact Hv].
Qed.

Lemma rollBack_spec (l : list (cell * Z)) (fuel : nat) (s : State) :
  History.entries (history s) = l -> (length l < fuel)%nat ->
  wallsInv cfg (maze s) l ->
  exists s', rollBack cfg fuel s = Done tt s'
             /\ History.entries (history s') = []
             /\ wallsInv cfg (maze s') []
             /\ (m_x s', m_y s', m_d s', m_mode s')
                = (m_x s, m_y s, m_d s, m_mode s).
Proof.
  revert fuel s. induction l as [|e l IH]; intros fuel s Hl Hfuel Hw;
    (destruct fuel as [|fuel]; [simpl in Hfuel; lia|]);
    cbn [rollBack]; rewrite bind_gets; unfold History.size, History.pop;
    rewrite Hl.
  - simpl. exists s. auto.
  - cbn [length]. replace (0 <? Z.of_nat (S (length l))) with true
      by (symmetry; apply Z.ltb_lt; lia).
    rewrite bind_modify. cbv zeta.
    destruct (undoDirections_run e (below 0 4)
                (set_history (History.mk l (History.moves (history s))) s))
      as [s1 [E1 [M1 L1]]].
    { intros d Hd. apply In_below in Hd. exact Hd. }
    run_bind E1. unfold mouseAndLog in L1. simpl in L1.
    inversion L1 as [[Lx Ly Ld Lm Lh Lhist]].
    destruct (IH fuel s1) as [s2 [E2 [H2 [W2 P2]]]].
    + rewrite Lhist. reflexivity.
    + simpl in Hfuel. lia.
    + rewrite M1. simpl. apply wallsInv_undo. exact Hw.
    + exists s2. split; [exact E2|]. split; [exact H2|].
      split; [exact W2|]. rewrite P2. congruence.
Qed.

Lemma reset_spec (s : State) :
  Inv cfg s ->
  exists s', reset cfg s = Done tt s'
             /\ m_x s' = 0 /\ m_y s' = 0
             /\ m_d s' = m_initialDirection cfg
             /\ m_mode s' = CENTER
             /\ History.entries (history s') = []
             /\ wallsInv cfg (maze s') [].
Proof.
  intros [_ Hw]. unfold reset, acknowledgeResetButtonPressed.
  unfold bind at 1. unfold API_tell at 1. rewrite !bind_modify.
  unfold onMaze. rewrite bind_modify, bind_gets.
  match goal with
  | |- exists s', rollBack cfg ?f ?s0 = _ /\ _ =>
      destruct (rollBack_spec (History.entries (history s)) f s0)
        as [s1 [E1 [H1 [W1 P1]]]]
  end.
  - reflexivity.
  - simpl. lia.
  - destruct Hw as [Hs [Hp [Hl Hv]]]. simpl.
    split; [exact Hs|]. split; [exact Hp|]. split; assumption.
  - exists s1. split; [exact E1|]. simpl in P1.
    inversion P1 as [[Px Py Pd Pm]].
    split; [reflexivity|]. split; [reflexivity|]. split; [reflexivity|].
    split; [reflexivity|]. split; [exact H1 | exact W1].
Qed.

Lemma reset_Inv (s s' : State) : Inv cfg s -> reset cfg s = Done tt s' -> Inv cfg s'.
Proof.
  intros HI Hr. destruct (reset_spec s HI) as [s1 [E1 [Hx [Hy [Hd [_ [He Hw]]]]]]].
  rewrite Hr in E1. inversion E1; subst s1.
  split.
  - unfold poseInv, inGrid. rewrite Hx, Hy, Hd. simpl.
    destruct Hcfg as [HW [HH HD]]. unfold validDirection. lia.
  - rewrite He. exact Hw.
Qed.

(** ** Moving one cell *)

Ltac settle_tests :=
  repeat match goal with
         | |- context [?a <? ?b] =>
             first [ replace (a <? b) with true
                       by (symmetry; apply Z.ltb_lt; lia)
                   | replace (a <? b) with false
                       by (symmetry; apply Z.ltb_ge; lia) ]
         | |- context [?a =? ?b] =>
             first [ replace (a =? b) with true
                       by (symmetry; apply Z.eqb_eq; lia)
                   | replace (a =? b) with false
                       by (symmetry; apply Z.eqb_neq; lia) ]
         end.

Lemma isOneCellAway_true (target : cell) (s : State) :
  inGrid cfg (m_x s, m_y s) ->
  isOneCellAway target s = true ->
  exists dir, validDirection dir
              /\ Maze.isWall (maze s) (m_x s, m_y s) dir = false
              /\ target = (m_x s + stepX dir, m_y s + stepY dir).
Proof.
  intros Hin. unfold isOneCellAway.
  rewrite (getCell_inGrid (m_x s) (m_y s) (proj1 Hin) (proj2 Hin)).
  destruct target as [x y]. unfold Maze.getX, Maze.getY. simpl fst. simpl snd.
  unfold validDirection, stepX, stepY.
  destruct ((m_x s =? x) && (m_y s + 1 =? y)
            && negb (Maze.isWall (maze s) (m_x s, m_y s) 0)) eqn:H0.
  { intros _. apply andb_true_iff in H0. destruct H0 as [H0 Hw].
    apply andb_true_iff in H0. destruct H0 as [Hx Hy].
    apply Z.eqb_eq in Hx. apply Z.eqb_eq in Hy. apply negb_true_iff in Hw.
    exists 0. simpl. split; [lia|]. split; [exact Hw|]. f_equal; lia. }
  destruct ((m_x s =? x) && (m_y s - 1 =? y)
            && negb (Maze.isWall (maze s) (m_x s, m_y s) 2)) eqn:H2.
  { intros _. apply andb_true_iff in H2. destruct H2 as [H2 Hw].
    apply andb_true_iff in H2. destruct H2 as [Hx Hy].
    apply Z.eqb_eq in Hx. apply Z.eqb_eq in Hy. apply negb_true_iff in Hw.
    exists 2. simpl. split; [lia|]. split; [exact Hw|]. f_equal; lia. }
  destruct ((m_x s + 1 =? x) && (m_y s =? y)
            && negb (Maze.isWall (maze s) (m_x s, m_y s) 1)) eqn:H1.
  { intros _. apply andb_true_iff in H1. destruct H1 as [H1 Hw].
    apply andb_true_iff in H1. destruct H1 as [Hx Hy].
    apply Z.eqb_eq in Hx. apply Z.eqb_eq in Hy. apply negb_true_iff in Hw.
    exists 1. simpl. split; [lia|]. split; [exact Hw|]. f_equal; lia. }
  destruct ((m_x s - 1 =? x) && (m_y s =? y)
            && negb (Maze.isWall (maze s) (m_x s, m_y s) 3)) eqn:H3.
  { intros _. apply andb_true_iff in H3. destruct H3 as [H3 Hw].
    apply andb_true_iff in H3. destruct H3 as [Hx Hy].
    apply Z.eqb_eq in Hx. apply Z.eqb_eq in Hy. apply negb_true_iff in Hw.
    exists 3. simpl. split; [lia|]. split; [exact Hw|]. f_equal; lia. }
  discriminate.
Qed.

(** With the perimeter known, an edge without a known wall has a cell
    behind it. *)
Lemma open_edge_inside (g : Grid) (c : cell) (d : Z) :
  perimInternal cfg g -> inGrid cfg c -> validDirection d ->
  Maze.isWall g c d = false -> hasNeighboringCell cfg c d = true.
Proof.
  intros Hp Hc Hd Hw.
  destruct (hasNeighboringCell cfg c d) eqn:Hn; [reflexivity|].
  destruct (Hp c d) as [K P]; [split; [exact Hc | split; [exact Hd | exact Hn]]|].
  unfold Maze.isWall in Hw. rewrite K, P in Hw. discriminate.
Qed.

Lemma moveOneCell_moves (dir : Z) (s : State) :
  poseInv cfg s -> validDirection dir ->
  0 <= m_x s + stepX dir < 256 -> 0 <= m_y s + stepY dir < 256 ->
  isOneCellAway (m_x s + stepX dir, m_y s + stepY dir) s = true ->
  exists s', moveOneCell (m_x s + stepX dir, m_y s + stepY dir) s = Done tt s'
             /\ movedTo s s' dir.
Proof.
  intros [Hd Hin] Hdir Hbx Hby Hone. unfold moveOneCell.
  rewrite bind_gets, Hone. unfold ASSERT_TR.
  unfold bind at 1. unfold ret at 1. rewrite !bind_gets. cbv zeta.
  unfold Maze.getX, Maze.getY. simpl fst. simpl snd.
  unfold movedTo, moveForward, rightAndForward, aroundAndForward,
    leftAndForward, turnLeftUpdateState, turnRightUpdateState,
    turnAroundUpdateState, moveForwardUpdateState.
  revert Hbx Hby.
  destruct (validDirection_cases _ Hdir) as [->|[->|[->| ->]]];
    destruct (validDirection_cases _ Hd) as [Hmd|[Hmd|[Hmd|Hmd]]];
    unfold stepX, stepY; simpl; rewrite Hmd; simpl; intros Hbx Hby;
    settle_tests; cbv iota;
    unfold bind, modify, API_tell, ret; simpl; rewrite ?Hmd; simpl;
    (eexists; split; [reflexivity|]); simpl;
    rewrite ?to_byte_small by lia;
    (split; [lia|]); (split; [lia|]); (split; [reflexivity|]);
    (split; [reflexivity|]); (split; [reflexivity|]);
    (split; [reflexivity|]); (split; [reflexivity|]).
  all: first
    [ exists []; split; [reflexivity | intros e []]
    | exists [Told TurnLeft]; split;
        [reflexivity | intros e [<-|[]]; auto]
    | exists [Told TurnRight]; split;
        [reflexivity | intros e [<-|[]]; auto]
    | exists [Told TurnLeft; Told TurnLeft]; split;
        [reflexivity | intros e [<-|[<-|[]]]; auto] ].
Qed.

Lemma moveOneCell_refused (target : cell) (s : State) :
  isOneCellAway target s = false -> moveOneCell target s = Aborted s.
Proof.
  intros H. unfold moveOneCell. rewrite bind_gets, H. reflexivity.
Qed.

Lemma bind_Aborted {A C : Type} (m : M A) (k : A -> M C) (s s1 : State) :
  m s = Aborted s1 -> bind m k s = Aborted s1.
Proof. unfold bind. intros ->. reflexivity. Qed.

Lemma step_injective (d d' : Z) :
  validDirection d -> validDirection d' ->
  stepX d = stepX d' -> stepY d = stepY d' -> d = d'.
Proof.
  intros Hd Hd'.
  destruct (validDirection_cases _ Hd) as [->|[->|[->| ->]]];
    destruct (validDirection_cases _ Hd') as [->|[->|[->| ->]]];
    unfold stepX, stepY; simpl; intros; try reflexivity; lia.
Qed.

Lemma hasNeighboringCell_valid (c : cell) (d : Z) :
  hasNeighboringCell cfg c d = true -> validDirection d.
Proof.
  unfold hasNeighboringCell, validDirection.
  destruct (Z.eqb_spec d 0); [lia|]. destruct (Z.eqb_spec d 1); [lia|].
  destruct (Z.eqb_spec d 2); [lia|]. destruct (Z.eqb_spec d 3); [lia|].
  discriminate.
Qed.

Lemma forwardMoves_app (t1 t2 : list event) :
  forwardMoves (t1 ++ t2) = (forwardMoves t1 + forwardMoves t2)%nat.
Proof. unfold forwardMoves. rewrite filter_app, length_app. reflexivity. Qed.

Lemma forwardMoves_turns (turns : list event) :
  (forall e, In e turns -> e = Told TurnLeft \/ e = Told TurnRight) ->
  forwardMoves turns = 0%nat.
Proof.
  induction turns as [|e turns IH]; intros H; [reflexivity|].
  unfold forwardMoves in *. simpl.
  destruct (H e (or_introl eq_refl)) as [-> | ->]; simpl;
    apply IH; intros e' He'; apply H; right; exact He'.
Qed.

(** ** Following the path *)

Lemma last_cons {A : Type} (a : A) (l : list A) (d : A) :
  last (a :: l) d = last l a.
Proof.
  revert a d. induction l as [|b l IH]; intros a d; [reflexivity|].
  change (last (a :: b :: l) d) with (last (b :: l) d).
  rewrite (IH b d), (IH b a). reflexivity.
Qed.

Lemma last_in_cons {A : Type} (a : A) (l : list A) : In (last l a) (a :: l).
Proof.
  revert a. induction l as [|b l IH]; intros a; [left; reflexivity|].
  rewrite last_cons. right. apply IH.
Qed.

Lemma hopBlocks_app (d1 d2 : list event) :
  hopBlocks d1 -> hopBlocks d2 -> hopBlocks (d1 ++ d2).
Proof.
  intros H1 H2. induction H1 as [|pressed turns rest Hturns _ IH];
    [exact H2|].
  simpl. rewrite <- app_assoc. apply hopBlocks_hop; assumption.
Qed.

Lemma hopBlocks_one (pressed : bool) (turns : list event) :
  (forall e, In e turns -> e = Told TurnLeft \/ e = Told TurnRight) ->
  hopBlocks (Asked WasReset pressed :: Told MoveForward :: turns).
Proof.
  intros H. rewrite <- (app_nil_r turns).
  apply hopBlocks_hop; [exact H | apply hopBlocks_nil].
Qed.

Lemma followed_nothing (s : State) (start : cell) (o : outcome unit) :
  poseInv cfg s -> start = (m_x s, m_y s) -> final o = s ->
  (forall s', o = Done tt s' ->
     Maze.hasNext (maze s) start
     && Maze.isKnown (maze s) start (Maze.getNextDirection (maze s) start)
     = false) ->
  followed cfg s start o [] [].
Proof.
  intros Hpose Hstart Hfinal Hdone. unfold followed. rewrite Hfinal. simpl.
  split; [apply kc_stop|]. split; [reflexivity|]. split; [reflexivity|].
  split; [reflexivity|]. split; [symmetry; exact Hstart|].
  split; [exact Hpose|]. split; [tauto|]. split; [apply hopBlocks_nil|].
  split; [discriminate|].
  intros s' Hs'. right. apply (Hdone s' Hs').
Qed.

Lemma followLoop_spec (fuel : nat) (start : cell) (s : State) :
  poseInv cfg s -> start = (m_x s, m_y s) ->
  exists hops delta, followed cfg s start (followLoop cfg fuel start s) hops delta.
Proof.
  revert start s. induction fuel as [|fuel IH]; intros start s Hpose Hstart.
  { exists [], []. apply followed_nothing; auto. discriminate. }
  cbn [followLoop]. rewrite bind_gets.
  destruct (Maze.hasNext (maze s) start
            && Maze.isKnown (maze s) start
                 (Maze.getNextDirection (maze s) start)) eqn:Hcond.
  2:{ exists [], []. apply followed_nothing; auto. }
  apply andb_true_iff in Hcond. destruct Hcond as [Hnext Hknown].
  set (nd := Maze.getNextDirection (maze s) start) in *.
  destruct (hasNeighboringCell cfg start nd) eqn:Hn.
  2:{ rewrite (bind_Aborted _ _ _ _ (getNeighboringCell_none start nd s Hn)).
      exists [], []. apply followed_nothing; auto. discriminate. }
  run_bind (getNeighboringCell_has start nd s Hn).
  assert (Hin : inGrid cfg start) by (subst start; apply Hpose).
  assert (Hnd : validDirection nd) by (apply (hasNeighboringCell_valid _ _ Hn)).
  pose proof (neighbor_inGrid start nd Hin Hnd Hn) as Hnin.
  pose proof (neighbor_plain start nd Hin Hnd Hn) as Hplain.
  destruct (isOneCellAway (neighbor start nd) s) eqn:Hone.
  2:{ rewrite (bind_Aborted _ _ _ _
                 (moveOneCell_refused (neighbor start nd) s Hone)).
      exists [], []. apply followed_nothing; auto. discriminate. }
  destruct (isOneCellAway_true (neighbor start nd) s (proj2 Hpose) Hone)
    as [dir [Hdir [Hwall Htarget]]].
  assert (Hsame : dir = nd).
  { rewrite Hplain in Htarget. subst start.
    unfold Maze.getX, Maze.getY in Htarget. cbn [fst snd] in Htarget.
    injection Htarget as Hx Hy.
    apply step_injective; try assumption; lia. }
  subst dir.
  assert (Hbx : 0 <= m_x s + stepX nd < 256 /\ 0 <= m_y s + stepY nd < 256).
  { rewrite Htarget in Hnin. unfold inGrid, Maze.getX, Maze.getY in Hnin.
    simpl in Hnin. destruct Hcfg as [HW [HH _]]. lia. }
  rewrite Htarget in Hone.
  destruct (moveOneCell_moves nd s Hpose Hnd (proj1 Hbx) (proj2 Hbx) Hone)
    as [s1 [E1 M1]].
  rewrite Htarget. run_bind E1. rewrite bind_modify.
  destruct M1 as [Mx [My [Md [Mm [Mz [Mh [Mhist [turns [Mt Mturns]]]]]]]]].
  set (s2 := set_history (History.move (history s1)) s1).
  destruct (API_ask_spec WasReset s2) as [b [s3 [E3 [_ [Z3 [L3 T3]]]]]].
  unfold resetButtonPressed. run_bind E3.
  unfold mouseAndLog in L3. simpl in L3.
  inversion L3 as [[Lx Ly Ld Lm Lh Lhist]].
  assert (Hpose3 : poseInv cfg s3).
  { unfold poseInv. rewrite Lx, Ly, Ld, Mx, My, Md.
    split; [exact Hnd|]. rewrite <- Htarget. exact Hnin. }
  assert (Hmaze3 : maze s3 = maze s) by (rewrite Z3; simpl; exact Mz).
  assert (Htrace3 : trace s3
                    = (Asked WasReset b :: Told MoveForward :: turns)
                      ++ trace s).
  { rewrite T3. simpl. rewrite Mt. reflexivity. }
  destruct b.
  - exists [(m_x s + stepX nd, m_y s + stepY nd)],
           (Asked WasReset true :: Told MoveForward :: turns).
    unfold followed. simpl final.
    split.
    { rewrite <- Htarget. apply kc_hop; try assumption. apply kc_stop. }
    split; [exact Hmaze3|]. split; [exact Htrace3|].
    split.
    { change (Asked WasReset true :: Told MoveForward :: turns)
        with ([Asked WasReset true; Told MoveForward] ++ turns).
      rewrite forwardMoves_app, (forwardMoves_turns turns Mturns).
      reflexivity. }
    split; [simpl; rewrite Lx, Ly, Mx, My; reflexivity|].
    split; [exact Hpose3|].
    split.
    { simpl. intros [H|H]; [discriminate|].
      destruct (Mturns _ H); discriminate. }
    split; [apply hopBlocks_one; exact Mturns|].
    split; [intros _; exists s3; reflexivity|].
    intros s' _. left. reflexivity.
  - destruct (IH (m_x s + stepX nd, m_y s + stepY nd) s3 Hpose3)
      as [hops [delta F]].
    { rewrite Lx, Ly, Mx, My. reflexivity. }
    destruct F as [F1 [F2 [F3 [F4 [F5 [F6 [F7 [F9 [F10 F8]]]]]]]]].
    exists ((m_x s + stepX nd, m_y s + stepY nd) :: hops),
           (delta ++ Asked WasReset false :: Told MoveForward :: turns).
    unfold followed.
    split.
    { rewrite <- Htarget. apply kc_hop; try assumption.
      rewrite Hmaze3, <- Htarget in F1. exact F1. }
    split; [rewrite F2; exact Hmaze3|].
    split; [rewrite F3, Htrace3, <- app_assoc; reflexivity|].
    split.
    { rewrite forwardMoves_app.
      change (Asked WasReset false :: Told MoveForward :: turns)
        with ([Asked WasReset false; Told MoveForward] ++ turns).
      rewrite forwardMoves_app, (forwardMoves_turns turns Mturns), F4.
      simpl. lia. }
    split.
    { rewrite F5, last_cons. reflexivity. }
    split; [exact F6|].
    split.
    { intros Hin'. apply F7.
      destruct delta as [|e delta].
      - simpl in Hin'. destruct Hin' as [H|H]; [discriminate|].
        destruct (Mturns _ H); discriminate.
      - simpl in Hin'. simpl. apply in_app_or in Hin'.
        destruct Hin' as [H|[H|[H|H]]]; try discriminate; [exact H|].
        destruct (Mturns _ H); discriminate. }
    split.
    { apply hopBlocks_app; [exact F9 | apply hopBlocks_one; exact Mturns]. }
    split.
    { intros Hyes. apply F10. destruct delta; [discriminate | exact Hyes]. }
    intros s' Hs'. destruct (F8 s' Hs') as [H|H].
    + left. destruct delta; [discriminate | exact H].
    + right. rewrite Hmaze3 in H.
      rewrite last_cons. exact H.
Qed.

(** C3.  [followPath], called as [step] calls it - for the cell the
    mouse stands on - moves the mouse exactly through a chain [hops] of
    the planned pointers in which the wall of every edge taken is
    known: the grid is not changed, the forward moves told to the
    boundary are as many as the hops, and the mouse ends on the last of
    them.  So it never crosses an edge whose wall is unknown.  The
    trace it adds is made of hops, each one some quarter turns, one
    forward move and at once one poll of the reset button: the button
    is polled after every single hop, before anything else is done.
    When it returns, either the next edge of the plan is missing or
    unknown, or the reset query has just answered yes; and a yes to the
    reset query is never followed by anything (the trace is newest
    first, so it can only be its head): [followPath] returns at once,
    abandoning the remaining hops. *)
Theorem followPath_known_edges (fuel : nat) (s : State) :
  validDirection (m_d s) -> inGrid cfg (m_x s, m_y s) ->
  exists hops delta,
    let start := Maze.getCell (m_x s) (m_y s) in
    let o := followPath cfg fuel start s in
    knownChain cfg (maze s) start hops
    /\ maze (final o) = maze s
    /\ trace (final o) = delta ++ trace s
    /\ forwardMoves delta = length hops
    /\ (m_x (final o), m_y (final o)) = last hops start
    /\ ~ In (Asked WasReset true) (tl delta)
    /\ (forall s', o = Done tt s' ->
          hd_error delta = Some (Asked WasReset true)
          \/ Maze.hasNext (maze s) (last hops start)
             && Maze.isKnown (maze s) (last hops start)
                  (Maze.getNextDirection (maze s) (last hops start)) = false)
    /\ hopBlocks delta
    /\ (hd_error delta = Some (Asked WasReset true) ->
          exists s', o = Done tt s').
Proof.
  intros Hd Hin.
  rewrite (getCell_inGrid (m_x s) (m_y s) (proj1 Hin) (proj2 Hin)).
  destruct (followLoop_spec fuel (m_x s, m_y s) s (conj Hd Hin) eq_refl)
    as [hops [delta [F1 [F2 [F3 [F4 [F5 [F6 [F7 [F9 [F10 F8]]]]]]]]]]].
  exists hops, delta. cbv zeta. unfold followPath. tauto.
Qed.

(** ** The invariant holds all along a run *)

Lemma Inv_start (w : E) (s : State) :
  startUp cfg (initialState w) = Done tt s -> Inv cfg s.
Proof.
  intros Hs. destruct (startUp_spec w) as [s1 [E1 [L1 W1]]].
  rewrite Hs in E1. inversion E1; subst s1.
  unfold mouseAndLog in L1. inversion L1 as [[Lx Ly Ld Lm Lh Lhist]].
  assert (Hint : forall c d, inGrid cfg c -> validDirection d ->
            hasNeighboringCell cfg c d = true ->
            wallKnown (maze s) c d = false /\ wallPresent (maze s) c d = false).
  { intros c d Hc Hd Hn. destruct (W1 c d) as [K P].
    split.
    - destruct (wallKnown (maze s) c d); [|reflexivity].
      destruct (proj1 K eq_refl) as [_ [_ Hno]]. congruence.
    - destruct (wallPresent (maze s) c d); [|reflexivity].
      destruct (proj1 P eq_refl) as [_ [_ Hno]]. congruence. }
  split.
  - unfold poseInv, inGrid, validDirection. rewrite Lx, Ly, Ld. simpl.
    destruct Hcfg as [HW [HH _]]. lia.
  - rewrite Lhist. simpl. split; [|split; [|split]].
    + intros c d Hc Hd Hn.
      destruct (Hint c d Hc Hd Hn) as [-> ->].
      apply Hint.
      * apply neighbor_inGrid; assumption.
      * apply opposite_valid; assumption.
      * apply hasNeighboringCell_back; assumption.
    + intros c d Hw. destruct (W1 c d) as [K P].
      split; [apply K | apply P]; exact Hw.
    + intros e [].
    + intros c d Hc Hd Hn Hk.
      destruct (Hint c d Hc Hd Hn) as [Hk' _]. congruence.
Qed.

Lemma moveBlind_entries :
  moveBlind (fun s : State => History.entries (history s)).
Proof. intros s s' _ _ _ H. exact H. Qed.

Lemma step_Inv (fuel : nat) (s s' : State) :
  Inv cfg s -> step cfg fuel s = Done tt s' -> Inv cfg s'.
Proof.
  intros HI H. unfold step in H.
  destruct (readWalls_Inv s HI) as [s1 [E1 [I1 _]]].
  rewrite (bind_Done_intro _ _ _ _ _ E1) in H.
  rewrite !bind_gets in H. cbv zeta in H.
  apply bind_Done in H. destruct H as [start [s4 [H4 H]]].
  assert (I4 : Inv cfg s4).
  { apply (Inv_view s1); [|exact I1].
    pose proof (keeps_generatePath _ searchBlind_invView fuel
                  (Maze.getCell (m_x s1) (m_y s1)) s1) as K.
    rewrite H4 in K. exact K. }
  assert (P4 : (m_x s4, m_y s4) = (m_x s1, m_y s1)).
  { pose proof (keeps_generatePath _ searchBlind_invView fuel
                  (Maze.getCell (m_x s1) (m_y s1)) s1) as K.
    rewrite H4 in K. unfold invView in K. simpl in K. congruence. }
  destruct (cell_eqb start (Maze.getCell (m_x s1) (m_y s1))) eqn:Hstart;
    cbn [negb] in H.
  2:{ inversion H; subst s'. apply (Inv_view s4); [reflexivity | exact I4]. }
  apply cell_eqb_eq in Hstart.
  apply bind_Done in H. destruct H as [[] [s5 [H5 H]]].
  apply bind_Done in H. destruct H as [[] [s6 [H6 H]]].
  assert (V5 : invView s5 = invView s4).
  { pose proof (keeps_drawPath _ searchBlind_invView fuel start s4) as K.
    rewrite H5 in K. exact K. }
  assert (I5 : Inv cfg s5) by (apply (Inv_view s4); assumption).
  assert (Hs5 : start = (m_x s5, m_y s5)).
  { unfold invView in V5. inversion V5 as [[Vx Vy Vd Vk Vp Ve]].
    rewrite Vx, Vy. inversion P4 as [[Px Py]]. rewrite Px, Py, Hstart.
    apply getCell_inGrid; apply I1. }
  destruct (followLoop_spec fuel start s5 (proj1 I5) Hs5)
    as [hops [delta [F1 [F2 [F3 [F4 [F5 [F6 [F7 F8]]]]]]]]].
  unfold followPath in H6. rewrite H6 in F2, F6. simpl in F2, F6.
  pose proof (keeps_followLoop _ moveBlind_entries fuel start s5) as Ke.
  rewrite H6 in Ke. simpl in Ke.
  assert (I6 : Inv cfg s6).
  { split; [exact F6|]. rewrite F2, Ke. apply I5. }
  apply (Inv_view s6); [|exact I6].
  pose proof (keeps_goalCheck invView fuel (fun _ _ => eq_refl) s6) as K.
  rewrite H in K. exact K.
Qed.

Lemma reachable_Inv (s : State) : reachable cfg s -> Inv cfg s.
Proof.
  induction 1 as [w s Hs | fuel s s' Hr IH Hs | s s' Hr IH Hs
                 | q s Hr IH | c s Hr IH].
  - apply (Inv_start w). exact Hs.
  - apply (step_Inv fuel s); assumption.
  - apply (reset_Inv s); assumption.
  - apply (Inv_view s); [|exact IH].
    apply (keeps_ask _ q (searchBlind_inward _ searchBlind_invView)).
  - apply (Inv_view s); [|exact IH].
    apply (keeps_tell _ c (searchBlind_inward _ searchBlind_invView)).
Qed.

Lemma symInternal_symmetric (g : Grid) :
  symInternal cfg g -> wallsSymmetric cfg g.
Proof.
  intros Hs c d Hc Hd Hn Hk. unfold Maze.isKnown, Maze.isWall in *.
  destruct (Hs c d Hc Hd Hn) as [-> ->]. auto.
Qed.

Lemma perimInternal_known (g : Grid) : perimInternal cfg g -> perimeterKnown cfg g.
Proof.
  intros Hp c d Hw. unfold Maze.isKnown, Maze.isWall.
  destruct (Hp c d Hw) as [-> ->]. auto.
Qed.

(** C2.  In every state a run reaches - through any steps, with all
    their sensing, and any earlier resets - [reset] returns, every wall
    between two cells of the grid that was known before it is unknown
    after it, seen from either of its two cells, and the mouse is at
    (0,0) with the configured initial heading in CENTER mode. *)
Theorem reset_forgets_learned_walls (s : State) :
  reachable cfg s ->
  exists s',
    reset cfg s = Done tt s'
    /\ (forall c d, inGrid cfg c -> validDirection d ->
          hasNeighboringCell cfg c d = true ->
          Maze.isKnown (maze s) c d = true ->
          Maze.isKnown (maze s') c d = false
          /\ Maze.isKnown (maze s') (neighbor c d) (opposite d) = false)
    /\ m_x s' = 0 /\ m_y s' = 0
    /\ m_d s' = m_initialDirection cfg
    /\ m_mode s' = CENTER.
Proof.
  intros Hr. pose proof (reachable_Inv s Hr) as HI.
  destruct (reset_spec s HI) as [s' [E1 [Hx [Hy [Hd [Hm [He Hw]]]]]]].
  exists s'. split; [exact E1|]. split; [|auto].
  destruct Hw as [_ [_ [_ Hv]]].
  assert (Hnone : forall c d, inGrid cfg c -> validDirection d ->
            hasNeighboringCell cfg c d = true ->
            Maze.isKnown (maze s') c d = false).
  { intros c d Hc Hdir Hn. unfold Maze.isKnown.
    destruct (wallKnown (maze s') c d) eqn:Hk; [|reflexivity].
    specialize (Hv c d Hc Hdir Hn Hk). discriminate. }
  intros c d Hc Hdir Hn _. split.
  - apply Hnone; assumption.
  - apply Hnone.
    + apply neighbor_inGrid; assumption.
    + apply opposite_valid; assumption.
    + apply hasNeighboringCell_back; assumption.
Qed.

(** C4.  In every state a run reaches the walls are symmetric - a known
    side has a known facing side with the same presence - and the four
    perimeter walls are known and present.  Every wall update keeps the
    symmetry: [setCellWall] and [unsetCellWall], applied to both sides
    of any wall of a cell of the grid, return with symmetric walls.
    And [reset] returns with the walls still symmetric and the
    perimeter still known and present. *)
Theorem wall_symmetry_and_perimeter (s : State) :
  reachable cfg s ->
  wallsSymmetric cfg (maze s)
  /\ perimeterKnown cfg (maze s)
  /\ (forall c d w, inGrid cfg c -> validDirection d ->
        exists s', setCellWall cfg c d w true s = Done tt s'
                   /\ wallsSymmetric cfg (maze s'))
  /\ (forall c d, inGrid cfg c -> validDirection d ->
        exists s', unsetCellWall cfg c d true s = Done tt s'
                   /\ wallsSymmetric cfg (maze s'))
  /\ (exists s', reset cfg s = Done tt s'
                 /\ wallsSymmetric cfg (maze s')
                 /\ perimeterKnown cfg (maze s')).
Proof.
  intros Hr. pose proof (reachable_Inv s Hr) as HI.
  destruct HI as [Hpose [Hs [Hp [Hl Hv]]]].
  split; [apply symInternal_symmetric; exact Hs|].
  split; [apply perimInternal_known; exact Hp|].
  split; [|split].
  - intros c d w Hc Hd.
    destruct (setCellWall_spec c d w s Hd) as [s' [E1 [M1 _]]].
    exists s'. split; [exact E1|]. rewrite M1.
    apply symInternal_symmetric. apply symInternal_setBoth; assumption.
  - intros c d Hc Hd.
    destruct (unsetCellWall_spec c d s Hd) as [s' [E1 [M1 _]]].
    exists s'. split; [exact E1|]. rewrite M1.
    apply symInternal_symmetric. apply symInternal_clearBoth; assumption.
  - destruct (reset_spec s (conj Hpose (conj Hs (conj Hp (conj Hl Hv)))))
      as [s' [E1 [_ [_ [_ [_ [_ Hw]]]]]]].
    exists s'. split; [exact E1|]. destruct Hw as [Hs' [Hp' _]].
    split; [apply symInternal_symmetric | apply perimInternal_known];
      assumption.
Qed.

(** ** Reversing the chain of pointers *)

Lemma adjacent_cons (x : cell) (l : list cell) (a b : cell) :
  adjacent (x :: l) a b <->
  (x = a /\ exists l', l = b :: l') \/ adjacent l a b.
Proof.
  unfold adjacent. split.
  - intros [l1 [l2 H]]. destruct l1 as [|y l1]; simpl in H.
    + inversion H. left. split; [reflexivity|]. exists l2. reflexivity.
    + inversion H. right. exists l1, l2. reflexivity.
  - intros [[-> [l' ->]] | [l1 [l2 ->]]].
    + exists [], l'. reflexivity.
    + exists (x :: l1), l2. reflexivity.
Qed.

Lemma adjacent_rev (l : list cell) (a b : cell) :
  adjacent (rev l) b a <-> adjacent l a b.
Proof.
  assert (H : forall l a b, adjacent l a b -> adjacent (rev l) b a).
  { intros l0 a0 b0 [l1 [l2 ->]]. exists (rev l2), (rev l1).
    rewrite rev_app_distr. simpl. rewrite <- !app_assoc. reflexivity. }
  split; [|apply H]. intros Hr. apply H in Hr.
  rewrite rev_involutive in Hr. exact Hr.
Qed.

Lemma adjacent_in (l : list cell) (a b : cell) :
  adjacent l a b -> In a l /\ In b l.
Proof.
  intros [l1 [l2 ->]]. split; apply in_or_app; right; simpl; auto.
Qed.

Lemma adjacent_single (c a b : cell) : ~ adjacent [c] a b.
Proof.
  intros [l1 [l2 H]]. destruct l1 as [|y l1]; simpl in H; [discriminate|].
  destruct l1; discriminate.
Qed.

Lemma pointerChain_linked (g : Grid) (cells : list cell) :
  pointerChain cfg g cells ->
  (forall a b, adjacent cells a b -> linked cfg g a b)
  /\ (forall c, In c cells -> inGrid cfg c)
  /\ exists front final, cells = front ++ [final]
                         /\ Maze.hasNext g final = false.
Proof.
  induction 1 as [c Hc Hn | c c' rest Hc Hn Hv Hh Hc' Hrest IH].
  - split; [intros a b Hadj; destruct (adjacent_single c a b Hadj)|].
    split; [intros c0 [<-|[]]; exact Hc|].
    exists [], c. auto.
  - destruct IH as [Hl [Hin [front [final [Hf Hlast]]]]]. split; [|split].
    + intros a b Hadj. apply adjacent_cons in Hadj.
      destruct Hadj as [[<- [l' Hl']] | Hadj]; [|apply Hl; exact Hadj].
      inversion Hl'; subst b.
      split; [exact Hn | split; [exact Hv | split; [exact Hh | exact Hc']]].
    + intros c0 [<-|H0]; [exact Hc | apply Hin; exact H0].
    + exists (c :: front), final. rewrite Hf. auto.
Qed.

Lemma linked_pointerChain (g : Grid) (front : list cell) (final : cell) :
  (forall a b, adjacent (front ++ [final]) a b -> linked cfg g a b) ->
  (forall c, In c (front ++ [final]) -> inGrid cfg c) ->
  Maze.hasNext g final = false ->
  pointerChain cfg g (front ++ [final]).
Proof.
  induction front as [|c front IH]; intros Hl Hin Hlast.
  - apply pc_end; [apply Hin; left; reflexivity | exact Hlast].
  - assert (Hrest : pointerChain cfg g (front ++ [final])).
    { apply IH; [|intros c0 H0; apply Hin; right; exact H0 | exact Hlast].
      intros a b Hadj. apply Hl. apply adjacent_cons. right. exact Hadj. }
    destruct (front ++ [final]) as [|c' rest] eqn:Hshape.
    { destruct front; discriminate. }
    simpl. rewrite Hshape.
    destruct (Hl c c') as [H1 [H2 [H3 H4]]].
    { apply adjacent_cons. left. split; [reflexivity|].
      exists rest. exact Hshape. }
    apply pc_link; try assumption. apply Hin. left. reflexivity.
Qed.

Lemma reverseTail_spec (rest : list cell) :
  forall (cur : cell) (direction : Z) (fuel : nat) (s : State),
    (length rest < fuel)%nat -> validDirection direction ->
    NoDup (cur :: rest) ->
    (forall a b, adjacent (cur :: rest) a b -> linked cfg (maze s) a b) ->
    Maze.hasNext (maze s) (last rest cur) = false ->
    exists g',
      reverseTail cfg fuel direction cur s = Done (last rest cur) (set_maze g' s)
      /\ nextSet g' cur = true
      /\ nextDirection g' cur = opposite direction
      /\ (forall a b, adjacent (cur :: rest) a b ->
            nextSet g' b = true
            /\ nextDirection g' b = opposite (nextDirection (maze s) a))
      /\ (forall c, ~ In c (cur :: rest) ->
            nextSet g' c = nextSet (maze s) c
            /\ nextDirection g' c = nextDirection (maze s) c)
      /\ sameOther g' (maze s).
Proof.
  induction rest as [|b rest IH]; intros cur direction fuel s Hfuel Hdir Hnd
    Hlinked Hlast; (destruct fuel as [|fuel]; [simpl in Hfuel; lia|]);
    unfold reverseTail; cbn [reverseLoop]; rewrite bind_assoc, bind_gets.
  - simpl in Hlast. unfold Maze.hasNext in Hlast |- *. rewrite Hlast.
    rewrite bind_ret. cbn [fst snd].
    run_bind (getOppositeDirection_valid direction s Hdir).
    unfold onMaze. rewrite bind_modify. unfold ret.
    exists (Maze.setNextDirection cur (opposite direction) (maze s)).
    split; [reflexivity|]. simpl. unfold upd. rewrite cell_eqb_refl.
    split; [reflexivity|]. split; [reflexivity|]. split.
    { intros a b0 Hadj. destruct (adjacent_single cur a b0 Hadj). }
    split.
    { intros c Hc. assert (Hne : cell_eqb c cur = false).
      { apply cell_eqb_neq. intros ->. apply Hc. left. reflexivity. }
      rewrite Hne. auto. }
    repeat split.
  - destruct (Hlinked cur b) as [H1 [H2 [H3 H4]]].
    { apply adjacent_cons. left. split; [reflexivity|]. exists rest.
      reflexivity. }
    unfold Maze.hasNext in H1 |- *. rewrite H1. cbv zeta.
    rewrite bind_assoc.
    run_bind (getOppositeDirection_valid direction s Hdir).
    rewrite bind_assoc. unfold onMaze at 1. rewrite bind_modify.
    rewrite bind_assoc.
    match goal with
    | |- context [bind (getNeighboringCell cfg cur ?d) _ ?s0] =>
        run_bind (getNeighboringCell_has cur d s0 H3)
    end.
    rewrite <- H4.
    set (s1 := set_maze (Maze.setNextDirection cur (opposite direction)
                           (maze s)) s).
    assert (Hcur : ~ In cur (b :: rest)) by (inversion Hnd; assumption).
    assert (Hsame : forall c, In c (b :: rest) ->
              nextSet (maze s1) c = nextSet (maze s) c
              /\ nextDirection (maze s1) c = nextDirection (maze s) c).
    { intros c Hc. simpl. unfold upd.
      assert (Hne : cell_eqb c cur = false).
      { apply cell_eqb_neq. intros ->. contradiction. }
      rewrite Hne. auto. }
    destruct (IH b (Maze.getNextDirection (maze s) cur) fuel s1)
      as [g' [Erun [Gb [Gd [Gadj [Gout Gother]]]]]].
    + simpl in Hfuel. lia.
    + exact H2.
    + inversion Hnd; assumption.
    + intros a b0 Hadj.
      destruct (adjacent_in _ _ _ Hadj) as [Ha _].
      destruct (Hlinked a b0) as [L1 [L2 [L3 L4]]].
      { apply adjacent_cons. right. exact Hadj. }
      unfold linked, Maze.hasNext, Maze.getNextDirection in *.
      destruct (Hsame a Ha) as [-> ->]. auto.
    + pose proof (last_in_cons b rest) as Hl.
      unfold Maze.hasNext in *. rewrite (proj1 (Hsame _ Hl)).
      rewrite last_cons in Hlast. exact Hlast.
    + unfold reverseTail in Erun. exists g'.
      split.
      { rewrite last_cons. exact Erun. }
      destruct (Gout cur Hcur) as [Gc1 Gc2].
      split; [rewrite Gc1; simpl; unfold upd; rewrite cell_eqb_refl;
              reflexivity|].
      split; [rewrite Gc2; simpl; unfold upd; rewrite cell_eqb_refl;
              reflexivity|].
      split.
      { intros a b0 Hadj. apply adjacent_cons in Hadj.
        destruct Hadj as [[<- [l' Hl']] | Hadj].
        - inversion Hl'; subst b0. split; [exact Gb|].
          rewrite Gd. reflexivity.
        - destruct (Gadj a b0 Hadj) as [G1 G2]. split; [exact G1|].
          rewrite G2.
          destruct (adjacent_in _ _ _ Hadj) as [Ha _].
          rewrite (proj2 (Hsame a Ha)). reflexivity. }
      split.
      { intros c Hc. destruct (Gout c) as [G1 G2].
        - intros Hin. apply Hc. right. exact Hin.
        - rewrite G1, G2. simpl. unfold upd.
          assert (Hne : cell_eqb c cur = false).
          { apply cell_eqb_neq. intros ->. apply Hc. left. reflexivity. }
          rewrite Hne. auto. }
      exact Gother.
Qed.

Lemma pointerChain_suffix (g : Grid) (l1 : list cell) (c : cell)
  (l2 : list cell) :
  pointerChain cfg g (l1 ++ c :: l2) -> pointerChain cfg g (c :: l2).
Proof.
  induction l1 as [|x l1 IH]; intros H; [exact H|].
  apply IH. simpl in H. remember (l1 ++ c :: l2) as l eqn:Hl.
  inversion H as [c0 Hc Hn | c0 c' rest Hc Hn Hv Hh Hc' Hrest]; subst.
  - destruct l1; discriminate.
  - exact Hrest.
Qed.

Lemma pointerChain_determined (g : Grid) (l1 : list cell) :
  forall (c : cell) (l2 : list cell),
    pointerChain cfg g (c :: l1) -> pointerChain cfg g (c :: l2) -> l1 = l2.
Proof.
  induction l1 as [|x l1 IH]; intros c l2 H1 H2.
  - inversion H1 as [c0 Hc Hn | c0 c' rest Hc Hn Hv Hh Hc' Hrest]; subst.
    inversion H2 as [c0 Hc2 Hn2 | c0 c' rest Hc2 Hn2 Hv2 Hh2 Hc2' Hrest2];
      subst; [reflexivity | congruence].
  - inversion H1 as [c0 Hc Hn | c0 c' rest Hc Hn Hv Hh Hc' Hrest]; subst.
    inversion H2 as [c0 Hc2 Hn2 | c0 c' rest Hc2 Hn2 Hv2 Hh2 Hc2' Hrest2];
      subst; [congruence|].
    f_equal. apply (IH _ _ Hrest Hrest2).
Qed.

(** Following pointers never comes back to a cell already passed. *)
Lemma pointerChain_NoDup (g : Grid) (cells : list cell) :
  pointerChain cfg g cells -> NoDup cells.
Proof.
  induction 1 as [c Hc Hn | c c' rest Hc Hn Hv Hh Hc' Hrest IH].
  - constructor; [intros [] | constructor].
  - constructor; [|exact IH]. intros Hin.
    apply in_split in Hin. destruct Hin as [l1 [l2 Hsplit]].
    assert (Hwhole : pointerChain cfg g (c :: c' :: rest))
      by (apply pc_link; assumption).
    assert (Hsuf : pointerChain cfg g (c :: l2)).
    { apply (pointerChain_suffix g l1). rewrite <- Hsplit. exact Hrest. }
    pose proof (pointerChain_determined g _ _ _ Hwhole Hsuf) as Heq.
    rewrite Hsplit in Heq. apply (f_equal (@length cell)) in Heq.
    rewrite length_app in Heq. simpl in Heq. lia.
Qed.

Lemma reverseLinkedList_spec (goal start : cell) (mid : list cell)
  (fuel : nat) (s : State) :
  (forall a b, adjacent (goal :: mid ++ [start]) a b -> linked cfg (maze s) a b) ->
  Maze.hasNext (maze s) start = false ->
  NoDup (goal :: mid ++ [start]) ->
  (length mid < fuel)%nat ->
  exists g1,
    reverseLinkedList cfg fuel goal s = Done start (set_maze g1 s)
    /\ (forall a b, adjacent (goal :: mid ++ [start]) a b ->
          nextSet g1 b = true
          /\ nextDirection g1 b = opposite (nextDirection (maze s) a))
    /\ nextSet g1 goal = false
    /\ nextDirection g1 goal = nextDirection (maze s) goal
    /\ (forall c, ~ In c (goal :: mid ++ [start]) ->
          nextSet g1 c = nextSet (maze s) c
          /\ nextDirection g1 c = nextDirection (maze s) c)
    /\ sameOther g1 (maze s).
Proof.
  intros Hlinked Hlast Hnd Hfuel.
  destruct (mid ++ [start]) as [|c1 rest] eqn:Hshape;
    [destruct mid; discriminate|].
  assert (Hend : last rest c1 = start).
  { rewrite <- (last_cons c1 rest goal), <- Hshape. apply last_last. }
  assert (Hlen : length rest = length mid).
  { apply (f_equal (@length cell)) in Hshape. rewrite length_app in Hshape.
    simpl in Hshape. lia. }
  destruct (Hlinked goal c1) as [H1 [H2 [H3 H4]]].
  { apply adjacent_cons. left. split; [reflexivity|]. exists rest.
    reflexivity. }
  unfold reverseLinkedList. cbv zeta. rewrite bind_gets.
  run_bind (getNeighboringCell_has goal _ s H3). rewrite <- H4.
  unfold onMaze at 1. rewrite bind_modify.
  set (s1 := set_maze (Maze.clearNext goal (maze s)) s).
  assert (Hgoal : ~ In goal (c1 :: rest)) by (inversion Hnd; assumption).
  assert (Hsame : forall c, In c (c1 :: rest) ->
            nextSet (maze s1) c = nextSet (maze s) c).
  { intros c Hc. simpl. unfold upd.
    assert (Hne : cell_eqb c goal = false).
    { apply cell_eqb_neq. intros ->. contradiction. }
    rewrite Hne. reflexivity. }
  destruct (reverseTail_spec rest c1 (Maze.getNextDirection (maze s) goal)
              fuel s1) as [g' [Erun [Gb [Gd [Gadj [Gout Gother]]]]]].
  - lia.
  - exact H2.
  - inversion Hnd; assumption.
  - intros a b Hadj. destruct (adjacent_in _ _ _ Hadj) as [Ha _].
    destruct (Hlinked a b) as [L1 [L2 [L3 L4]]].
    { apply adjacent_cons. right. exact Hadj. }
    unfold linked, Maze.hasNext in *. rewrite (Hsame a Ha).
    split; [exact L1|]. split; [exact L2|]. split; [exact L3 | exact L4].
  - rewrite Hend. unfold Maze.hasNext in *.
    rewrite (Hsame start); [exact Hlast|].
    rewrite <- Hend. apply last_in_cons.
  - unfold reverseTail in Erun. rewrite Hend in Erun.
    exists g'. split; [exact Erun|].
    destruct (Gout goal Hgoal) as [Gg1 Gg2].
    split.
    { intros a b Hadj. apply adjacent_cons in Hadj.
      destruct Hadj as [[<- [l' Hl']] | Hadj].
      - inversion Hl'; subst b. split; [exact Gb | exact Gd].
      - apply Gadj. exact Hadj. }
    split; [rewrite Gg1; simpl; unfold upd; rewrite cell_eqb_refl;
            reflexivity|].
    split; [rewrite Gg2; reflexivity|].
    split.
    { intros c Hc. destruct (Gout c) as [G1 G2].
      - intros Hin. apply Hc. right. exact Hin.
      - rewrite G1, G2. simpl. unfold upd.
        assert (Hne : cell_eqb c goal = false).
        { apply cell_eqb_neq. intros ->. apply Hc. left. reflexivity. }
        rewrite Hne. auto. }
    exact Gother.
Qed.

(** C8.  Take a chain of next-pointers from a goal cell back to the
    start cell (at least one pointer: every cell of the chain but the
    start has its pointer set, the start has none).  With fuel for the
    length of the chain, [reverseLinkedList] from the goal returns the
    start and leaves the forward chain, the same cells in reverse order;
    [reverseLinkedList] from the start then returns the goal and leaves
    the original chain: the same cells in the same order, every cell
    with a pointer or without one as before, and every pointer as it
    was - only the direction kept in the start cell, which has no
    pointer before or after, may differ.  Nothing else of the state
    changes. *)
Theorem reversal_is_an_involution (fuel : nat) (goal start : cell)
  (mid : list cell) (s : State) :
  pointerChain cfg (maze s) (goal :: mid ++ [start]) ->
  (length (goal :: mid ++ [start]) <= fuel)%nat ->
  exists s1 s2,
    reverseLinkedList cfg fuel goal s = Done start s1
    /\ pointerChain cfg (maze s1) (rev (goal :: mid ++ [start]))
    /\ reverseLinkedList cfg fuel start s1 = Done goal s2
    /\ pointerChain cfg (maze s2) (goal :: mid ++ [start])
    /\ (forall c, Maze.hasNext (maze s2) c = Maze.hasNext (maze s) c)
    /\ (forall c, c <> start ->
          Maze.getNextDirection (maze s2) c = Maze.getNextDirection (maze s) c)
    /\ sameOther (maze s2) (maze s)
    /\ s2 = set_maze (maze s2) s.
Proof.
  intros Hchain Hfuel.
  pose proof (pointerChain_NoDup _ _ Hchain) as Hnd.
  destruct (pointerChain_linked _ _ Hchain)
    as [Hlinked [Hin [front [final [Hshape Hlast]]]]].
  assert (Hfinal : final = start).
  { change (goal :: mid ++ [start]) with ((goal :: mid) ++ [start]) in Hshape.
    apply app_inj_tail in Hshape. symmetry. apply Hshape. }
  subst final.
  assert (Hlen : (length mid < fuel)%nat).
  { simpl in Hfuel. rewrite length_app in Hfuel. simpl in Hfuel. lia. }
  destruct (reverseLinkedList_spec goal start mid fuel s Hlinked Hlast Hnd Hlen)
    as [g1 [E1 [A1 [S1 [D1 [O1 F1]]]]]].
  set (s1 := set_maze g1 s) in *.
  assert (Hrev : rev (goal :: mid ++ [start]) = start :: rev mid ++ [goal]).
  { change (goal :: mid ++ [start]) with ([goal] ++ mid ++ [start]).
    rewrite !rev_app_distr. reflexivity. }
  (* the forward chain after the first reversal *)
  assert (Hlinked1 : forall b a, adjacent (start :: rev mid ++ [goal]) b a ->
            linked cfg (maze s1) b a).
  { intros b a Hadj. rewrite <- Hrev in Hadj.
    apply (proj1 (adjacent_rev _ _ _)) in Hadj.
    destruct (A1 a b Hadj) as [Hset Hdir].
    destruct (Hlinked a b Hadj) as [L1 [L2 [L3 L4]]].
    destruct (adjacent_in _ _ _ Hadj) as [Ha Hb].
    unfold linked, Maze.hasNext, Maze.getNextDirection in *. simpl.
    rewrite Hset, Hdir. split; [reflexivity|].
    split; [apply opposite_valid; exact L2|].
    rewrite L4. split.
    - apply hasNeighboringCell_back; [apply Hin; exact Ha | exact L2 | exact L3].
    - symmetry. apply neighbor_back; [apply Hin; exact Ha | exact L2 | exact L3]. }
  assert (Hnd1 : NoDup (start :: rev mid ++ [goal])).
  { rewrite <- Hrev. apply NoDup_rev. exact Hnd. }
  assert (Hin1 : forall c, In c (start :: rev mid ++ [goal]) ->
            In c (goal :: mid ++ [start])).
  { intros c Hc. rewrite <- Hrev in Hc. apply in_rev in Hc. exact Hc. }
  assert (Hlen1 : (length (rev mid) < fuel)%nat)
    by (rewrite length_rev; exact Hlen).
  destruct (reverseLinkedList_spec start goal (rev mid) fuel s1 Hlinked1 S1
              Hnd1 Hlen1)
    as [g2 [E2 [A2 [S2 [D2 [O2 F2]]]]]].
  exists s1, (set_maze g2 s1).
  split; [exact E1|].
  split.
  { rewrite Hrev. change (start :: rev mid ++ [goal])
      with ((start :: rev mid) ++ [goal]).
    apply linked_pointerChain.
    - exact Hlinked1.
    - intros c Hc. apply Hin. apply Hin1. exact Hc.
    - exact S1. }
  split; [exact E2|].
  (* the pointers after the second reversal *)
  assert (Hset2 : forall c, nextSet g2 c = nextSet (maze s) c).
  { intros c. destruct (In_dec cell_eq_dec c (goal :: mid ++ [start])) as [Hc|Hc].
    - apply in_split in Hc. destruct Hc as [l1 [l2 Hsplit]].
      destruct l2 as [|b l2].
      + assert (c = start).
        { change (goal :: mid ++ [start]) with ((goal :: mid) ++ [start])
            in Hsplit. apply app_inj_tail in Hsplit. symmetry. apply Hsplit. }
        subst c. rewrite S2. symmetry. exact Hlast.
      + assert (Hadj : adjacent (goal :: mid ++ [start]) c b)
          by (exists l1, l2; exact Hsplit).
        destruct (Hlinked c b Hadj) as [L1 _].
        apply (proj2 (adjacent_rev _ _ _)) in Hadj. rewrite Hrev in Hadj.
        destruct (A2 b c Hadj) as [Hs _]. rewrite Hs. symmetry. exact L1.
    - destruct (O2 c) as [G1 _].
      { intros H. apply Hc. apply Hin1. exact H. }
      destruct (O1 c Hc) as [G2 _]. rewrite G1. exact G2. }
  assert (Hdir2 : forall c, c <> start ->
            nextDirection g2 c = nextDirection (maze s) c).
  { intros c Hne. destruct (In_dec cell_eq_dec c (goal :: mid ++ [start])) as [Hc|Hc].
    - apply in_split in Hc. destruct Hc as [l1 [l2 Hsplit]].
      destruct l2 as [|b l2].
      + exfalso. apply Hne.
        change (goal :: mid ++ [start]) with ((goal :: mid) ++ [start])
          in Hsplit. apply app_inj_tail in Hsplit. symmetry. apply Hsplit.
      + assert (Hadj : adjacent (goal :: mid ++ [start]) c b)
          by (exists l1, l2; exact Hsplit).
        destruct (Hlinked c b Hadj) as [_ [L2 _]].
        destruct (A1 c b Hadj) as [_ Hd1].
        apply (proj2 (adjacent_rev _ _ _)) in Hadj. rewrite Hrev in Hadj.
        destruct (A2 b c Hadj) as [_ Hd2]. rewrite Hd2. simpl.
        rewrite Hd1. apply opposite_involutive. exact L2.
    - destruct (O2 c) as [_ G1].
      { intros H. apply Hc. apply Hin1. exact H. }
      destruct (O1 c Hc) as [_ G2]. rewrite G1. exact G2. }
  assert (Hother : sameOther g2 (maze s)).
  { destruct F1 as [K1 [K2 [K3 [K4 K5]]]].
    destruct F2 as [J1 [J2 [J3 [J4 J5]]]]. simpl in *.
    unfold sameOther. rewrite J1, J2, J3, J4, J5. auto. }
  simpl maze. split; [|split; [exact Hset2 | split; [exact Hdir2 |
                                 split; [exact Hother | reflexivity]]]].
  change (goal :: mid ++ [start]) with ((goal :: mid) ++ [start]).
  apply linked_pointerChain.
  - intros a b Hadj. destruct (Hlinked a b Hadj) as [L1 [L2 [L3 L4]]].
    assert (Hne : a <> start).
    { intros ->. unfold Maze.hasNext in *. congruence. }
    unfold linked, Maze.hasNext, Maze.getNextDirection in *.
    rewrite Hset2, (Hdir2 a Hne). auto.
  - exact Hin.
  - unfold Maze.hasNext. rewrite Hset2. exact Hlast.
Qed.

(** ** What sensing reads and records *)

Lemma sensorReads_app (t2 t1 : list event) :
  sensorReads (t2 ++ t1) = sensorReads t1 ++ sensorReads t2.
Proof.
  unfold sensorReads. rewrite rev_app_distr, flat_map_app. reflexivity.
Qed.

Lemma quiet_still {A : Type} (m : M A) :
  (forall s, trace (final (m s)) = trace s) -> quiet m.
Proof. intros H s. exists []. rewrite H. auto. Qed.

Lemma quiet_bind {A C : Type} (m : M A) (k : A -> M C) :
  quiet m -> (forall a, quiet (k a)) -> quiet (bind m k).
Proof.
  intros Hm Hk s. destruct (Hm s) as [t1 [H1 Q1]]. unfold bind.
  destruct (m s) as [a s1 | s1 | s1]; simpl in *.
  - destruct (Hk a s1) as [t2 [H2 Q2]]. exists (t2 ++ t1).
    rewrite H2, H1, app_assoc, sensorReads_app, Q1, Q2. auto.
  - exists t1. auto.
  - exists t1. auto.
Qed.

Lemma quiet_tell (c : command) : quiet (API_tell c).
Proof. intros s. exists [Told c]. auto. Qed.

Lemma quiet_setCellWall (c : cell) (d : Z) (w b : bool) :
  quiet (setCellWall cfg c d w b).
Proof.
  assert (Hside : forall c0 d0, quiet (setCellWallSide c0 d0 w)).
  { intros c0 d0. unfold setCellWallSide. apply quiet_bind.
    - apply quiet_still. reflexivity.
    - intros _. destruct w; [apply quiet_tell | apply quiet_still; reflexivity]. }
  unfold setCellWall. apply quiet_bind; [apply Hside | intros _].
  destruct (b && hasNeighboringCell cfg c d);
    [|apply quiet_still; reflexivity].
  apply quiet_bind.
  { unfold getNeighboringCell. apply quiet_bind.
    - apply quiet_still. intros s. destruct (hasNeighboringCell cfg c d);
        reflexivity.
    - intros _. apply quiet_still. intros s. cbv zeta.
      destruct (d =? 0); [reflexivity|]. destruct (d =? 1); [reflexivity|].
      destruct (d =? 2); reflexivity. }
  intros nb. apply quiet_bind; [|intros od; apply Hside].
  apply quiet_still. intros s. unfold getOppositeDirection.
  destruct (d =? 0); [reflexivity|]. destruct (d =? 1); [reflexivity|].
  destruct (d =? 2); [reflexivity|]. destruct (d =? 3); reflexivity.
Qed.

Lemma sensorFor_reads (d direction : Z) (b : bool) :
  sensorReads [Asked (sensorFor d direction) b] = [sensorFor d direction].
Proof.
  unfold sensorFor.
  destruct (Z.rem (direction - d + 4) 4 =? 0); [reflexivity|].
  destruct (Z.rem (direction - d + 4) 4 =? 1); reflexivity.
Qed.

Lemma directionAt_injective (d i j : Z) :
  validDirection d -> -1 <= i <= 1 -> -1 <= j <= 1 ->
  directionAt d i = directionAt d j -> i = j.
Proof.
  intros Hd Hi Hj. unfold directionAt.
  rewrite (proj2 (sensed_direction d i Hd Hi)).
  rewrite (proj2 (sensed_direction d j Hd Hj)).
  unfold validDirection in Hd. intros H. zlia.
Qed.

Lemma touched_other_side (c : cell) (d d' : Z) :
  inGrid cfg c -> validDirection d -> d' <> d -> touched cfg c d c d' = false.
Proof.
  intros Hc Hd Hne. destruct (touched cfg c d c d') eqn:Ht; [|reflexivity].
  apply touched_true in Ht. destruct Ht as [[_ H] | [Hn [H _]]].
  - contradiction.
  - symmetry in H. destruct (neighbor_differs c d Hc Hd Hn H).
Qed.

Lemma readWallsLoop_reads (offsets : list Z) :
  forall (data : Z) (s : State),
    NoDup offsets -> (forall i, In i offsets -> -1 <= i <= 1) ->
    poseInv cfg s ->
    exists data' s' delta,
      readWallsLoop cfg offsets data s = Done data' s'
      /\ mouseAndLog s' = mouseAndLog s
      /\ trace s' = delta ++ trace s
      /\ sensorReads delta
         = map (sensorFor (m_d s))
               (filter (fun dir => negb (wallKnown (maze s) (m_x s, m_y s) dir))
                       (map (directionAt (m_d s)) offsets))
      /\ (forall c d, wallKnown (maze s) c d = true ->
            wallKnown (maze s') c d = true)
      /\ (forall dir, In dir (map (directionAt (m_d s)) offsets) ->
            wallKnown (maze s') (m_x s, m_y s) dir = true)
      /\ (forall dir, validDirection dir ->
            ~ In dir (map (directionAt (m_d s)) offsets) ->
            wallKnown (maze s') (m_x s, m_y s) dir
            = wallKnown (maze s) (m_x s, m_y s) dir)
      /\ (forall d, validDirection d ->
            learnedBit data' d
            = learnedBit data d
              || existsb (Z.eqb d)
                   (filter (fun dir =>
                              negb (wallKnown (maze s) (m_x s, m_y s) dir))
                           (map (directionAt (m_d s)) offsets))).
Proof.
  induction offsets as [|i rest IH]; intros data s Hnd Hoff Hpose.
  { exists data, s, []. simpl.
    split; [reflexivity|]. split; [reflexivity|]. split; [reflexivity|].
    split; [reflexivity|]. split; [auto|]. split; [intros dir []|].
    split; [auto|]. intros d Hd. rewrite orb_false_r. reflexivity. }
  cbn [readWallsLoop]. rewrite !bind_gets. cbv zeta.
  destruct Hpose as [Hd Hin].
  assert (Hi : -1 <= i <= 1) by (apply Hoff; left; reflexivity).
  destruct (sensed_direction (m_d s) i Hd Hi) as [Hdir _].
  fold (directionAt (m_d s) i) in *.
  set (direction := directionAt (m_d s) i) in *.
  assert (Hcell : Maze.getCell (m_x s) (m_y s) = (m_x s, m_y s))
    by (apply getCell_inGrid; apply Hin).
  rewrite Hcell. unfold Maze.isKnown. cbn [map filter].
  fold direction.
  assert (Hrest : forall j, In j rest -> -1 <= j <= 1)
    by (intros j Hj; apply Hoff; right; exact Hj).
  assert (Hfresh : ~ In direction (map (directionAt (m_d s)) rest)).
  { intros H. apply in_map_iff in H. destruct H as [j [Hj Hjin]].
    apply (directionAt_injective (m_d s) j i Hd (Hrest j Hjin) Hi) in Hj.
    subst j. inversion Hnd. contradiction. }
  destruct (wallKnown (maze s) (m_x s, m_y s) direction) eqn:Hknown;
    cbn [negb]; cbv iota.
  - destruct (IH data s) as [data' [s' [delta [E1 [L1 [T1 [R1 [K1 [N1 [U1 B1]]]]]]]]]].
    + inversion Hnd; assumption.
    + exact Hrest.
    + split; assumption.
    + exists data', s', delta. split; [exact E1|]. split; [exact L1|].
      split; [exact T1|]. split; [exact R1|]. split; [exact K1|].
      split.
      { intros dir [<-|Hdir']; [apply K1; exact Hknown | apply N1; exact Hdir']. }
      split.
      { intros dir Hv Hnot. apply U1; [exact Hv|].
        intros H. apply Hnot. right. exact H. }
      exact B1.
  - destruct (API_ask_spec (sensorFor (m_d s) direction) s)
      as [b [s1 [E1 [_ [M1 [L1 T1]]]]]].
    assert (E1' : readWall direction s = Done b s1).
    { unfold direction, directionAt.
      rewrite (readWall_sensor i s Hd Hi). exact E1. }
    run_bind E1'.
    destruct (setCellWall_spec (m_x s, m_y s) direction b s1 Hdir)
      as [s2 [E2 [M2 L2]]].
    run_bind E2.
    destruct (quiet_setCellWall (m_x s, m_y s) direction b true s1)
      as [tells [T2 Q2]].
    rewrite E2 in T2. simpl in T2.
    assert (L : mouseAndLog s2 = mouseAndLog s) by congruence.
    unfold mouseAndLog in L. inversion L as [[Lx Ly Ld Lm Lh Lhist]].
    assert (Hmaze2 : forall c d,
              wallKnown (maze s2) c d
              = if touched cfg (m_x s, m_y s) direction c d then true
                else wallKnown (maze s) c d).
    { intros c d. rewrite M2, M1. apply setBoth_known. }
    assert (Hfilter :
              filter (fun dir => negb (wallKnown (maze s2) (m_x s2, m_y s2) dir))
                     (map (directionAt (m_d s2)) rest)
              = filter (fun dir => negb (wallKnown (maze s) (m_x s, m_y s) dir))
                       (map (directionAt (m_d s)) rest)).
    { rewrite Lx, Ly, Ld. apply filter_ext_in. intros dir Hdin.
      rewrite Hmaze2, touched_other_side; try assumption; [reflexivity|].
      intros ->. contradiction. }
    destruct (IH (if b
                  then to_byte
                         (Z.lor (to_byte
                                   (Z.lor data (Z.shiftl 1 (direction + 4))))
                                (Z.shiftl 1 direction))
                  else to_byte (Z.lor data (Z.shiftl 1 (direction + 4))))
                s2)
      as [data' [s3 [delta [E3 [L3 [T3 [R3 [K3 [N3 [U3 B3]]]]]]]]]].
    + inversion Hnd; assumption.
    + exact Hrest.
    + unfold poseInv. rewrite Lx, Ly, Ld. split; assumption.
    + rewrite Hfilter in R3, B3. rewrite ?Lx, ?Ly, ?Ld in *.
      exists data', s3,
        (delta ++ tells ++ [Asked (sensorFor (m_d s) direction) b]).
      split; [exact E3|]. split; [congruence|].
      split.
      { rewrite T3, T2, T1, <- !app_assoc. reflexivity. }
      split.
      { rewrite !sensorReads_app, Q2, sensorFor_reads, R3. reflexivity. }
      assert (Hself : wallKnown (maze s2) (m_x s, m_y s) direction = true).
      { rewrite Hmaze2.
        replace (touched cfg (m_x s, m_y s) direction (m_x s, m_y s) direction)
          with true; [reflexivity|].
        symmetry. apply touched_true. left. auto. }
      split.
      { intros c d Hk. apply K3. rewrite Hmaze2, Hk.
        destruct (touched cfg _ _ _ _); reflexivity. }
      split.
      { intros dir [<-|Hdir']; [apply K3; exact Hself | apply N3; exact Hdir']. }
      split.
      { intros dir Hv Hnot. rewrite U3; [|exact Hv|].
        - rewrite Hmaze2, touched_other_side; try assumption; [reflexivity|].
          intros ->. apply Hnot. left. reflexivity.
        - intros H. apply Hnot. right. exact H. }
      intros d0 Hd0. rewrite (B3 d0 Hd0), learned_data by assumption.
      cbn [existsb]. rewrite orb_assoc. reflexivity.
Qed.

Lemma lookedAt_offsets (d : Z) :
  validDirection d ->
  map (fun i => (directionAt d i, sensorFor d (directionAt d i))) (upto (-1) 1)
  = lookedAt d.
Proof.
  intros Hd.
  destruct (validDirection_cases d Hd) as [->|[->|[->| ->]]]; reflexivity.
Qed.

Lemma filter_paired {A : Type} (f g : Z -> A) (P : A -> bool) (h : A -> query)
  (l : list Z) :
  map h (filter P (map f l))
  = map snd (filter (fun p => P (fst p)) (map (fun i => (f i, h (f i))) l))
  /\ filter P (map f l)
     = map fst (filter (fun p => P (fst p)) (map (fun i => (f i, h (f i))) l)).
Proof.
  induction l as [|i l [IH1 IH2]]; [auto|]. simpl.
  destruct (P (f i)); simpl; rewrite ?IH1, <- ?IH2; auto.
Qed.

Lemma existsb_eqb_In (d : Z) (l : list Z) :
  existsb (Z.eqb d) l = true <-> In d l.
Proof.
  rewrite existsb_exists. split.
  - intros [x [Hx H]]. apply Z.eqb_eq in H. subst x. exact Hx.
  - intros H. exists d. split; [exact H | apply Z.eqb_refl].
Qed.

(** C9, amended.  For a mouse on the grid with a valid heading,
    [readWalls] returns and, with [unknown] the walls among left, front
    and right of the heading (in this order) that were not known: it
    reads exactly the sensors of [unknown], in this order, and no other
    (the wall behind is never looked at, a known wall never read);
    these walls are known afterwards; and it appends exactly one entry
    to the log, for the current cell, whose learned directions are
    exactly those of [unknown] - an entry is appended also when nothing
    was learned, with no learned direction then. *)
Theorem readWalls_reads_unknown_walls (s : State) :
  validDirection (m_d s) -> inGrid cfg (m_x s, m_y s) ->
  exists s' delta data,
    let here := Maze.getCell (m_x s) (m_y s) in
    let unknown :=
      filter (fun p => negb (Maze.isKnown (maze s) here (fst p)))
             (lookedAt (m_d s)) in
    readWalls cfg s = Done tt s'
    /\ trace s' = delta ++ trace s
    /\ sensorReads delta = map snd unknown
    /\ (forall p, In p unknown -> Maze.isKnown (maze s') here (fst p) = true)
    /\ History.entries (history s')
       = (here, data) :: History.entries (history s)
    /\ (forall d, validDirection d ->
          (learnedBit data d = true <-> In d (map fst unknown))).
Proof.
  intros Hd Hin. unfold readWalls. rewrite !bind_gets. cbv zeta.
  rewrite (getCell_inGrid (m_x s) (m_y s) (proj1 Hin) (proj2 Hin)).
  destruct (readWallsLoop_reads (upto (-1) 1) 0 s)
    as [data [s1 [delta [E1 [L1 [T1 [R1 [K1 [N1 [U1 B1]]]]]]]]]].
  - repeat constructor; simpl; intuition lia.
  - intros i Hi. apply In_upto in Hi. exact Hi.
  - split; assumption.
  - run_bind E1. unfold modify.
    destruct (filter_paired (directionAt (m_d s)) (directionAt (m_d s))
                (fun dir => negb (wallKnown (maze s) (m_x s, m_y s) dir))
                (sensorFor (m_d s)) (upto (-1) 1)) as [F1 F2].
    rewrite (lookedAt_offsets (m_d s) Hd) in F1, F2.
    assert (Lhist : history s1 = history s)
      by (unfold mouseAndLog in L1; congruence).
    eexists. exists delta, data. split; [reflexivity|].
    cbn [maze trace history set_history History.entries History.add].
    unfold Maze.isKnown.
    split; [exact T1|]. split; [rewrite R1; exact F1|]. split.
    { intros p Hp. apply N1.
      apply (in_map fst) in Hp. rewrite <- F2 in Hp.
      apply filter_In in Hp. apply Hp. }
    split; [rewrite Lhist; reflexivity|].
    intros d Hvd. rewrite (B1 d Hvd), learnedBit_zero by apply Hvd.
    cbn [orb]. rewrite existsb_eqb_In, F2. reflexivity.
Qed.

(** ** Connectivity *)

Lemma not_connected (g : Grid) (inside : cell -> bool) (a b : cell) :
  (forall c d, inside c = true -> validDirection d ->
     hasNeighboringCell cfg c d = true -> Maze.isWall g c d = false ->
     inside (neighbor c d) = true) ->
  inside a = true -> inside b = false -> ~ connected cfg g a b.
Proof.
  intros Hclosed Ha Hb Hconn.
  induction Hconn as [c | c c' d Hd Hn Hw Hrest IH]; [congruence|].
  apply IH; [|exact Hb]. apply (Hclosed c d); assumption.
Qed.

Lemma inGridb_spec (c : cell) : inGridb cfg c = true <-> inGrid cfg c.
Proof.
  unfold inGridb, inGrid, Maze.getX, Maze.getY.
  rewrite !andb_true_iff, !Z.leb_le, !Z.ltb_lt. tauto.
Qed.

Lemma closed_by_check (g : Grid) (inside : cell -> bool) :
  (forall c, inside c = true -> inGridb cfg c = true) ->
  forallb (fun x =>
    forallb (fun y =>
      forallb (fun d =>
        implb (inside (x, y) && hasNeighboringCell cfg (x, y) d
               && negb (Maze.isWall g (x, y) d))
              (inside (neighbor (x, y) d)))
        (below 0 4))
      (below 0 (HEIGHT cfg)))
    (below 0 (WIDTH cfg)) = true ->
  forall c d, inside c = true -> validDirection d ->
    hasNeighboringCell cfg c d = true -> Maze.isWall g c d = false ->
    inside (neighbor c d) = true.
Proof.
  intros Hin Hall [x y] d Hc Hd Hn Hw.
  pose proof (proj1 (inGridb_spec (x, y)) (Hin _ Hc)) as [Hx Hy].
  unfold Maze.getX, Maze.getY in Hx, Hy. simpl in Hx, Hy.
  rewrite forallb_forall in Hall.
  specialize (Hall x (proj2 (In_below 0 (WIDTH cfg) x) Hx)).
  rewrite forallb_forall in Hall.
  specialize (Hall y (proj2 (In_below 0 (HEIGHT cfg) y) Hy)).
  rewrite forallb_forall in Hall.
  specialize (Hall d (proj2 (In_below 0 4 d) Hd)).
  rewrite Hc, Hn, Hw in Hall. exact Hall.
Qed.

(** * Further properties of Algo.cpp *)

(** ** Directions, neighbors and single moves *)

(** X1.  [getOppositeDirection]: for a direction it returns the opposite
    one, which is another direction, and the opposite of that is the
    first one again; for any other value the default branch of the
    switch fails its assertion and the process ends, the state
    untouched. *)
Theorem opposite_direction_round_trip (d : Z) (s : State) :
  (validDirection d ->
     exists d', getOppositeDirection d s = Done d' s
                /\ validDirection d' /\ d' <> d
                /\ getOppositeDirection d' s = Done d s)
  /\ (~ validDirection d -> getOppositeDirection d s = Aborted s).
Proof.
  split.
  - intros Hd. exists (opposite d).
    split; [apply getOppositeDirection_valid; exact Hd|].
    split; [apply opposite_valid; exact Hd|].
    split.
    + destruct (validDirection_cases d Hd) as [->|[->|[->| ->]]];
        vm_compute; discriminate.
    + rewrite (getOppositeDirection_valid (opposite d) s
                 (opposite_valid d Hd)).
      rewrite (opposite_involutive d Hd). reflexivity.
  - intros Hd. unfold getOppositeDirection.
    destruct (d =? 0) eqn:H0; [apply Z.eqb_eq in H0|].
    { exfalso. apply Hd. unfold validDirection. lia. }
    destruct (d =? 1) eqn:H1; [apply Z.eqb_eq in H1|].
    { exfalso. apply Hd. unfold validDirection. lia. }
    destruct (d =? 2) eqn:H2; [apply Z.eqb_eq in H2|].
    { exfalso. apply Hd. unfold validDirection. lia. }
    destruct (d =? 3) eqn:H3; [apply Z.eqb_eq in H3|].
    { exfalso. apply Hd. unfold validDirection. lia. }
    reflexivity.
Qed.

(** X2.  [hasNeighboringCell] and [getNeighboringCell]: a cell of the
    grid has a neighbor in a direction exactly when the cell one step
    that way is on the grid.  Then [getNeighboringCell] returns that
    cell, and asking it for the neighbor in the opposite direction
    leads back; at the edge of the grid [getNeighboringCell] fails its
    assertion. *)
Theorem neighbor_round_trip (c : cell) (d : Z) (s : State) :
  inGrid cfg c -> validDirection d ->
  (hasNeighboringCell cfg c d = true
   <-> inGrid cfg (Maze.getX c + stepX d, Maze.getY c + stepY d))
  /\ (hasNeighboringCell cfg c d = true ->
        exists c',
          getNeighboringCell cfg c d s = Done c' s
          /\ c' = (Maze.getX c + stepX d, Maze.getY c + stepY d)
          /\ c' <> c
          /\ getNeighboringCell cfg c' (opposite d) s = Done c s)
  /\ (hasNeighboringCell cfg c d = false ->
        getNeighboringCell cfg c d s = Aborted s).
Proof.
  intros Hc Hd. split; [|split].
  - destruct c as [x y]. unfold hasNeighboringCell, inGrid, Maze.getX,
      Maze.getY, stepX, stepY in *. simpl fst in *. simpl snd in *.
    destruct (validDirection_cases d Hd) as [->|[->|[->| ->]]]; simpl;
      rewrite Z.ltb_lt; lia.
  - intros Hn. exists (neighbor c d).
    split; [apply getNeighboringCell_has; exact Hn|].
    split; [apply neighbor_plain; assumption|].
    split; [apply neighbor_differs; assumption|].
    rewrite (getNeighboringCell_has (neighbor c d) (opposite d) s
               (hasNeighboringCell_back c d Hc Hd Hn)).
    rewrite (neighbor_back c d Hc Hd Hn). reflexivity.
  - apply getNeighboringCell_none.
Qed.

(** X3.  [isOneCellAway], for a mouse on the grid: the target is one
    cell away exactly when it is the cell one step from the mouse in
    one of the four directions and the mouse knows of no wall on that
    side of its cell.  An unknown wall does not count against the
    move. *)
Theorem one_cell_away_iff_open_step (target : cell) (s : State) :
  inGrid cfg (m_x s, m_y s) ->
  (isOneCellAway target s = true
   <-> exists dir,
         validDirection dir
         /\ target = (m_x s + stepX dir, m_y s + stepY dir)
         /\ Maze.isWall (maze s) (m_x s, m_y s) dir = false).
Proof.
  intros Hin. split.
  - intros H. destruct (isOneCellAway_true target s Hin H)
      as [dir [Hd [Hw Ht]]].
    exists dir. split; [exact Hd|]. split; [exact Ht | exact Hw].
  - intros [dir [Hd [-> Hw]]]. unfold isOneCellAway.
    rewrite (getCell_inGrid (m_x s) (m_y s) (proj1 Hin) (proj2 Hin)).
    unfold Maze.getX, Maze.getY. simpl fst. simpl snd.
    destruct (validDirection_cases dir Hd) as [->|[->|[->| ->]]];
      unfold stepX, stepY; simpl; settle_tests; rewrite Hw; simpl;
      try reflexivity;
      repeat match goal with
             | |- context [if ?b then _ else _] => destruct b
             end; reflexivity.
Qed.


(** Close a case of [moveOneCell] in which it told the turns [turns]. *)
Ltac told_turns turns :=
  exists turns; split; [reflexivity|]; simpl;
  rewrite ?to_byte_small by lia;
  split; [reflexivity|]; split; [reflexivity|];
  split; [rewrite ?Z.add_0_r; reflexivity|];
  split; [auto|];
  split; [split; intros HH; first [reflexivity | discriminate HH]|];
  reflexivity.

(** The turns [moveOneCell] makes before its move: none, one quarter
    turn, or two quarter turns to the left. *)
Lemma moveOneCell_tracks (dir : Z) (s : State) :
  poseInv cfg s -> validDirection dir ->
  0 <= m_x s + stepX dir < 256 -> 0 <= m_y s + stepY dir < 256 ->
  isOneCellAway (m_x s + stepX dir, m_y s + stepY dir) s = true ->
  exists s' turns,
    moveOneCell (m_x s + stepX dir, m_y s + stepY dir) s = Done tt s'
    /\ pose s' = (m_x s + stepX dir, m_y s + stepY dir, dir)
    /\ trace s' = Told MoveForward :: turns ++ trace s
    /\ replay cfg (Told MoveForward :: turns) (pose s) = pose s'
    /\ (turns = [] \/ turns = [Told TurnLeft] \/ turns = [Told TurnRight]
        \/ turns = [Told TurnLeft; Told TurnLeft])
    /\ (dir = m_d s <-> turns = [])
    /\ (m_mode s', maze s', heap s', history s', world s')
       = (m_mode s, maze s, heap s,  history s,
          tell MoveForward (fold_right (fun e w =>
                                          match e with
                                          | Told c => tell c w
                                          | Asked _ _ => w
                                          end) (world s) turns)).
Proof.
  intros [Hd Hin] Hdir Hbx Hby Hone. unfold moveOneCell.
  rewrite bind_gets, Hone. unfold ASSERT_TR.
  unfold bind at 1. unfold ret at 1. rewrite !bind_gets. cbv zeta.
  unfold Maze.getX, Maze.getY. simpl fst. simpl snd.
  unfold moveForward, rightAndForward, aroundAndForward,
    leftAndForward, turnLeftUpdateState, turnRightUpdateState,
    turnAroundUpdateState, moveForwardUpdateState, pose.
  revert Hbx Hby.
  destruct (validDirection_cases _ Hdir) as [->|[->|[->| ->]]];
    destruct (validDirection_cases _ Hd) as [Hmd|[Hmd|[Hmd|Hmd]]];
    unfold stepX, stepY; simpl; rewrite Hmd; simpl; intros Hbx Hby;
    settle_tests; cbv iota;
    unfold bind, modify, API_tell, ret; simpl; rewrite ?Hmd; simpl;
    eexists;
    first [ told_turns (@nil event)
          | told_turns [Told TurnLeft]
          | told_turns [Told TurnRight]
          | told_turns [Told TurnLeft; Told TurnLeft] ].
Qed.


(** X4.  [moveOneCell], for a mouse on the grid with a valid heading
    and a target on the grid.  If the target is not one cell away the
    assertion fails and nothing was told to the boundary.  Otherwise it
    returns with the mouse on the target, heading the way it moved; it
    told the boundary the shortest turn (none when it already headed
    that way, a quarter turn left or right, or two quarter turns left)
    and then exactly one forward move; obeying these commands from the
    old pose leads to the new pose; and the grid, the mode, the queue
    and the log are untouched. *)
Theorem moveOneCell_turns_then_moves (target : cell) (s : State) :
  validDirection (m_d s) -> inGrid cfg (m_x s, m_y s) -> inGrid cfg target ->
  (isOneCellAway target s = false -> moveOneCell target s = Aborted s)
  /\ (isOneCellAway target s = true ->
        exists s' turns,
          moveOneCell target s = Done tt s'
          /\ (m_x s', m_y s') = target
          /\ validDirection (m_d s')
          /\ target = (m_x s + stepX (m_d s'), m_y s + stepY (m_d s'))
          /\ trace s' = Told MoveForward :: turns ++ trace s
          /\ (turns = [] \/ turns = [Told TurnLeft]
              \/ turns = [Told TurnRight]
              \/ turns = [Told TurnLeft; Told TurnLeft])
          /\ (m_d s' = m_d s <-> turns = [])
          /\ replay cfg (Told MoveForward :: turns) (pose s) = pose s'
          /\ (m_mode s', maze s', heap s', history s')
             = (m_mode s, maze s, heap s, history s)).
Proof.
  intros Hd Hin Ht. split; [apply moveOneCell_refused|].
  intros Hone.
  destruct (isOneCellAway_true target s Hin Hone) as [dir [Hdir [_ ->]]].
  assert (Hb : 0 <= m_x s + stepX dir < 256 /\ 0 <= m_y s + stepY dir < 256).
  { destruct Hcfg as [HW [HH _]]. unfold inGrid, Maze.getX, Maze.getY in Ht.
    simpl in Ht. lia. }
  destruct (moveOneCell_tracks dir s (conj Hd Hin) Hdir (proj1 Hb) (proj2 Hb)
              Hone) as [s' [turns [H1 [H2 [H3 [H4 [H5 [H6 H7]]]]]]]].
  unfold pose in H2. inversion H2 as [[Px Py Pd]].
  exists s', turns. rewrite Px, Py, Pd.
  split; [exact H1|]. split; [reflexivity|]. split; [exact Hdir|].
  split; [reflexivity|]. split; [exact H3|]. split; [exact H5|].
  split; [exact H6|]. split; [rewrite H4; unfold pose; congruence|].
  congruence.
Qed.

(** X5.  The heading updates [turnLeftUpdateState],
    [turnRightUpdateState] and [turnAroundUpdateState] are the quarter
    rotations of a valid heading: each leaves a valid heading and
    touches nothing else, left and right undo each other, turning
    around is two quarter turns either way and its own inverse, and four
    right turns come back to the start. *)
Theorem turns_are_quarter_rotations (s : State) :
  validDirection (m_d s) ->
  let left := fun s0 : State => final (turnLeftUpdateState s0) in
  let right := fun s0 : State => final (turnRightUpdateState s0) in
  let around := fun s0 : State => final (turnAroundUpdateState s0) in
  validDirection (m_d (left s)) /\ validDirection (m_d (right s))
  /\ validDirection (m_d (around s))
  /\ m_d (left s) <> m_d s /\ m_d (right s) <> m_d s
  /\ m_d (left s) <> m_d (right s)
  /\ right (left s) = s /\ left (right s) = s
  /\ around s = right (right s) /\ around s = left (left s)
  /\ around (around s) = s
  /\ right (right (right (right s))) = s
  /\ left s = set_pose (m_x s) (m_y s) (m_d (left s)) s
  /\ right s = set_pose (m_x s) (m_y s) (m_d (right s)) s.
Proof.
  intros Hd. destruct s as [x y d mode g h l w t]. simpl in Hd.
  destruct (validDirection_cases d Hd) as [->|[->|[->| ->]]];
    cbv zeta; unfold turnLeftUpdateState, turnRightUpdateState,
      turnAroundUpdateState, modify, set_pose, final, validDirection;
    simpl; repeat split; try lia; try discriminate; reflexivity.
Qed.

(** X6.  Along every run the mouse stays on the grid and keeps a valid
    heading: in every state reached from start-up by steps and resets
    the position is a cell of the grid and the heading is one of the
    four directions. *)
Theorem mouse_stays_on_the_grid (s : State) :
  reachable cfg s ->
  0 <= m_x s < WIDTH cfg /\ 0 <= m_y s < HEIGHT cfg /\ 0 <= m_d s < 4.
Proof.
  intros Hr. destruct (reachable_Inv s Hr) as [[Hd Hin] _].
  unfold inGrid, Maze.getX, Maze.getY in Hin. simpl in Hin.
  unfold validDirection in Hd. tauto.
Qed.


(** ** What each part tells the boundary *)

Lemma emits_still {A : Type} (ok : event -> bool) (m : M A) :
  (forall s, trace (final (m s)) = trace s) -> emits (E:=E) ok m.
Proof. intros H s. exists []. split; [apply H | reflexivity]. Qed.

Lemma emits_ret {A : Type} (ok : event -> bool) (a : A) :
  emits (E:=E) ok (ret a).
Proof. apply emits_still. reflexivity. Qed.

Lemma emits_bind {A C : Type} (ok : event -> bool) (m : M A) (k : A -> M C) :
  emits (E:=E) ok m -> (forall a, emits (E:=E) ok (k a)) -> emits (E:=E) ok (bind m k).
Proof.
  intros Hm Hk s. unfold bind. destruct (Hm s) as [d1 [T1 O1]].
  destruct (m s) as [a s1| s1 | s1]; simpl in *;
    try (exists d1; split; assumption).
  destruct (Hk a s1) as [d2 [T2 O2]].
  exists (d2 ++ d1). split.
  - rewrite T2, T1, app_assoc. reflexivity.
  - rewrite forallb_app, O1, O2. reflexivity.
Qed.

Lemma emits_forM {A : Type} (ok : event -> bool) (l : list A)
  (body : A -> M unit) :
  (forall a, emits (E:=E) ok (body a)) -> emits (E:=E) ok (forM_ l body).
Proof.
  intros H. induction l as [|a l IH]; simpl.
  - apply emits_ret.
  - apply emits_bind; [apply H | intros _; exact IH].
Qed.

Lemma emits_forByte (ok : event -> bool) (hi : Z) (body : Z -> M unit) :
  (forall a, emits (E:=E) ok (body a)) ->
  forall fuel v, emits (E:=E) ok (forByte fuel v hi body).
Proof.
  intros H. induction fuel as [|fuel IH]; intros v; simpl.
  - apply emits_still. reflexivity.
  - destruct (v <=? hi); [|apply emits_ret].
    apply emits_bind; [apply H | intros _; apply IH].
Qed.

Lemma emits_tell (ok : event -> bool) (c : command) :
  ok (Told c) = true -> emits (E:=E) ok (API_tell c).
Proof.
  intros H s. exists [Told c]. split; [reflexivity|]. simpl. rewrite H.
  reflexivity.
Qed.

Lemma emits_ask (ok : event -> bool) (q : query) :
  (forall b, ok (Asked q b) = true) -> emits (E:=E) ok (API_ask q).
Proof.
  intros H s. unfold API_ask. destruct (ask q (world s)) as [b w].
  exists [Asked q b]. split; [reflexivity|]. simpl. rewrite H. reflexivity.
Qed.

Lemma emits_weaken {A : Type} (ok ok' : event -> bool) (m : M A) :
  (forall e, ok e = true -> ok' e = true) -> emits (E:=E) ok m -> emits (E:=E) ok' m.
Proof.
  intros H Hm s. destruct (Hm s) as [delta [T O]]. exists delta.
  split; [exact T|]. rewrite forallb_forall in *. auto.
Qed.

(** One step of a proof about what a piece of code tells the boundary. *)
Ltac emits_step :=
  lazymatch goal with
  | |- emits _ (bind _ _) => apply emits_bind; [| intros ?]
  | |- emits _ (ret _) => apply emits_ret
  | |- emits _ abort => apply emits_still; reflexivity
  | |- emits _ timeout => apply emits_still; reflexivity
  | |- emits _ (gets _) => apply emits_still; reflexivity
  | |- emits _ (ASSERT_TR ?b) => destruct b; apply emits_still; reflexivity
  | |- emits _ (forM_ _ _) => apply emits_forM; intros ?
  | |- emits _ (forByte _ _ _ _) => apply emits_forByte; intros ?
  | |- emits _ (inCenter _ _ _ _) =>
      apply emits_still; intros ?; rewrite inCenter_still; reflexivity
  | |- emits _ (getClosestDestinationCell _ _) =>
      apply emits_still; intros ?;
      rewrite getClosestDestinationCell_still; reflexivity
  | |- emits _ (API_ask _) => apply emits_ask; intros ?; auto
  | |- emits _ (API_tell _) => apply emits_tell; auto
  | |- emits _ (modify _) => apply emits_still; reflexivity
  | |- emits _ (onMaze _) => apply emits_still; reflexivity
  | |- emits _ (if ?b then _ else _) => destruct b
  | |- emits _ (match ?x with _ => _ end) => destruct x
  end.

Ltac emits_auto := repeat (cbv zeta; emits_step).

Section SearchTells.

Context (ok : event -> bool).
Hypothesis Htext : forall x y n, ok (Told (SetText x y n)) = true.

Lemma emits_getOppositeDirection (d : Z) : emits (E:=E) ok (getOppositeDirection d).
Proof. unfold getOppositeDirection. emits_auto. Qed.

Lemma emits_getNeighboringCell (c : cell) (d : Z) :
  emits (E:=E) ok (getNeighboringCell cfg c d).
Proof. unfold getNeighboringCell. emits_auto. Qed.

Lemma emits_setCellDistance (c : cell) (v : Z) :
  emits (E:=E) ok (setCellDistance c v).
Proof. unfold setCellDistance. emits_auto. Qed.

Lemma emits_checkNeighbor (c : cell) (d : Z) :
  emits (E:=E) ok (checkNeighbor cfg c d).
Proof.
  unfold checkNeighbor.
  apply emits_bind; [apply emits_getNeighboringCell | intros nb].
  apply emits_bind; [apply emits_getOppositeDirection | intros od].
  apply emits_bind; [emits_auto | intros g].
  apply emits_bind; [emits_auto | intros edge].
  cbv zeta. destruct (_ || _); [|apply emits_ret].
  apply emits_bind; [apply emits_setCellDistance | intros _].
  emits_auto.
Qed.

Lemma emits_dijkstra (fuel : nat) : emits (E:=E) ok (dijkstra cfg fuel false).
Proof.
  induction fuel as [|fuel IH]; cbn [dijkstra]; [emits_auto|].
  apply emits_bind; [emits_auto | intros h].
  destruct (0 <? Heap.size h); [|apply emits_ret].
  apply emits_bind; [emits_auto | intros g].
  destruct (Heap.pop _ h) as [[c h']|]; [|emits_auto].
  apply emits_bind; [emits_auto | intros _].
  apply emits_bind.
  { apply emits_forM. intros d.
    apply emits_bind; [emits_auto | intros g'].
    destruct (negb _); [apply emits_checkNeighbor | apply emits_ret]. }
  intros _. apply emits_bind; [apply emits_ret | intros _].
  apply emits_bind; [emits_auto | intros closest].
  destruct (cell_eqb c closest); [emits_auto | exact IH].
Qed.

Lemma emits_reverseLoop (fuel : nat) (d : Z) (c : cell) :
  emits (E:=E) ok (reverseLoop cfg fuel d c).
Proof.
  revert d c. induction fuel as [|fuel IH]; intros d c; cbn [reverseLoop];
    [emits_auto|].
  apply emits_bind; [emits_auto | intros g].
  destruct (Maze.hasNext g c); [|apply emits_ret].
  cbv zeta.
  apply emits_bind; [apply emits_getOppositeDirection | intros od].
  apply emits_bind; [emits_auto | intros _].
  apply emits_bind; [apply emits_getNeighboringCell | intros nx].
  apply IH.
Qed.

Lemma emits_reverseLinkedList (fuel : nat) (c : cell) :
  emits (E:=E) ok (reverseLinkedList cfg fuel c).
Proof.
  unfold reverseLinkedList. cbv zeta.
  apply emits_bind; [emits_auto | intros g].
  apply emits_bind; [apply emits_getNeighboringCell | intros cur].
  apply emits_bind; [emits_auto | intros _].
  apply emits_bind; [apply emits_reverseLoop | intros r].
  apply emits_bind; [apply emits_getOppositeDirection | intros od].
  emits_auto.
Qed.

Lemma emits_resetDestinationCellDistances (fuel : nat) :
  emits (E:=E) ok (resetDestinationCellDistances cfg fuel).
Proof.
  unfold resetDestinationCellDistances. cbv zeta.
  apply emits_bind; [emits_auto | intros mode].
  destruct (Mode_eqb mode CENTER).
  - apply emits_forByte. intros x. apply emits_forByte. intros y.
    apply emits_setCellDistance.
  - apply emits_setCellDistance.
Qed.

Lemma emits_generatePath (fuel : nat) (start : cell) :
  emits (E:=E) ok (generatePath cfg fuel start).
Proof.
  unfold generatePath. cbv zeta.
  apply emits_bind; [emits_auto | intros _].
  apply emits_bind; [emits_auto | intros _].
  apply emits_bind; [apply emits_setCellDistance | intros _].
  apply emits_bind; [emits_auto | intros d].
  apply emits_bind; [apply emits_getOppositeDirection | intros od].
  apply emits_bind; [emits_auto | intros _].
  apply emits_bind; [emits_auto | intros _].
  apply emits_bind; [apply emits_resetDestinationCellDistances | intros _].
  apply emits_bind; [emits_auto | intros h].
  apply emits_bind; [emits_auto | intros _].
  apply emits_bind; [emits_auto | intros _].
  apply emits_bind; [apply emits_dijkstra | intros _].
  apply emits_bind; [emits_auto | intros closest].
  apply emits_reverseLinkedList.
Qed.

End SearchTells.

Section DrawTells.

Context (ok : event -> bool).
Hypothesis Hcolor : forall x y c, ok (Told (SetColor x y c)) = true.

Lemma emits_drawLoop (fuel : nat) (i : Z) (c : cell) :
  emits (E:=E) ok (drawLoop cfg fuel i c).
Proof.
  revert c. induction fuel as [|fuel IH]; intros c; cbn [drawLoop];
    [emits_auto|].
  apply emits_bind; [emits_auto | intros g].
  destruct (Maze.hasNext g c); [|apply emits_ret].
  apply emits_bind; [unfold getNeighboringCell; emits_auto | intros nx].
  destruct (i =? 0).
  - destruct (negb _); [apply emits_ret|].
    apply emits_bind; [emits_auto | intros _]. apply IH.
  - apply emits_bind; [emits_auto | intros _]. apply IH.
Qed.

Lemma emits_drawPath (fuel : nat) (start : cell) :
  emits (E:=E) ok (drawPath cfg fuel start).
Proof.
  unfold drawPath.
  apply emits_bind; [apply emits_drawLoop | intros c].
  apply emits_bind; [apply emits_drawLoop | intros c'].
  apply emits_ret.
Qed.

Lemma emits_colorCenter (fuel : nat) (color : ascii) :
  emits (E:=E) ok (colorCenter cfg fuel color).
Proof. unfold colorCenter. emits_auto. Qed.

End DrawTells.


(** ** The search and the drawing leave the mouse and the walls alone *)

Lemma searchBlind_walls_and_mouse :
  searchBlind (fun s : State =>
    (pose s, m_mode s, history s, wallKnown (maze s), wallPresent (maze s))).
Proof.
  intros s s' Hx Hy Hd Hm Hk Hp Hh. unfold pose. congruence.
Qed.

(** X7.  [generatePath], whatever its outcome (it returns, an assertion
    fails, or it is still running when the fuel ends): the mouse has
    not moved or turned, the mode and the log are as before, no wall
    has become known, unknown, present or absent, no sensor and no
    button was read, and all the boundary was told are distance
    labels ([setText]).  The search works on distances, discovered
    flags, pointers and run lengths only. *)
Theorem search_leaves_walls_and_mouse (fuel : nat) (start : cell) (s : State) :
  let s' := final (generatePath cfg fuel start s) in
  pose s' = pose s /\ m_mode s' = m_mode s /\ history s' = history s
  /\ (forall c d, Maze.isKnown (maze s') c d = Maze.isKnown (maze s) c d
                  /\ Maze.isWall (maze s') c d = Maze.isWall (maze s) c d)
  /\ exists delta, trace s' = delta ++ trace s
                   /\ forallb isSetText delta = true.
Proof.
  cbv zeta.
  pose proof (keeps_generatePath _ searchBlind_walls_and_mouse fuel start s)
    as K.
  simpl in K. inversion K as [[Kx Ky Kd Km Kh Kk Kw]].
  split; [unfold pose; congruence|]. split; [congruence|].
  split; [congruence|].
  split.
  - intros c d. unfold Maze.isKnown, Maze.isWall. rewrite Kk, Kw. tauto.
  - apply (emits_generatePath isSetText). reflexivity.
Qed.

Section InwardDraw.

Context {X : Type} (p : State -> X) (Hp : inward p).

Lemma keeps_drawLoop_inward (fuel : nat) (i : Z) (c : cell) :
  keeps p (drawLoop cfg fuel i c).
Proof.
  revert c. induction fuel as [|fuel IH]; intros c; cbn [drawLoop];
    [apply keeps_timeout|].
  apply keeps_bind; [apply keeps_gets | intros g].
  destruct (Maze.hasNext g c); [|apply keeps_ret].
  apply keeps_bind; [unfold getNeighboringCell; keeps_auto | intros nx].
  destruct (i =? 0).
  - destruct (negb _); [apply keeps_ret|].
    apply keeps_bind; [apply keeps_tell; exact Hp | intros _]. apply IH.
  - apply keeps_bind; [apply keeps_tell; exact Hp | intros _]. apply IH.
Qed.

Lemma keeps_drawPath_inward (fuel : nat) (start : cell) :
  keeps p (drawPath cfg fuel start).
Proof.
  unfold drawPath.
  apply keeps_bind; [apply keeps_drawLoop_inward | intros c].
  apply keeps_bind; [apply keeps_drawLoop_inward | intros c'].
  apply keeps_ret.
Qed.

End InwardDraw.

(** X8.  [drawPath] only draws: whatever its outcome, the mouse, the
    mode, the whole grid, the queue and the log are as before, and all
    the boundary was told are cell colors ([setColor]). *)
Theorem drawPath_only_draws (fuel : nat) (start : cell) (s : State) :
  let s' := final (drawPath cfg fuel start s) in
  pose s' = pose s /\ m_mode s' = m_mode s /\ maze s' = maze s
  /\ heap s' = heap s /\ history s' = history s
  /\ exists delta, trace s' = delta ++ trace s
                   /\ forallb isSetColor delta = true.
Proof.
  cbv zeta.
  pose proof (keeps_drawPath_inward
                (fun s0 : State =>
                   (pose s0, m_mode s0, maze s0, heap s0, history s0))
                (fun s0 w t => eq_refl) fuel start s) as K.
  simpl in K. inversion K as [[Kx Ky Kd Km Kg Kq Kh]].
  split; [unfold pose; congruence|]. split; [congruence|].
  split; [congruence|]. split; [congruence|]. split; [congruence|].
  apply (emits_drawPath isSetColor). reflexivity.
Qed.


(** ** The queue is empty between two searches *)

Lemma Done_after {A C : Type} (m : M A) (k : A -> M C) (P : State -> Prop) :
  (forall a s1 c s', k a s1 = Done c s' -> P s') ->
  forall s c s', bind m k s = Done c s' -> P s'.
Proof.
  intros H s c s' Hb. apply bind_Done in Hb.
  destruct Hb as [a [s1 [_ Hk]]]. exact (H a s1 c s' Hk).
Qed.

Lemma Done_keeps {X A : Type} (p : State -> X) (m : M A) (s s' : State)
  (a : A) :
  keeps p m -> m s = Done a s' -> p s' = p s.
Proof. intros K H. specialize (K s). rewrite H in K. exact K. Qed.

Lemma dijkstra_drains (fuel : nat) (cv : bool) (s s' : State) :
  dijkstra cfg fuel cv s = Done tt s' -> heap s' = [].
Proof.
  revert s s'. induction fuel as [|fuel IH]; intros s s' H;
    cbn [dijkstra] in H; [discriminate|].
  rewrite bind_gets in H.
  destruct (0 <? Heap.size (heap s)) eqn:Hsize.
  - rewrite bind_gets in H.
    destruct (Heap.pop _ (heap s)) as [[c h']|]; [|discriminate].
    revert H. apply (Done_after _ _ (fun s0 : State => heap s0 = [])). intros _ s1 [] s1'.
    apply (Done_after _ _ (fun s0 : State => heap s0 = [])). intros _ s2 [] s2'.
    apply (Done_after _ _ (fun s0 : State => heap s0 = [])). intros _ s3 [] s3'.
    apply (Done_after _ _ (fun s0 : State => heap s0 = [])).
    intros closest s4 [] s4'.
    destruct (cell_eqb c closest).
    + intros H. inversion H. reflexivity.
    + apply IH.
  - inversion H; subst s'. apply Z.ltb_ge in Hsize. unfold Heap.size in Hsize.
    destruct (heap s); [reflexivity | simpl in Hsize; lia].
Qed.

Lemma keeps_heap_reverseLoop (fuel : nat) (d : Z) (c : cell) :
  keeps (@heap E) (reverseLoop cfg fuel d c).
Proof.
  revert d c. induction fuel as [|fuel IH]; intros d c; cbn [reverseLoop];
    [apply keeps_timeout|].
  unfold getOppositeDirection, getNeighboringCell. keeps_auto; apply IH.
Qed.

Lemma keeps_heap_reverseLinkedList (fuel : nat) (c : cell) :
  keeps (@heap E) (reverseLinkedList cfg fuel c).
Proof.
  unfold reverseLinkedList. cbv zeta.
  apply keeps_bind; [apply keeps_gets | intros g].
  apply keeps_bind; [unfold getNeighboringCell; keeps_auto | intros cur].
  apply keeps_bind; [keeps_auto | intros _].
  apply keeps_bind; [apply keeps_heap_reverseLoop | intros r].
  unfold getOppositeDirection. keeps_auto.
Qed.

Lemma generatePath_drains (fuel : nat) (start c : cell) (s s' : State) :
  generatePath cfg fuel start s = Done c s' -> heap s' = [].
Proof.
  unfold generatePath. cbv zeta. revert s c s'.
  apply (Done_after _ _ (fun s0 : State => heap s0 = [])). intros _ s1 c s'.
  apply (Done_after _ _ (fun s0 : State => heap s0 = [])). intros _ s2 c2 s2'.
  apply (Done_after _ _ (fun s0 : State => heap s0 = [])). intros _ s3 c3 s3'.
  apply (Done_after _ _ (fun s0 : State => heap s0 = [])). intros d s4 c4 s4'.
  apply (Done_after _ _ (fun s0 : State => heap s0 = [])). intros od s5 c5 s5'.
  apply (Done_after _ _ (fun s0 : State => heap s0 = [])). intros _ s6 c6 s6'.
  apply (Done_after _ _ (fun s0 : State => heap s0 = [])). intros _ s7 c7 s7'.
  apply (Done_after _ _ (fun s0 : State => heap s0 = [])). intros _ s8 c8 s8'.
  apply (Done_after _ _ (fun s0 : State => heap s0 = [])). intros h s9 c9 s9'.
  apply (Done_after _ _ (fun s0 : State => heap s0 = [])). intros _ s10 c10 s10'.
  apply (Done_after _ _ (fun s0 : State => heap s0 = [])). intros _ s11 c11 s11'.
  intros H. apply bind_Done in H. destruct H as [[] [s12 [Hd H]]].
  apply bind_Done in H. destruct H as [closest [s13 [Hc H]]].
  rewrite (Done_keeps _ _ _ _ _ (keeps_heap_reverseLinkedList fuel _) H).
  rewrite (Done_keeps _ _ _ _ _
             (keeps_getClosestDestinationCell (@heap E) fuel) Hc).
  exact (dijkstra_drains fuel _ _ _ Hd).
Qed.

Lemma moveBlind_heap : moveBlind (@heap E).
Proof. intros s s' _ _ H _. exact H. Qed.

Lemma step_drains (fuel : nat) (s s' : State) :
  step cfg fuel s = Done tt s' -> heap s' = [].
Proof.
  unfold step. revert s s'.
  intros s s' H. revert H. apply (Done_after _ _ (fun s0 : State => heap s0 = [])). intros _ s1 [] s1'.
  rewrite !bind_gets. cbv zeta.
  intros H. apply bind_Done in H. destruct H as [start [s2 [Hg H]]].
  apply generatePath_drains in Hg. rewrite <- Hg.
  destruct (negb _).
  - inversion H. reflexivity.
  - refine (Done_keeps (@heap E) _ _ _ _ _ H).
    apply keeps_bind; [apply keeps_drawPath_inward; intros ? ? ?; reflexivity
                      | intros _].
    apply keeps_bind; [apply keeps_followPath; exact moveBlind_heap
                      | intros _].
    apply keeps_goalCheck. reflexivity.
Qed.

Lemma keeps_heap_rollBack (fuel : nat) : keeps (@heap E) (rollBack cfg fuel).
Proof.
  induction fuel as [|fuel IH]; cbn [rollBack]; [apply keeps_timeout|].
  apply keeps_bind; [apply keeps_gets | intros h].
  destruct (0 <? History.size h); [|apply keeps_ret].
  destruct (History.pop h) as [[e h']|]; [|apply keeps_abort].
  apply keeps_bind; [keeps_auto | intros _].
  apply keeps_bind; [|intros _; exact IH].
  unfold unsetCellWall, unsetCellWallSide, getNeighboringCell,
    getOppositeDirection. keeps_auto.
Qed.

Lemma keeps_heap_reset : keeps (@heap E) (reset cfg).
Proof.
  unfold reset, acknowledgeResetButtonPressed.
  apply keeps_bind; [keeps_auto | intros _].
  apply keeps_bind; [keeps_auto | intros _].
  apply keeps_bind; [keeps_auto | intros _].
  apply keeps_bind; [keeps_auto | intros _].
  apply keeps_bind; [keeps_auto | intros h].
  apply keeps_heap_rollBack.
Qed.

(** X9.  The queue is empty in every state a run reaches: start-up
    leaves it empty, the loop of Dijkstra's algorithm ends only on an
    empty queue or by clearing it, and nothing else in a step or in
    [reset] touches it.  So the assertion [ASSERT_EQ(Heap::size(), 0)]
    that opens the search in [generatePath] holds at every step of a
    run. *)
Theorem queue_is_empty_between_steps (s : State) :
  reachable cfg s -> heap s = [] /\ Heap.size (heap s) = 0.
Proof.
  intros Hr. assert (H : heap s = []); [|rewrite H; split; reflexivity].
  induction Hr as [w s Hs | fuel s s' Hr IH Hs | s s' Hr IH Hs
                  | q s Hr IH | c s Hr IH].
  - destruct (startUp_spec w) as [s1 [E1 [L1 _]]].
    rewrite Hs in E1. inversion E1; subst s1.
    unfold mouseAndLog in L1. inversion L1. reflexivity.
  - exact (step_drains fuel s s' Hs).
  - rewrite (Done_keeps _ _ _ _ _ keeps_heap_reset Hs). exact IH.
  - rewrite <- IH. apply (keeps_ask (@heap E) q). intros ? ? ?. reflexivity.
  - rewrite <- IH. apply (keeps_tell (@heap E) c). intros ? ? ?. reflexivity.
Qed.


(** ** The pose the navigator keeps, and the commands it gives *)

Lemma replay_app (t1 t2 : list event) (p : Z * Z * Z) :
  replay cfg (t1 ++ t2) p = replay cfg t1 (replay cfg t2 p).
Proof.
  induction t1 as [|[q b|c] t1 IH]; simpl; [reflexivity | exact IH |].
  rewrite IH. reflexivity.
Qed.

Lemma replay_still (delta : list event) (p : Z * Z * Z) :
  forallb (fun e => negb (isMotion e)) delta = true ->
  replay cfg delta p = p.
Proof.
  induction delta as [|[q b|c] delta IH]; simpl; intros H;
    [reflexivity | exact (IH H) |].
  apply andb_true_iff in H. destruct H as [Hc H]. rewrite (IH H).
  destruct p as [[x y] d].
  destruct c; simpl in *; try discriminate; reflexivity.
Qed.

Lemma tracked_still {A : Type} (m : M A) (s : State) :
  keeps (@pose E) m -> emits (fun e => negb (isMotion e)) m ->
  tracked cfg s -> tracked cfg (final (m s)).
Proof.
  unfold tracked. intros K Em T. destruct (Em s) as [delta [Ht Ho]].
  rewrite (K s), Ht, replay_app, <- T, (replay_still delta _ Ho).
  reflexivity.
Qed.

Lemma tracked_bind {A C : Type} (m : M A) (k : A -> M C) (s : State) :
  tracked cfg (final (m s)) ->
  (forall a s1, m s = Done a s1 -> tracked cfg (final (k a s1))) ->
  tracked cfg (final (bind m k s)).
Proof.
  intros Hm Hk. unfold bind. destruct (m s) as [a s1| s1 | s1]; simpl in *;
    [apply Hk; reflexivity | exact Hm | exact Hm].
Qed.

Lemma tracked_view (s s' : State) :
  pose s' = pose s -> trace s' = trace s -> tracked cfg s -> tracked cfg s'.
Proof. unfold tracked. intros -> ->. auto. Qed.

Lemma searchBlind_pose : searchBlind (@pose E).
Proof. intros s s' Hx Hy Hd _ _ _ _. unfold pose. congruence. Qed.

Lemma senseBlind_pose_kept : senseBlind (@pose E).
Proof. intros s s' Hx Hy Hd _. unfold pose. congruence. Qed.

Lemma bind_tell {C : Type} (c : command) (k : unit -> M C) (s : State) :
  bind (API_tell c) k s
  = k tt (mkState (m_x s) (m_y s) (m_d s) (m_mode s) (maze s) (heap s)
                  (history s) (tell c (world s)) (Told c :: trace s)).
Proof. reflexivity. Qed.

Section QuietTells.

Context (ok : event -> bool).
Hypothesis Hquiet : forall e, isMotion e = false -> ok e = true.

Lemma emits_setCellWall (c : cell) (d : Z) (w b : bool) :
  emits (E:=E) ok (setCellWall cfg c d w b).
Proof.
  unfold setCellWall, setCellWallSide, getNeighboringCell,
    getOppositeDirection. emits_auto.
Qed.

Lemma emits_unsetCellWall (c : cell) (d : Z) (b : bool) :
  emits (E:=E) ok (unsetCellWall cfg c d b).
Proof.
  unfold unsetCellWall, unsetCellWallSide, getNeighboringCell,
    getOppositeDirection. emits_auto.
Qed.

Lemma emits_readWall (d : Z) : emits (E:=E) ok (readWall d).
Proof. unfold readWall. emits_auto. Qed.

Lemma emits_readWallsLoop (offsets : list Z) (data : Z) :
  emits (E:=E) ok (readWallsLoop cfg offsets data).
Proof.
  revert data. induction offsets as [|i rest IH]; intros data;
    cbn [readWallsLoop]; [apply emits_ret|].
  emits_auto;
    first [apply emits_readWall | apply emits_setCellWall | apply IH].
Qed.

Lemma emits_readWalls : emits (E:=E) ok (readWalls cfg).
Proof.
  unfold readWalls. emits_auto. apply emits_readWallsLoop.
Qed.

Lemma emits_rollBack (fuel : nat) : emits (E:=E) ok (rollBack cfg fuel).
Proof.
  induction fuel as [|fuel IH]; cbn [rollBack]; [emits_auto|].
  apply emits_bind; [emits_auto | intros h].
  destruct (0 <? History.size h); [|apply emits_ret].
  destruct (History.pop h) as [[e h']|]; [|emits_auto].
  apply emits_bind; [emits_auto | intros _].
  apply emits_bind; [|intros _; exact IH].
  cbv zeta. apply emits_forM. intros d.
  destruct (negb _); [apply emits_unsetCellWall | apply emits_ret].
Qed.

Lemma emits_startUp : emits (E:=E) ok (startUp cfg).
Proof.
  unfold startUp, initPerimeter, initCell, initMouse.
  emits_auto; apply emits_setCellWall.
Qed.

End QuietTells.

Lemma quiet_event_text (x y n : Z) :
  negb (isMotion (Told (SetText x y n))) = true.
Proof. reflexivity. Qed.

Lemma quiet_event_color (x y : Z) (c : ascii) :
  negb (isMotion (Told (SetColor x y c))) = true.
Proof. reflexivity. Qed.

Lemma quiet_event (e : event) :
  isMotion e = false -> negb (isMotion e) = true.
Proof. intros ->. reflexivity. Qed.

Lemma keeps_pose_rollBack (fuel : nat) : keeps (@pose E) (rollBack cfg fuel).
Proof.
  induction fuel as [|fuel IH]; cbn [rollBack]; [apply keeps_timeout|].
  apply keeps_bind; [apply keeps_gets | intros h].
  destruct (0 <? History.size h); [|apply keeps_ret].
  destruct (History.pop h) as [[e h']|]; [|apply keeps_abort].
  apply keeps_bind; [keeps_auto | intros _].
  apply keeps_bind; [|intros _; exact IH].
  unfold unsetCellWall, unsetCellWallSide, getNeighboringCell,
    getOppositeDirection. keeps_auto.
Qed.

(** [reset] acknowledges the button and takes the origin pose: whatever
    came before, the pose is tracked afterwards. *)
Lemma reset_tracked (s : State) : tracked cfg (final (reset cfg s)).
Proof.
  unfold reset, acknowledgeResetButtonPressed, onMaze.
  rewrite bind_tell, !bind_modify, bind_gets.
  apply tracked_still.
  - apply keeps_pose_rollBack.
  - apply emits_rollBack. apply quiet_event.
  - unfold tracked, pose. simpl.
    destruct (replay cfg (trace s) (0, 0, 0)) as [[x y] d]. reflexivity.
Qed.


(** What [followPath] did, in full: the chain of cells it moved
    through, every edge of it known to be open, and the commands it
    gave, which lead from the old pose to the new one. *)
Lemma followLoop_run (fuel : nat) (start : cell) (s : State) :
  poseInv cfg s -> start = (m_x s, m_y s) ->
  exists hops delta,
    openChain cfg (maze s) start hops
    /\ trace (final (followLoop cfg fuel start s)) = delta ++ trace s
    /\ forwardMoves delta = length hops
    /\ (m_x (final (followLoop cfg fuel start s)),
        m_y (final (followLoop cfg fuel start s))) = last hops start
    /\ pose (final (followLoop cfg fuel start s)) = replay cfg delta (pose s)
    /\ poseInv cfg (final (followLoop cfg fuel start s)).
Proof.
  assert (Hnone : forall (s0 : State) (st : cell) (o : outcome unit),
            poseInv cfg s0 -> st = (m_x s0, m_y s0) -> final o = s0 ->
            exists hops delta,
              openChain cfg (maze s0) st hops
              /\ trace (final o) = delta ++ trace s0
              /\ forwardMoves delta = length hops
              /\ (m_x (final o), m_y (final o)) = last hops st
              /\ pose (final o) = replay cfg delta (pose s0)
              /\ poseInv cfg (final o)).
  { intros s0 st o Hp Hst Ho. exists [], []. rewrite Ho.
    split; [apply oc_stop|]. split; [reflexivity|]. split; [reflexivity|].
    split; [simpl; congruence|]. split; [reflexivity | exact Hp]. }
  revert start s. induction fuel as [|fuel IH]; intros start s Hpose Hstart.
  { apply Hnone; auto. }
  cbn [followLoop]. rewrite bind_gets.
  destruct (Maze.hasNext (maze s) start
            && Maze.isKnown (maze s) start
                 (Maze.getNextDirection (maze s) start)) eqn:Hcond.
  2:{ apply Hnone; auto. }
  apply andb_true_iff in Hcond. destruct Hcond as [Hnext Hknown].
  set (nd := Maze.getNextDirection (maze s) start) in *.
  destruct (hasNeighboringCell cfg start nd) eqn:Hn.
  2:{ rewrite (bind_Aborted _ _ _ _ (getNeighboringCell_none start nd s Hn)).
      apply Hnone; auto. }
  run_bind (getNeighboringCell_has start nd s Hn).
  assert (Hin : inGrid cfg start) by (subst start; apply Hpose).
  assert (Hnd : validDirection nd) by (apply (hasNeighboringCell_valid _ _ Hn)).
  pose proof (neighbor_inGrid start nd Hin Hnd Hn) as Hnin.
  pose proof (neighbor_plain start nd Hin Hnd Hn) as Hplain.
  destruct (isOneCellAway (neighbor start nd) s) eqn:Hone.
  2:{ rewrite (bind_Aborted _ _ _ _
                 (moveOneCell_refused (neighbor start nd) s Hone)).
      apply Hnone; auto. }
  destruct (isOneCellAway_true (neighbor start nd) s (proj2 Hpose) Hone)
    as [dir [Hdir [Hwall Htarget]]].
  assert (Hsame : dir = nd).
  { rewrite Hplain in Htarget. subst start.
    unfold Maze.getX, Maze.getY in Htarget. cbn [fst snd] in Htarget.
    injection Htarget as Hx Hy.
    apply step_injective; try assumption; lia. }
  subst dir.
  assert (Hbx : 0 <= m_x s + stepX nd < 256 /\ 0 <= m_y s + stepY nd < 256).
  { rewrite Htarget in Hnin. unfold inGrid, Maze.getX, Maze.getY in Hnin.
    simpl in Hnin. destruct Hcfg as [HW [HH _]]. lia. }
  rewrite Htarget in Hone.
  destruct (moveOneCell_tracks nd s Hpose Hnd (proj1 Hbx) (proj2 Hbx) Hone)
    as [s1 [turns [E1 [P1 [T1 [R1 [Hturns [_ F1]]]]]]]].
  rewrite Htarget. run_bind E1. rewrite bind_modify.
  set (s2 := set_history (History.move (history s1)) s1).
  destruct (API_ask_spec WasReset s2) as [b [s3 [E3 [_ [Z3 [L3 T3]]]]]].
  unfold resetButtonPressed. run_bind E3.
  unfold mouseAndLog in L3. simpl in L3. unfold pose in P1.
  assert (Lx : m_x s3 = m_x s1) by congruence.
  assert (Ly : m_y s3 = m_y s1) by congruence.
  assert (Ld : m_d s3 = m_d s1) by congruence.
  assert (Mx : m_x s1 = m_x s + stepX nd) by congruence.
  assert (My : m_y s1 = m_y s + stepY nd) by congruence.
  assert (Md : m_d s1 = nd) by congruence.
  assert (Fg : maze s1 = maze s) by congruence.
  assert (Hpose3 : poseInv cfg s3).
  { unfold poseInv. rewrite Lx, Ly, Ld, Mx, My, Md.
    split; [exact Hnd|]. rewrite <- Htarget. exact Hnin. }
  assert (Hmaze3 : maze s3 = maze s) by (rewrite Z3; simpl; exact Fg).
  assert (Htrace3 : trace s3
                    = (Asked WasReset b :: Told MoveForward :: turns)
                      ++ trace s).
  { rewrite T3. simpl. rewrite T1. reflexivity. }
  assert (Hp3 : pose s3
                = replay cfg (Asked WasReset b :: Told MoveForward :: turns)
                    (pose s)).
  { cbn [replay]. change (afterCommand cfg MoveForward
                            (replay cfg turns (pose s)))
      with (replay cfg (Told MoveForward :: turns) (pose s)).
    rewrite R1. unfold pose. congruence. }
  assert (Hmoves : forwardMoves (Asked WasReset b :: Told MoveForward :: turns)
                   = 1%nat).
  { destruct Hturns as [->|[->|[->| ->]]]; reflexivity. }
  assert (Hopen : Maze.isWall (maze s) start nd = false)
    by (subst start; exact Hwall).
  destruct b.
  - exists [(m_x s + stepX nd, m_y s + stepY nd)],
           (Asked WasReset true :: Told MoveForward :: turns).
    simpl final.
    split.
    { rewrite <- Htarget. apply oc_hop; try assumption. apply oc_stop. }
    split; [exact Htrace3|]. split; [exact Hmoves|].
    split; [simpl; rewrite Lx, Ly, Mx, My; reflexivity|].
    split; [exact Hp3 | exact Hpose3].
  - destruct (IH (m_x s + stepX nd, m_y s + stepY nd) s3 Hpose3)
      as [hops [delta [G1 [G2 [G3 [G4 [G5 G6]]]]]]].
    { rewrite Lx, Ly, Mx, My. reflexivity. }
    exists ((m_x s + stepX nd, m_y s + stepY nd) :: hops),
           (delta ++ Asked WasReset false :: Told MoveForward :: turns).
    split.
    { rewrite <- Htarget. apply oc_hop; try assumption.
      rewrite Hmaze3, <- Htarget in G1. exact G1. }
    split; [rewrite G2, Htrace3, <- app_assoc; reflexivity|].
    split; [rewrite forwardMoves_app, Hmoves, G3; simpl; lia|].
    split; [rewrite G4, last_cons; reflexivity|].
    split; [rewrite G5, Hp3, replay_app; reflexivity | exact G6].
Qed.

(** X10.  [followPath], called for the cell the mouse stands on, never
    drives across a wall it knows of: whatever its outcome, the cells it
    moved through form a chain of planned pointers in which every edge
    is known and known to be open, the forward moves told to the
    boundary are as many as these cells, the mouse believes itself on
    the last of them, still on the grid with a valid heading, and
    obeying the commands given leads from the old pose to the new one. *)
Theorem followPath_crosses_only_open_edges (fuel : nat) (s : State) :
  validDirection (m_d s) -> inGrid cfg (m_x s, m_y s) ->
  let start := Maze.getCell (m_x s) (m_y s) in
  let s' := final (followPath cfg fuel start s) in
  exists hops delta,
    openChain cfg (maze s) start hops
    /\ trace s' = delta ++ trace s
    /\ forwardMoves delta = length hops
    /\ (m_x s', m_y s') = last hops start
    /\ pose s' = replay cfg delta (pose s)
    /\ inGrid cfg (m_x s', m_y s') /\ validDirection (m_d s').
Proof.
  intros Hd Hin. cbv zeta.
  rewrite (getCell_inGrid (m_x s) (m_y s) (proj1 Hin) (proj2 Hin)).
  destruct (followLoop_run fuel (m_x s, m_y s) s (conj Hd Hin) eq_refl)
    as [hops [delta [F1 [F2 [F3 [F4 [F5 [F6 F7]]]]]]]].
  exists hops, delta. unfold followPath. tauto.
Qed.

Lemma goalCheck_tracked (fuel : nat) (s : State) :
  tracked cfg s -> tracked cfg (final (goalCheck cfg fuel s)).
Proof.
  apply tracked_still.
  - apply keeps_goalCheck. reflexivity.
  - apply emits_still. intros s0.
    apply (keeps_goalCheck (@trace E) fuel). reflexivity.
Qed.

Lemma step_tracked (fuel : nat) (s : State) :
  Inv cfg s -> tracked cfg s -> tracked cfg (final (step cfg fuel s)).
Proof.
  intros HI HT. unfold step.
  destruct (readWalls_Inv s HI) as [s1 [E1 [I1 _]]].
  assert (T1 : tracked cfg s1).
  { pose proof (tracked_still (readWalls cfg) s
                  (keeps_readWalls _ senseBlind_pose_kept)
                  (emits_readWalls _ quiet_event) HT) as K.
    rewrite E1 in K. exact K. }
  run_bind E1. rewrite !bind_gets. cbv zeta.
  set (cur := Maze.getCell (m_x s1) (m_y s1)).
  apply tracked_bind.
  { apply tracked_still; [apply keeps_generatePath; exact searchBlind_pose
                         | apply emits_generatePath; reflexivity
                         | exact T1]. }
  intros start s4 H4.
  assert (T4 : tracked cfg s4).
  { pose proof (tracked_still (generatePath cfg fuel cur) s1
                  (keeps_generatePath _ searchBlind_pose fuel cur)
                  (emits_generatePath _ quiet_event_text fuel cur) T1) as K.
    rewrite H4 in K. exact K. }
  assert (V4 : invView s4 = invView s1).
  { pose proof (keeps_generatePath _ searchBlind_invView fuel cur s1) as K.
    rewrite H4 in K. exact K. }
  destruct (cell_eqb start cur) eqn:Hstart; cbn [negb].
  2:{ simpl. revert T4. apply tracked_view; reflexivity. }
  apply cell_eqb_eq in Hstart.
  apply tracked_bind.
  { apply tracked_still; [apply keeps_drawPath; exact searchBlind_pose
                         | apply emits_drawPath; reflexivity
                         | exact T4]. }
  intros [] s5 H5.
  assert (T5 : tracked cfg s5).
  { pose proof (tracked_still (drawPath cfg fuel start) s4
                  (keeps_drawPath _ searchBlind_pose fuel start)
                  (emits_drawPath _ quiet_event_color fuel start) T4) as K.
    rewrite H5 in K. exact K. }
  assert (V5 : invView s5 = invView s4).
  { pose proof (keeps_drawPath _ searchBlind_invView fuel start s4) as K.
    rewrite H5 in K. exact K. }
  assert (I5 : Inv cfg s5).
  { apply (Inv_view s4); [exact V5|]. apply (Inv_view s1); assumption. }
  assert (Hs5 : start = (m_x s5, m_y s5)).
  { unfold invView in V5, V4. inversion V5 as [[Vx Vy Vd Vk Vp Ve]].
    inversion V4 as [[Wx Wy Wd Wk Wp We]].
    rewrite Vx, Vy, Wx, Wy, Hstart. unfold cur.
    apply getCell_inGrid; apply I1. }
  destruct (followLoop_run fuel start s5 (proj1 I5) Hs5)
    as [hops [delta [_ [F2 [_ [_ [F5 _]]]]]]].
  assert (T6 : tracked cfg (final (followPath cfg fuel start s5))).
  { unfold followPath, tracked. rewrite F5, F2, replay_app, <- T5.
    reflexivity. }
  apply tracked_bind; [exact T6|].
  intros [] s6 H6. rewrite H6 in T6. simpl in T6.
  apply goalCheck_tracked. exact T6.
Qed.

Lemma inward_invView : inward (@invView E).
Proof. intros s w t. reflexivity. Qed.

Lemma solveLoop_tracked (fuel rounds : nat) (s : State) :
  Inv cfg s -> tracked cfg s ->
  tracked cfg (final (solveLoop cfg rounds fuel s)).
Proof.
  revert s. induction rounds as [|rounds IH]; intros s HI HT;
    cbn [solveLoop]; [exact HT|].
  rewrite !bind_tell.
  match goal with
  | |- tracked cfg (final (bind _ _ ?s0)) => set (s2 := s0)
  end.
  assert (I2 : Inv cfg s2) by (apply (Inv_view s); [reflexivity | exact HI]).
  assert (T2 : tracked cfg s2).
  { unfold tracked, pose, s2. simpl.
    destruct (replay cfg (trace s) (0, 0, 0)) as [[x y] d] eqn:R.
    unfold tracked, pose in HT. rewrite R in HT. exact HT. }
  apply tracked_bind.
  { apply tracked_still; [unfold colorCenter; keeps_auto
                         | apply emits_colorCenter; reflexivity
                         | exact T2]. }
  intros [] s3 H3.
  assert (T3 : tracked cfg s3).
  { pose proof (tracked_still (colorCenter cfg fuel "G"%char) s2) as K.
    rewrite H3 in K. apply K;
      [unfold colorCenter; keeps_auto
      | apply emits_colorCenter; reflexivity | exact T2]. }
  assert (I3 : Inv cfg s3).
  { apply (Inv_view s2); [|exact I2].
    assert (K : keeps (@invView E) (colorCenter cfg fuel "G"%char))
      by (unfold colorCenter; keeps_auto).
    specialize (K s2). rewrite H3 in K. exact K. }
  destruct (API_ask_spec WasReset s3) as [b [s4 [E4 [_ [Z4 [L4 T4']]]]]].
  unfold resetButtonPressed. run_bind E4.
  assert (I4 : Inv cfg s4).
  { apply (Inv_view s3); [|exact I3].
    pose proof (keeps_ask (@invView E) WasReset inward_invView s3) as K.
    rewrite E4 in K. exact K. }
  assert (T4 : tracked cfg s4).
  { unfold mouseAndLog in L4. inversion L4 as [[Lx Ly Ld Lm Lh Lhist]].
    unfold tracked, pose. rewrite T4', Lx, Ly, Ld. exact T3. }
  assert (Hnext : forall s5, Inv cfg s5 -> tracked cfg s5 ->
            tracked cfg (final (bind (step cfg fuel) (fun _ =>
              bind (gets m_mode) (fun mode =>
                if Mode_eqb mode GIVEUP then ret tt
                else solveLoop cfg rounds fuel)) s5))).
  { intros s5 I5 T5. apply tracked_bind; [apply step_tracked; assumption|].
    intros [] s6 H6. rewrite bind_gets.
    pose proof (step_tracked fuel s5 I5 T5) as T6. rewrite H6 in T6.
    destruct (Mode_eqb (m_mode s6) GIVEUP); [exact T6|].
    apply IH; [exact (step_Inv fuel s5 s6 I5 H6) | exact T6]. }
  destruct b.
  - destruct (reset_spec s4 I4) as [s5 [E5 _]].
    run_bind E5. apply Hnext.
    + exact (reset_Inv s4 s5 I4 E5).
    + pose proof (reset_tracked s4) as K. rewrite E5 in K. exact K.
  - rewrite bind_ret. apply Hnext; assumption.
Qed.



(** ** The run loop, the sensors and single walls *)

Lemma solveLoop_returns_on_giveup (fuel rounds : nat) (s s' : State) :
  solveLoop cfg rounds fuel s = Done tt s' -> m_mode s' = GIVEUP.
Proof.
  revert s s'. induction rounds as [|rounds IH]; intros s s';
    cbn [solveLoop]; [discriminate|].
  apply (Done_after _ _ (fun s0 : State => m_mode s0 = GIVEUP)).
  intros _ s1 [] s1'.
  apply (Done_after _ _ (fun s0 : State => m_mode s0 = GIVEUP)).
  intros _ s2 [] s2'.
  apply (Done_after _ _ (fun s0 : State => m_mode s0 = GIVEUP)).
  intros _ s3 [] s3'.
  apply (Done_after _ _ (fun s0 : State => m_mode s0 = GIVEUP)).
  intros pressed s4 [] s4'.
  apply (Done_after _ _ (fun s0 : State => m_mode s0 = GIVEUP)).
  intros _ s5 [] s5'.
  apply (Done_after _ _ (fun s0 : State => m_mode s0 = GIVEUP)).
  intros _ s6 [] s6'. rewrite bind_gets.
  destruct (m_mode s6) eqn:Hm; cbn [Mode_eqb]; try apply IH.
  intros H. inversion H; subst s6'. exact Hm.
Qed.

(** ** The goal check *)

Lemma centerOnGrid_fits : centerOnGrid cfg -> centerFitsBytes cfg.
Proof.
  destruct Hcfg as [Hw [Hh _]]. unfold centerOnGrid, centerFitsBytes. lia.
Qed.

Lemma goalCheck_mode (fuel : nat) (s s' : State) :
  centerFitsBytes cfg -> inCenterRegion cfg 0 0 = false ->
  goalCheck cfg fuel s = Done tt s' ->
  m_mode s' = modeAfterGoalCheck cfg (m_mode s) (m_x s) (m_y s)
  /\ m_x s' = m_x s /\ m_y s' = m_y s.
Proof.
  intros Hc Ho H.
  pose proof (keeps_goalCheck (fun s0 : State => (m_x s0, m_y s0)) fuel
                (fun _ _ => eq_refl) s) as K.
  rewrite H in K. simpl in K.
  split; [|split; congruence]. clear K.
  unfold goalCheck in H. rewrite !bind_gets in H.
  apply bind_Done in H. destruct H as [[] [s1 [H1 H]]].
  rewrite bind_gets in H. unfold modeAfterGoalCheck.
  destruct (m_mode s) eqn:Hm; cbn [Mode_eqb] in H1.
  - apply bind_Done in H1. destruct H1 as [inside [s0 [Hin H1]]].
    destruct (inCenter_answer fuel _ _ s s0 inside Hc Hin) as [-> ->].
    destruct (inCenterRegion cfg (m_x s) (m_y s)) eqn:Hreg.
    + assert (s1 = set_mode ORIGIN s) by (inversion H1; reflexivity).
      subst s1. simpl in H.
      destruct (inOrigin (m_x s) (m_y s)) eqn:Hor.
      * unfold inOrigin in Hor. apply andb_true_iff in Hor.
        destruct Hor as [Hx Hy]. apply Z.eqb_eq in Hx. apply Z.eqb_eq in Hy.
        rewrite Hx, Hy in Hreg. congruence.
      * inversion H. reflexivity.
    + assert (s1 = s) by (inversion H1; reflexivity). subst s1.
      rewrite Hm in H. simpl in H. inversion H. subst s'. exact Hm.
  - assert (s1 = s) by (inversion H1; reflexivity). subst s1.
    rewrite Hm in H. simpl in H.
    destruct (inOrigin (m_x s) (m_y s)); inversion H; subst s';
      [reflexivity | exact Hm].
  - assert (s1 = s) by (inversion H1; reflexivity). subst s1.
    rewrite Hm in H. simpl in H. inversion H. subst s'. exact Hm.
Qed.

Lemma goalCheck_returns (fuel : nat) (s : State) :
  centerFitsBytes cfg -> centerFuel cfg fuel ->
  exists s', goalCheck cfg fuel s = Done tt s'.
Proof.
  intros Hc Hf. unfold goalCheck. rewrite !bind_gets.
  destruct (Mode_eqb (m_mode s) CENTER).
  - rewrite bind_assoc.
    rewrite (bind_Done_intro _ _ _ _ _ (inCenter_region fuel _ _ s Hc Hf)).
    destruct (inCenterRegion cfg (m_x s) (m_y s)).
    + rewrite bind_modify, bind_gets.
      destruct (_ && _); eexists; reflexivity.
    + rewrite bind_ret, bind_gets.
      destruct (_ && _); eexists; reflexivity.
  - rewrite bind_ret, bind_gets.
    destruct (_ && _); eexists; reflexivity.
Qed.


(** X12.  [solve] returns in two cases only: at once, with nothing
    done, when the configured grid size is outside [1, 16] in either
    dimension; or out of its loop, in GIVEUP mode.  As long as the
    mode is CENTER or ORIGIN the loop goes on. *)
Theorem solve_returns_only_to_give_up (rounds fuel : nat) (s s' : State) :
  solve cfg rounds fuel s = Done tt s' ->
  (~ (1 <= WIDTH cfg <= 16 /\ 1 <= HEIGHT cfg <= 16) /\ s' = s)
  \/ ((1 <= WIDTH cfg <= 16 /\ 1 <= HEIGHT cfg <= 16)
      /\ m_mode s' = GIVEUP).
Proof.
  unfold solve.
  destruct ((1 <=? WIDTH cfg) && (1 <=? HEIGHT cfg) && (WIDTH cfg <=? 16)
            && (HEIGHT cfg <=? 16)) eqn:Hsize; cbn [negb].
  - rewrite !andb_true_iff, !Z.leb_le in Hsize. intros H. right.
    split; [lia|]. revert H.
    apply (Done_after _ _ (fun s0 : State => m_mode s0 = GIVEUP)).
    intros _ s1 [] s1'. apply solveLoop_returns_on_giveup.
  - intros H. inversion H; subst s'. left. split; [|reflexivity].
    intros Hok. rewrite !andb_false_iff, !Z.leb_gt in Hsize. lia.
Qed.

(** X13.  [readWall], for valid directions: the wall ahead is read
    from the front sensor, the wall a quarter turn to the right from
    the right sensor, the wall a quarter turn to the left from the left
    sensor, each with that single query; there is no sensor for the
    wall behind, and asking for it fails the assertion with nothing
    asked. *)
Theorem readWall_asks_the_facing_sensor (direction : Z) (s : State) :
  validDirection (m_d s) -> validDirection direction ->
  (direction = m_d s -> readWall direction s = API_ask WallFront s)
  /\ (direction = (m_d s + 1) mod 4 ->
        readWall direction s = API_ask WallRight s)
  /\ (direction = (m_d s + 3) mod 4 ->
        readWall direction s = API_ask WallLeft s)
  /\ (direction = (m_d s + 2) mod 4 -> readWall direction s = Aborted s).
Proof.
  intros Hd Hdir. unfold readWall. rewrite bind_gets.
  destruct (validDirection_cases _ Hd) as [->|[->|[->| ->]]];
    destruct (validDirection_cases _ Hdir) as [->|[->|[->| ->]]];
    repeat split; intros H; try discriminate H; reflexivity.
Qed.

(** X14.  Learning a wall and forgetting it again.  For any side of
    any cell, [setCellWall] on both sides returns with the wall
    known on this side and, when there is a cell behind it, on the
    facing side of that cell, with the presence given; [unsetCellWall]
    on both sides then returns with the wall unknown on both sides; and
    every other side of every cell is known, present or absent exactly
    as it was before the two calls. *)
Theorem learning_then_forgetting_a_wall (c : cell) (d : Z) (w : bool)
  (s : State) :
  validDirection d ->
  exists s1 s2,
    setCellWall cfg c d w true s = Done tt s1
    /\ unsetCellWall cfg c d true s1 = Done tt s2
    /\ Maze.isKnown (maze s1) c d = true /\ Maze.isWall (maze s1) c d = w
    /\ (hasNeighboringCell cfg c d = true ->
          Maze.isKnown (maze s1) (neighbor c d) (opposite d) = true
          /\ Maze.isWall (maze s1) (neighbor c d) (opposite d) = w)
    /\ Maze.isKnown (maze s2) c d = false
    /\ (hasNeighboringCell cfg c d = true ->
          Maze.isKnown (maze s2) (neighbor c d) (opposite d) = false)
    /\ (forall c' d',
          ~ (c' = c /\ d' = d) ->
          ~ (hasNeighboringCell cfg c d = true
             /\ c' = neighbor c d /\ d' = opposite d) ->
          Maze.isKnown (maze s2) c' d' = Maze.isKnown (maze s) c' d'
          /\ Maze.isWall (maze s2) c' d' = Maze.isWall (maze s) c' d')
    /\ mouseAndLog s2 = mouseAndLog s.
Proof.
  intros Hd.
  destruct (setCellWall_spec c d w s Hd) as [s1 [E1 [G1 L1]]].
  destruct (unsetCellWall_spec c d s1 Hd) as [s2 [E2 [G2 L2]]].
  exists s1, s2. split; [exact E1|]. split; [exact E2|].
  assert (Here : touched cfg c d c d = true).
  { apply touched_true. left. split; reflexivity. }
  assert (Hthere : hasNeighboringCell cfg c d = true ->
                   touched cfg c d (neighbor c d) (opposite d) = true).
  { intros Hn. apply touched_true. right. auto. }
  unfold Maze.isKnown, Maze.isWall. rewrite G2, G1.
  rewrite !clearBoth_known, !setBoth_known, !setBoth_present, Here.
  split; [reflexivity|]. split; [reflexivity|].
  split.
  { intros Hn. rewrite (Hthere Hn). split; reflexivity. }
  split; [reflexivity|].
  split.
  { intros Hn. rewrite ?clearBoth_known, (Hthere Hn). reflexivity. }
  split; [|congruence].
  intros c' d' H1 H2.
  assert (Hno : touched cfg c d c' d' = false).
  { destruct (touched cfg c d c' d') eqn:Ht; [|reflexivity].
    apply touched_true in Ht. tauto. }
  rewrite ?clearBoth_known, ?clearBoth_present, ?setBoth_known,
    ?setBoth_present, ?Hno. split; reflexivity.
Qed.


(** ** Doing it twice *)

(** X15.  [reset] settles: in every state a run reaches it returns
    with an empty log, and a second [reset] right after it only
    acknowledges the button again: the pose, the mode, the log and
    every wall are as the first reset left them. *)
Theorem reset_twice_is_reset_once (s : State) :
  reachable cfg s ->
  exists s1 s2,
    reset cfg s = Done tt s1
    /\ History.size (history s1) = 0
    /\ reset cfg s1 = Done tt s2
    /\ pose s2 = pose s1 /\ m_mode s2 = m_mode s1
    /\ history s2 = history s1
    /\ (forall c d,
          Maze.isKnown (maze s2) c d = Maze.isKnown (maze s1) c d
          /\ Maze.isWall (maze s2) c d = Maze.isWall (maze s1) c d)
    /\ trace s2 = Told AckReset :: trace s1.
Proof.
  intros Hr.
  destruct (reset_spec s (reachable_Inv s Hr))
    as [s1 [E1 [Hx [Hy [Hd [Hm [He _]]]]]]].
  exists s1. eexists. split; [exact E1|].
  split; [unfold History.size; rewrite He; reflexivity|].
  split.
  { unfold reset, acknowledgeResetButtonPressed, onMaze.
    rewrite bind_tell, !bind_modify, bind_gets.
    cbn [history set_maze set_mode set_pose]. rewrite He.
    cbn [length rollBack]. rewrite bind_gets.
    cbn [history set_maze set_mode set_pose]. unfold History.size.
    rewrite He. cbn [length Z.of_nat Z.ltb Z.compare]. reflexivity. }
  cbn [set_maze set_mode set_pose m_x m_y m_d m_mode maze history trace pose].
  unfold pose. rewrite Hx, Hy, Hd, Hm.
  repeat split; reflexivity.
Qed.

Lemma readWallsLoop_nothing (offsets : list Z) (data : Z) (s : State) :
  (forall i, In i offsets ->
     wallKnown (maze s) (Maze.getCell (m_x s) (m_y s)) (directionAt (m_d s) i)
     = true) ->
  readWallsLoop cfg offsets data s = Done data s.
Proof.
  induction offsets as [|i rest IH]; intros H; cbn [readWallsLoop];
    [reflexivity|].
  rewrite !bind_gets. cbv zeta. unfold Maze.isKnown.
  change (to_byte (Z.rem (m_d s + i + 4) 4)) with (directionAt (m_d s) i).
  rewrite (H i (or_introl eq_refl)). cbn [negb].
  apply IH. intros j Hj. apply H. right. exact Hj.
Qed.

(** X16.  Sensing again where the mouse stands.  [readWalls] returns
    without moving the mouse, and a second [readWalls] in the same
    place asks no sensor, tells the boundary nothing and changes no
    wall: the three walls it looks at are known by then.  All it does
    is to append one more entry to the log, with no wall in it. *)
Theorem sensing_again_learns_nothing (s : State) :
  validDirection (m_d s) -> inGrid cfg (m_x s, m_y s) ->
  exists s1,
    readWalls cfg s = Done tt s1
    /\ pose s1 = pose s
    /\ readWalls cfg s1
       = Done tt (set_history
                    (History.add (m_x s, m_y s) 0 (history s1)) s1).
Proof.
  intros Hd Hin. unfold readWalls at 1. rewrite !bind_gets. cbv zeta.
  destruct (readWallsLoop_reads (upto (-1) 1) 0 s)
    as [data [s1 [delta [E1 [L1 [T1 [R1 [K1 [N1 [U1 B1]]]]]]]]]].
  - repeat constructor; simpl; intuition lia.
  - intros i Hi. apply In_upto in Hi. exact Hi.
  - split; assumption.
  - run_bind E1. unfold modify. eexists. split; [reflexivity|].
    unfold mouseAndLog in L1.
    assert (Lx : m_x s1 = m_x s) by congruence.
    assert (Ly : m_y s1 = m_y s) by congruence.
    assert (Ld : m_d s1 = m_d s) by congruence.
    split; [unfold pose; simpl; congruence|].
    match goal with
    | |- readWalls cfg ?s0 = _ => set (s2 := s0)
    end.
    assert (Hn : readWallsLoop cfg (upto (-1) 1) 0 s2 = Done 0 s2).
    { apply readWallsLoop_nothing. intros i Hi. unfold s2.
      cbn [m_x m_y m_d maze set_history]. rewrite Lx, Ly, Ld.
      rewrite (getCell_inGrid (m_x s) (m_y s) (proj1 Hin) (proj2 Hin)).
      apply N1. apply in_map. exact Hi. }
    unfold readWalls. rewrite !bind_gets. cbv zeta. run_bind Hn.
    unfold modify, s2. cbn [m_x m_y set_history]. rewrite Lx, Ly.
    rewrite (getCell_inGrid (m_x s) (m_y s) (proj1 Hin) (proj2 Hin)).
    reflexivity.
Qed.


(** ** The goal region and the plan *)

Lemma fold_closest (dist : cell -> Z) (cells : list cell) (c0 : cell) :
  let r := fold_left (fun closest other =>
                        if dist other <? dist closest then other else closest)
                     cells c0 in
  dist r <= dist c0
  /\ (forall o, In o cells -> dist r <= dist o)
  /\ (r = c0 \/ In r cells).
Proof.
  cbv zeta. revert c0. induction cells as [|o cells IH]; intros c0; simpl.
  - split; [lia|]. split; [intros o []|]. left. reflexivity.
  - destruct (Z.ltb_spec (dist o) (dist c0)) as [Hlt|Hge].
    + destruct (IH o) as [H1 [H2 H3]].
      split; [lia|]. split.
      * intros o' [<-|Ho']; [exact H1 | apply H2; exact Ho'].
      * right. destruct H3 as [->|H3]; [left; reflexivity | right; exact H3].
    + destruct (IH c0) as [H1 [H2 H3]].
      split; [exact H1|]. split.
      * intros o' [<-|Ho']; [lia | apply H2; exact Ho'].
      * destruct H3 as [H3|H3]; [left; exact H3 | right; right; exact H3].
Qed.

Lemma fold_left_cells (dist : cell -> Z) (xs ys : list Z) (c0 : cell) :
  fold_left (fun closest x =>
    fold_left (fun closest y =>
      let other := Maze.getCell x y in
      if dist other <? dist closest then other else closest) ys closest)
    xs c0
  = fold_left (fun closest other =>
                 if dist other <? dist closest then other else closest)
              (flat_map (fun x => map (Maze.getCell x) ys) xs) c0.
Proof.
  revert c0. induction xs as [|x xs IH]; intros c0; simpl; [reflexivity|].
  rewrite fold_left_app, <- IH. f_equal.
  clear IH. revert c0. induction ys as [|y ys IHy]; intros c0; simpl;
    [reflexivity | apply IHy].
Qed.

Lemma foldByte_endless {A : Type} (hi : Z) (f : A -> Z -> option A) :
  255 <= hi ->
  forall (fuel : nat) (v : Z) (a : A),
    0 <= v <= 255 -> foldByte fuel v hi f a = None.
Proof.
  intros Hhi. induction fuel as [|fuel IH]; intros v a Hv; [reflexivity|].
  simpl. destruct (v <=? hi) eqn:Hle; [|apply Z.leb_gt in Hle; lia].
  destruct (f a v); [|reflexivity].
  apply IH. unfold to_byte. pose proof (Z.mod_pos_bound (v + 1) 256). lia.
Qed.

Lemma forByte_S (fuel : nat) (v hi : Z) (body : Z -> M unit) (s : State) :
  forByte (S fuel) v hi body s
  = (if v <=? hi
     then bind (body v) (fun _ => forByte fuel (to_byte (v + 1)) hi body)
     else ret tt) s.
Proof. reflexivity. Qed.

Lemma foldByte_S {A : Type} (fuel : nat) (v hi : Z)
  (f : A -> Z -> option A) (a : A) :
  foldByte (S fuel) v hi f a
  = if v <=? hi
    then match f a v with
         | Some a' => foldByte fuel (to_byte (v + 1)) hi f a'
         | None => None
         end
    else Some a.
Proof. reflexivity. Qed.

Lemma to_byte_range (z : Z) : 0 <= to_byte z <= 255.
Proof. unfold to_byte. pose proof (Z.mod_pos_bound z 256). lia. Qed.

Lemma getClosestDestinationCell_upto (fuel : nat) (s : State) :
  centerFitsBytes cfg -> centerFuel cfg fuel -> m_mode s = CENTER ->
  getClosestDestinationCell cfg fuel s
  = Done (fold_left (fun closest x =>
            fold_left (fun closest y =>
              let other := Maze.getCell x y in
              if Maze.getDistance (maze s) other
                 <? Maze.getDistance (maze s) closest
              then other else closest)
              (upto (CLLY cfg) (CURY cfg)) closest)
            (upto (CLLX cfg) (CURX cfg))
            (Maze.getCell (CLLX cfg) (CLLY cfg))) s.
Proof.
  intros [Hlx [Hux [Hly Huy]]] [Hfx Hfy] Hm.
  unfold getClosestDestinationCell. cbv zeta. rewrite Hm. cbn [Mode_eqb].
  rewrite !to_byte_small by lia.
  rewrite (foldByte_upto (CURX cfg) _
             (fun closest x =>
                fold_left (fun closest y =>
                  let other := Maze.getCell x y in
                  if Maze.getDistance (maze s) other
                     <? Maze.getDistance (maze s) closest
                  then other else closest)
                  (upto (CLLY cfg) (CURY cfg)) closest));
    [reflexivity | exact Hux | | lia | exact Hfx].
  intros a v.
  apply (foldByte_upto (CURY cfg) _
           (fun closest y =>
              let other := Maze.getCell v y in
              if Maze.getDistance (maze s) other
                 <? Maze.getDistance (maze s) closest
              then other else closest));
    [exact Huy | intros; reflexivity | lia | exact Hfy].
Qed.

(** X17.  [getClosestDestinationCell].  In CENTER mode, with the
    corners of the center region in the byte range and the upper ones
    below 255, it returns, leaves the state alone, and the cell it
    returns is at most as far, by the stored distances, as every cell of
    the center rectangle, and it is a cell of the rectangle; when the
    rectangle is empty (an upper corner below the lower one) it answers
    its lower left corner all the same, a cell outside the region.
    With an upper corner at 255 or more the byte counter of the loop can
    never pass it: for CURX, and for CURY once the outer loop is
    entered, the function does not return, whatever the fuel.  In any
    other mode it answers the origin. *)
Theorem closest_destination_is_nearest (fuel : nat) (s : State) :
  (m_mode s = CENTER -> centerFitsBytes cfg -> centerFuel cfg fuel ->
     exists c,
       getClosestDestinationCell cfg fuel s = Done c s
       /\ (forall x y,
             CLLX cfg <= x <= CURX cfg -> CLLY cfg <= y <= CURY cfg ->
             Maze.getDistance (maze s) c
             <= Maze.getDistance (maze s) (Maze.getCell x y))
       /\ (CLLX cfg <= CURX cfg -> CLLY cfg <= CURY cfg ->
             exists x y, CLLX cfg <= x <= CURX cfg
                         /\ CLLY cfg <= y <= CURY cfg
                         /\ c = Maze.getCell x y)
       /\ (CURX cfg < CLLX cfg \/ CURY cfg < CLLY cfg ->
             c = Maze.getCell (CLLX cfg) (CLLY cfg)))
  /\ (m_mode s = CENTER ->
        255 <= CURX cfg
        \/ (255 <= CURY cfg /\ to_byte (CLLX cfg) <= CURX cfg) ->
        getClosestDestinationCell cfg fuel s = Timeout s)
  /\ (m_mode s <> CENTER ->
        getClosestDestinationCell cfg fuel s = Done (Maze.getCell 0 0) s).
Proof.
  split; [|split].
  - intros Hm Hc Hf. rewrite (getClosestDestinationCell_upto fuel s Hc Hf Hm).
    eexists. split; [reflexivity|]. rewrite fold_left_cells.
    set (cells := flat_map (fun x => map (Maze.getCell x)
                                         (upto (CLLY cfg) (CURY cfg)))
                           (upto (CLLX cfg) (CURX cfg))).
    assert (Hcells : forall o, In o cells <->
              exists x y, CLLX cfg <= x <= CURX cfg
                          /\ CLLY cfg <= y <= CURY cfg
                          /\ o = Maze.getCell x y).
    { intros o. unfold cells. rewrite in_flat_map. split.
      - intros [x [Hx Ho]]. apply in_map_iff in Ho.
        destruct Ho as [y [Ho Hy]]. apply In_upto in Hx. apply In_upto in Hy.
        exists x, y. auto.
      - intros [x [y [Hx [Hy ->]]]]. exists x.
        split; [apply In_upto; exact Hx|].
        apply in_map. apply In_upto. exact Hy. }
    destruct (fold_closest (Maze.getDistance (maze s)) cells
                (Maze.getCell (CLLX cfg) (CLLY cfg))) as [H1 [H2 H3]].
    split; [|split].
    + intros x y Hx Hy. apply H2. apply Hcells. exists x, y. auto.
    + intros Hx Hy. destruct H3 as [H3|H3].
      * rewrite H3. exists (CLLX cfg), (CLLY cfg).
        split; [lia|]. split; [lia | reflexivity].
      * apply Hcells. exact H3.
    + intros Hempty. destruct H3 as [H3|H3]; [exact H3|].
      apply Hcells in H3. destruct H3 as [x [y [Hx [Hy _]]]]. lia.
  - intros Hm Hbig. unfold getClosestDestinationCell. cbv zeta.
    rewrite Hm. cbn [Mode_eqb].
    destruct Hbig as [Hx|[Hy Hin]].
    + rewrite (foldByte_endless (CURX cfg) _ Hx fuel _ _
                 (to_byte_range (CLLX cfg))).
      reflexivity.
    + destruct fuel as [|fuel]; [reflexivity|].
      match goal with
      | |- context [foldByte (S fuel) ?v ?hi ?f ?a] =>
          rewrite (foldByte_S fuel v hi f a)
      end.
      apply Z.leb_le in Hin. rewrite Hin.
      rewrite (foldByte_endless (CURY cfg) _ Hy (S fuel) _ _
                 (to_byte_range (CLLY cfg))).
      reflexivity.
  - intros Hm. unfold getClosestDestinationCell. cbv zeta.
    destruct (m_mode s); [congruence | reflexivity | reflexivity].
Qed.

(** X22.  [inCenter], with the corners of the center region in the
    byte range and the upper ones below 255: it never changes the state
    and never fails an assertion; whenever it returns, its answer is
    whether the cell lies in the rectangle between the corners; and
    with the fuel for its loops it returns. *)
Theorem inCenter_tests_the_rectangle (fuel : nat) (x y : Z) (s : State) :
  centerFitsBytes cfg ->
  final (inCenter cfg fuel x y s) = s
  /\ isAborted (inCenter cfg fuel x y s) = false
  /\ (forall inside s',
        inCenter cfg fuel x y s = Done inside s' ->
        s' = s
        /\ (inside = true <->
            CLLX cfg <= x <= CURX cfg /\ CLLY cfg <= y <= CURY cfg))
  /\ (centerFuel cfg fuel -> isDone (inCenter cfg fuel x y s) = true).
Proof.
  intros Hc. split; [apply inCenter_still|]. split; [|split].
  - unfold inCenter.
    destruct (inCenterRows cfg fuel fuel x y (to_byte (CLLX cfg)));
      reflexivity.
  - intros inside s' H.
    destruct (inCenter_answer fuel x y s s' inside Hc H) as [-> ->].
    split; [reflexivity | apply inCenterRegion_spec].
  - intros Hf. rewrite (inCenter_region fuel x y s Hc Hf). reflexivity.
Qed.

(** X18.  [getFirstUnknown] never changes the state, and it returns a
    cell exactly when the known part of the plan ends there within the
    fuel: the planned pointers lead from the start to that cell through
    edges whose walls are all known, and at that cell the plan stops or
    continues across an edge whose wall is unknown.  (Otherwise a
    pointer leads off the grid and the assertion fails, or the known
    pointers run in a circle.) *)
Theorem getFirstUnknown_ends_the_known_prefix (fuel : nat) (start : cell)
  (s : State) :
  final (getFirstUnknown cfg fuel start s) = s
  /\ forall c,
       getFirstUnknown cfg fuel start s = Done c s
       <-> exists hops,
             knownChain cfg (maze s) start hops
             /\ c = last hops start
             /\ (length hops < fuel)%nat
             /\ Maze.hasNext (maze s) c
                && Maze.isKnown (maze s) c
                     (Maze.getNextDirection (maze s) c) = false.
Proof.
  split.
  { revert start. induction fuel as [|fuel IH]; intros start;
      cbn [getFirstUnknown]; [reflexivity|].
    rewrite bind_gets. destruct (_ && _); [|reflexivity].
    destruct (hasNeighboringCell cfg start
                (Maze.getNextDirection (maze s) start)) eqn:Hn.
    - run_bind (getNeighboringCell_has start _ s Hn). apply IH.
    - rewrite (bind_Aborted _ _ _ _ (getNeighboringCell_none start _ s Hn)).
      reflexivity. }
  intros c. split.
  - revert start. induction fuel as [|fuel IH]; intros start;
      cbn [getFirstUnknown]; [discriminate|].
    rewrite bind_gets.
    destruct (Maze.hasNext (maze s) start
              && Maze.isKnown (maze s) start
                   (Maze.getNextDirection (maze s) start)) eqn:Hcond.
    + destruct (hasNeighboringCell cfg start
                  (Maze.getNextDirection (maze s) start)) eqn:Hn.
      * run_bind (getNeighboringCell_has start _ s Hn). intros H.
        destruct (IH _ H) as [hops [H1 [H2 [H3 H4]]]].
        apply andb_true_iff in Hcond. destruct Hcond as [Hnext Hknown].
        exists (neighbor start (Maze.getNextDirection (maze s) start) :: hops).
        split; [apply kc_hop; assumption|].
        split; [rewrite last_cons; exact H2|].
        split; [simpl; lia | exact H4].
      * rewrite (bind_Aborted _ _ _ _
                   (getNeighboringCell_none start _ s Hn)). discriminate.
    + intros H. inversion H; subst c. exists [].
      split; [apply kc_stop|]. split; [reflexivity|].
      split; [simpl; lia | exact Hcond].
  - intros [hops [H1 [H2 [H3 H4]]]]. subst c. revert fuel H3.
    induction H1 as [c0 | c0 hops Hnext Hknown Hn Hrest IH]; intros fuel H3;
      (destruct fuel as [|fuel]; [simpl in H3; lia|]);
      cbn [getFirstUnknown]; rewrite bind_gets.
    + simpl in H4. rewrite H4. reflexivity.
    + rewrite Hnext, Hknown. cbn [andb].
      run_bind (getNeighboringCell_has c0 _ s Hn).
      rewrite last_cons in *. apply IH; [exact H4 | simpl in H3; lia].
Qed.


(** ** Distances *)

Lemma bind_ext {A C : Type} (m : M A) (k1 k2 : A -> M C) (s : State) :
  (forall a s1, k1 a s1 = k2 a s1) -> bind m k1 s = bind m k2 s.
Proof.
  intros H. unfold bind. destruct (m s) as [a s1| s1 | s1];
    [apply H | reflexivity | reflexivity].
Qed.

Lemma forM_app {A : Type} (l1 l2 : list A) (f : A -> M unit) (s : State) :
  forM_ (l1 ++ l2) f s = bind (forM_ l1 f) (fun _ => forM_ l2 f) s.
Proof.
  revert s. induction l1 as [|a l1 IH]; intros s; simpl; [reflexivity|].
  rewrite bind_assoc. apply bind_ext. intros _ s1. apply IH.
Qed.

Lemma forM_map {A C : Type} (g : A -> C) (l : list A) (f : C -> M unit)
  (s : State) :
  forM_ l (fun a => f (g a)) s = forM_ (map g l) f s.
Proof.
  revert s. induction l as [|a l IH]; intros s; simpl; [reflexivity|].
  apply bind_ext. intros _ s1. apply IH.
Qed.

Lemma forM_cells (xs ys : list Z) (body : cell -> M unit) (s : State) :
  forM_ xs (fun x => forM_ ys (fun y => body (Maze.getCell x y))) s
  = forM_ (flat_map (fun x => map (Maze.getCell x) ys) xs) body s.
Proof.
  revert s. induction xs as [|x xs IH]; intros s; simpl; [reflexivity|].
  rewrite forM_app. unfold bind.
  rewrite (forM_map (Maze.getCell x) ys body s).
  destruct (forM_ (map (Maze.getCell x) ys) body s) as [[] s1| s1 | s1];
    [apply IH | reflexivity | reflexivity].
Qed.

Lemma setDistances_spec (cells : list cell) (v : Z) (s : State) :
  exists s',
    forM_ cells (fun c => setCellDistance c v) s = Done tt s'
    /\ forall c, Maze.getDistance (maze s') c
                 = if existsb (cell_eqb c) cells then to_twobyte v
                   else Maze.getDistance (maze s) c.
Proof.
  revert s. induction cells as [|c0 cells IH]; intros s; simpl.
  - exists s. split; reflexivity.
  - unfold setCellDistance at 1, onMaze. rewrite bind_assoc, bind_modify.
    rewrite bind_tell.
    match goal with
    | |- exists s', forM_ _ _ ?s0 = _ /\ _ => destruct (IH s0) as [s' [Es D]]
    end.
    exists s'. split; [exact Es|]. intros c. rewrite D. simpl.
    unfold Maze.getDistance, upd. simpl. unfold upd.
    destruct (cell_eqb c c0); simpl; [|reflexivity].
    destruct (existsb (cell_eqb c) cells); reflexivity.
Qed.

Lemma forByte_not_aborted (hi : Z) (body : Z -> M unit) :
  (forall v s, isAborted (body v s) = false) ->
  forall (fuel : nat) (v : Z) (s : State),
    isAborted (forByte fuel v hi body s) = false.
Proof.
  intros Hbody. induction fuel as [|fuel IH]; intros v s; [reflexivity|].
  simpl. destruct (v <=? hi); [|reflexivity].
  unfold bind. specialize (Hbody v s).
  destruct (body v s) as [[] s1|s1|s1]; [apply IH | discriminate | reflexivity].
Qed.

Lemma resetDestinationCellDistances_upto (fuel : nat) (s : State) :
  centerFitsBytes cfg -> centerFuel cfg fuel -> m_mode s = CENTER ->
  resetDestinationCellDistances cfg fuel s
  = forM_ (flat_map (fun x => map (Maze.getCell x)
                                  (upto (CLLY cfg) (CURY cfg)))
                    (upto (CLLX cfg) (CURX cfg)))
          (fun c => setCellDistance c 65535) s.
Proof.
  intros [Hlx [Hux [Hly Huy]]] [Hfx Hfy] Hm.
  unfold resetDestinationCellDistances. cbv zeta. rewrite bind_gets, Hm.
  cbn [Mode_eqb]. rewrite !to_byte_small by lia.
  rewrite forByte_upto by (assumption || lia).
  rewrite (forM_ext _ _
             (fun x => forM_ (upto (CLLY cfg) (CURY cfg))
                         (fun y => setCellDistance (Maze.getCell x y) 65535))).
  - apply (forM_cells _ _ (fun c => setCellDistance c 65535) s).
  - intros x s0. apply forByte_upto; assumption || lia.
Qed.

(** X19.  [resetDestinationCellDistances].  In CENTER mode with the
    corners of the center region in the byte range and the upper ones
    below 255, and in any other mode: it returns, every cell of the
    active goal region (the cells [inCenter] accepts in CENTER mode,
    the origin otherwise) has the distance 65535 afterwards, the
    distance of every other cell is unchanged, and so are the mouse, the
    log and the walls.  In CENTER mode with an upper corner at 255 or
    more the byte counter of the loop can never pass it: for CURX, and
    for CURY once the outer loop is entered, the function is still
    running when the fuel ends, whatever the fuel. *)
Theorem resetDestinationCellDistances_marks_the_goal (fuel : nat)
  (s : State) :
  ((m_mode s = CENTER -> centerFitsBytes cfg /\ centerFuel cfg fuel) ->
   exists s',
     resetDestinationCellDistances cfg fuel s = Done tt s'
     /\ (forall c, inGoal cfg (m_mode s) c ->
           Maze.getDistance (maze s') c = 65535)
     /\ (forall c, ~ inGoal cfg (m_mode s) c ->
           Maze.getDistance (maze s') c = Maze.getDistance (maze s) c)
     /\ pose s' = pose s /\ m_mode s' = m_mode s /\ history s' = history s
     /\ (forall c d, Maze.isKnown (maze s') c d = Maze.isKnown (maze s) c d
                     /\ Maze.isWall (maze s') c d = Maze.isWall (maze s) c d))
  /\ (m_mode s = CENTER ->
        255 <= CURX cfg
        \/ (255 <= CURY cfg /\ to_byte (CLLX cfg) <= CURX cfg) ->
        isTimeout (resetDestinationCellDistances cfg fuel s) = true).
Proof.
  split.
  2:{ intros Hm Hbig. unfold resetDestinationCellDistances. cbv zeta.
      rewrite bind_gets, Hm. cbn [Mode_eqb].
      assert (Hset : forall x y s0,
                isAborted (setCellDistance (Maze.getCell x y) 65535 s0)
                = false) by reflexivity.
      destruct Hbig as [Hx|[Hy Hin]].
      - apply forByte_endless; [exact Hx | | apply to_byte_range].
        intros x s0. apply forByte_not_aborted. intros y s1. apply Hset.
      - destruct fuel as [|fuel]; [reflexivity|].
        rewrite forByte_S. apply Z.leb_le in Hin. rewrite Hin.
        unfold bind at 1.
        pose proof (forByte_endless (CURY cfg)
                      (fun y => setCellDistance
                                  (Maze.getCell (to_byte (CLLX cfg)) y) 65535)
                      Hy (fun y s1 => Hset _ y s1) (S fuel)
                      (to_byte (CLLY cfg)) s (to_byte_range _)) as Hinner.
        destruct (forByte (S fuel) (to_byte (CLLY cfg)) (CURY cfg) _ s);
          [discriminate | discriminate | reflexivity]. }
  intros Hsane.
  pose proof (keeps_resetDestinationCellDistances _
                searchBlind_walls_and_mouse fuel s) as K.
  assert (Hgoal : exists s',
            resetDestinationCellDistances cfg fuel s = Done tt s'
            /\ (forall c, inGoal cfg (m_mode s) c ->
                  Maze.getDistance (maze s') c = 65535)
            /\ (forall c, ~ inGoal cfg (m_mode s) c ->
                  Maze.getDistance (maze s') c = Maze.getDistance (maze s) c)).
  { destruct (m_mode s) eqn:Hm.
    - destruct (Hsane eq_refl) as [Hc Hf].
      rewrite (resetDestinationCellDistances_upto fuel s Hc Hf Hm).
      set (cells := flat_map (fun x => map (Maze.getCell x)
                                           (upto (CLLY cfg) (CURY cfg)))
                             (upto (CLLX cfg) (CURX cfg))).
      destruct (setDistances_spec cells 65535 s) as [s' [Es D]].
      exists s'. split; [exact Es|].
      pose proof Hc as [HX0 [HX1 [HY0 HY1]]].
      assert (Hcells : forall c, existsb (cell_eqb c) cells = true
                <-> inGoal cfg CENTER c).
      { intros [x y]. rewrite (inGoal_region (x, y) Hc).
        unfold Maze.getX, Maze.getY. cbn [fst snd].
        rewrite inCenterRegion_spec, existsb_exists. unfold cells. split.
        - intros [o [Ho Heq]]. apply cell_eqb_eq in Heq. subst o.
          apply in_flat_map in Ho. destruct Ho as [x' [Hx' Ho]].
          apply in_map_iff in Ho. destruct Ho as [y' [Ho Hy']].
          apply In_upto in Hx'. apply In_upto in Hy'.
          unfold Maze.getCell in Ho.
          rewrite !to_byte_small in Ho by lia. inversion Ho. lia.
        - intros [Hx Hy]. exists (x, y). split; [|apply cell_eqb_refl].
          apply in_flat_map. exists x. split; [apply In_upto; exact Hx|].
          apply in_map_iff. exists y. split; [|apply In_upto; exact Hy].
          unfold Maze.getCell. rewrite !to_byte_small by lia. reflexivity. }
      split; intros c Hin; rewrite D.
      + apply Hcells in Hin. rewrite Hin. reflexivity.
      + destruct (existsb (cell_eqb c) cells) eqn:He; [|reflexivity].
        exfalso. apply Hin. apply Hcells. exact He.
    - unfold resetDestinationCellDistances. cbv zeta. rewrite bind_gets, Hm.
      cbn [Mode_eqb inGoal].
      destruct (setDistances_spec [Maze.getCell 0 0] 65535 s) as [s' [Es D]].
      simpl in Es. unfold bind in Es.
      destruct (setCellDistance (Maze.getCell 0 0) 65535 s) as [[] s1| |];
        try discriminate.
      exists s'. split; [unfold ret in Es; congruence|].
      split; intros c Hc; rewrite D; simpl.
      + rewrite Hc, cell_eqb_refl. reflexivity.
      + destruct (cell_eqb c (Maze.getCell 0 0)) eqn:He; [|reflexivity].
        apply cell_eqb_eq in He. contradiction.
    - unfold resetDestinationCellDistances. cbv zeta. rewrite bind_gets, Hm.
      cbn [Mode_eqb inGoal].
      destruct (setDistances_spec [Maze.getCell 0 0] 65535 s) as [s' [Es D]].
      simpl in Es. unfold bind in Es.
      destruct (setCellDistance (Maze.getCell 0 0) 65535 s) as [[] s1| |];
        try discriminate.
      exists s'. split; [unfold ret in Es; congruence|].
      split; intros c Hc; rewrite D; simpl.
      + rewrite Hc, cell_eqb_refl. reflexivity.
      + destruct (cell_eqb c (Maze.getCell 0 0)) eqn:He; [|reflexivity].
        apply cell_eqb_eq in He. contradiction. }
  destruct Hgoal as [s' [Es [G1 G2]]]. exists s'.
  rewrite Es in K. simpl in K.
  split; [exact Es|]. split; [exact G1|]. split; [exact G2|].
  unfold Maze.isKnown, Maze.isWall.
  split; [congruence|]. split; [congruence|]. split; [congruence|].
  intros c d. split; [congruence|].
  assert (Hk : wallKnown (maze s') = wallKnown (maze s)) by congruence.
  assert (Hp : wallPresent (maze s') = wallPresent (maze s)) by congruence.
  rewrite Hk, Hp. reflexivity.
Qed.


Lemma to_twobyte_twice (z : Z) : to_twobyte (to_twobyte z) = to_twobyte z.
Proof. unfold to_twobyte. apply Z.mod_mod. lia. Qed.

(** X20.  [checkNeighbor], for an edge of the grid whose cost is
    defined.  With the candidate distance - the distance of the cell
    plus the cost of the edge, in 16 bits - it returns, and: a
    neighbor that was discovered and is not improved by the candidate
    is left alone, with the whole state; otherwise the neighbor gets
    the candidate as its distance, is discovered, points back to the
    cell, gets its run length, and is pushed on the queue if it was not
    discovered before (the queue is updated in place if it was).  So
    the distance of a discovered cell never grows.  No other cell
    changes, and neither do the mouse, the log or the walls. *)
Theorem checkNeighbor_relaxes_the_neighbor (c : cell) (d cost : Z)
  (s : State) :
  inGrid cfg c -> validDirection d -> hasNeighboringCell cfg c d = true ->
  edgeCost cfg (maze s) c (opposite d) = Some cost ->
  let n := neighbor c d in
  let g := maze s in
  let candidate := to_twobyte (Maze.getDistance g c + cost) in
  exists s',
    checkNeighbor cfg c d s = Done tt s'
    /\ (Maze.getDiscovered g n = true ->
        Maze.getDistance g n <= candidate -> s' = s)
    /\ (Maze.getDiscovered g n = false \/ candidate < Maze.getDistance g n ->
          Maze.getDistance (maze s') n = candidate
          /\ Maze.getDiscovered (maze s') n = true
          /\ Maze.hasNext (maze s') n = true
          /\ Maze.getNextDirection (maze s') n = opposite d
          /\ neighbor n (Maze.getNextDirection (maze s') n) = c
          /\ Maze.getStraightAwayLength (maze s') n
             = to_byte (if Maze.getNextDirection g c =? opposite d
                        then Maze.getStraightAwayLength g c + 1 else 1)
          /\ heap s' = (if Maze.getDiscovered g n then heap s
                        else heap s ++ [n])
          /\ trace s'
             = Told (SetText (Maze.getX n) (Maze.getY n) candidate)
               :: trace s)
    /\ (Maze.getDiscovered g n = true ->
        Maze.getDistance (maze s') n <= Maze.getDistance g n)
    /\ (forall c', c' <> n ->
          Maze.getDistance (maze s') c' = Maze.getDistance g c'
          /\ Maze.getDiscovered (maze s') c' = Maze.getDiscovered g c'
          /\ Maze.hasNext (maze s') c' = Maze.hasNext g c'
          /\ Maze.getNextDirection (maze s') c' = Maze.getNextDirection g c')
    /\ pose s' = pose s /\ m_mode s' = m_mode s /\ history s' = history s
    /\ (forall c' d',
          Maze.isKnown (maze s') c' d' = Maze.isKnown g c' d'
          /\ Maze.isWall (maze s') c' d' = Maze.isWall g c' d').
Proof.
  intros Hc Hd Hn Hedge. cbv zeta.
  pose proof (neighbor_differs c d Hc Hd Hn) as Hdiff.
  pose proof (neighbor_back c d Hc Hd Hn) as Hback.
  assert (Hcn : cell_eqb c (neighbor c d) = false).
  { apply cell_eqb_neq. congruence. }
  set (n := neighbor c d) in *.
  set (cand := to_twobyte (Maze.getDistance (maze s) c + cost)).
  assert (Hcc : to_twobyte cand = cand)
    by (unfold cand; apply to_twobyte_twice).
  assert (Hrun : exists s',
            checkNeighbor cfg c d s = Done tt s'
            /\ (negb (Maze.getDiscovered (maze s) n)
                || (cand <? Maze.getDistance (maze s) n) = false -> s' = s)
            /\ (negb (Maze.getDiscovered (maze s) n)
                || (cand <? Maze.getDistance (maze s) n) = true ->
                  maze s'
                  = (if Maze.getDiscovered (maze s) n then fun g0 => g0
                     else Maze.setDiscovered n true)
                      (Maze.setStraightAwayLength n
                         (if Maze.getNextDirection (maze s) c =? opposite d
                          then Maze.getStraightAwayLength (maze s) c + 1
                          else 1)
                         (Maze.setNextDirection n (opposite d)
                            (Maze.setDistance n cand (maze s))))
                  /\ heap s' = (if Maze.getDiscovered (maze s) n then heap s
                                else heap s ++ [n])
                  /\ trace s'
                     = Told (SetText (Maze.getX n) (Maze.getY n) cand)
                       :: trace s)).
  { unfold checkNeighbor.
    run_bind (getNeighboringCell_has c d s Hn).
    run_bind (getOppositeDirection_valid d s Hd).
    rewrite bind_gets, Hedge, bind_ret. cbv zeta. fold n. fold cand.
    destruct (negb (Maze.getDiscovered (maze s) n)
              || (cand <? Maze.getDistance (maze s) n)) eqn:Hupd.
    2:{ exists s. split; [reflexivity|]. split; [reflexivity | discriminate]. }
    unfold setCellDistance, onMaze.
    rewrite bind_assoc, bind_modify, bind_tell, bind_modify, bind_gets,
      bind_modify, bind_gets.
    cbn [maze set_maze].
    assert (E1 : Maze.getNextDirection
                   (Maze.setNextDirection n (opposite d)
                      (Maze.setDistance n cand (maze s))) c
                 = Maze.getNextDirection (maze s) c).
    { unfold Maze.getNextDirection, Maze.setNextDirection. cbn.
      unfold upd. rewrite Hcn. reflexivity. }
    rewrite E1, Hcc.
    change (Maze.getStraightAwayLength
              (Maze.setNextDirection n (opposite d)
                 (Maze.setDistance n cand (maze s))) c)
      with (Maze.getStraightAwayLength (maze s) c).
    match goal with
    | |- context [Maze.getDiscovered ?g0 n] =>
        change (Maze.getDiscovered g0 n)
          with (Maze.getDiscovered (maze s) n)
    end.
    destruct (Maze.getDiscovered (maze s) n) eqn:Hdisc; cbn [negb].
    - eexists. split; [reflexivity|]. split; [discriminate|]. intros _.
      cbn [maze heap trace set_maze set_heap Heap.update].
      split; [|split; reflexivity]. reflexivity.
    - rewrite bind_modify. eexists. split; [reflexivity|].
      split; [discriminate|]. intros _.
      cbn [maze heap trace set_maze set_heap Heap.push].
      split; [|split; reflexivity]. reflexivity. }
  destruct Hrun as [s' [Es [Hsame Hnew]]].
  pose proof (Done_keeps _ _ _ _ _
                (keeps_checkNeighbor _ searchBlind_walls_and_mouse c d) Es)
    as K. simpl in K.
  exists s'. split; [exact Es|].
  assert (Hcand : 0 <= cand < 65536).
  { unfold cand, to_twobyte. apply Z.mod_pos_bound. lia. }
  split.
  { intros Hdisc Hle. apply Hsame. rewrite Hdisc. cbn [negb orb].
    apply Z.ltb_ge. exact Hle. }
  split.
  { intros Hor.
    destruct Hnew as [Hm [Hh Ht]].
    { destruct Hor as [-> | Hlt]; [reflexivity|].
      apply orb_true_iff. right. apply Z.ltb_lt. exact Hlt. }
    rewrite Hm.
    destruct (Maze.getDiscovered (maze s) n) eqn:Hdisc;
      unfold Maze.getDistance, Maze.getDiscovered, Maze.hasNext,
        Maze.getNextDirection, Maze.getStraightAwayLength in *;
      cbn [Maze.setDiscovered Maze.setStraightAwayLength
           Maze.setNextDirection Maze.setDistance distance discovered
           nextSet nextDirection straightAwayLength];
      unfold upd; rewrite ?cell_eqb_refl, Hcc;
      repeat split; try reflexivity; assumption. }
  split.
  { intros Hdisc.
    destruct (cand <? Maze.getDistance (maze s) n) eqn:Hlt.
    - destruct Hnew as [Hm _]; [rewrite Hdisc; reflexivity|].
      rewrite Hm, Hdisc. unfold Maze.getDistance.
      cbn [Maze.setDiscovered Maze.setStraightAwayLength
           Maze.setNextDirection Maze.setDistance distance].
      unfold upd. rewrite cell_eqb_refl, Hcc.
      apply Z.ltb_lt in Hlt. unfold Maze.getDistance in Hlt. lia.
    - rewrite Hsame; [lia|]. rewrite Hdisc. reflexivity. }
  split.
  { intros c' Hc'.
    destruct (negb (Maze.getDiscovered (maze s) n)
              || (cand <? Maze.getDistance (maze s) n)) eqn:Hupd.
    - destruct (Hnew eq_refl) as [Hm _]. rewrite Hm.
      apply cell_eqb_neq in Hc'.
      destruct (Maze.getDiscovered (maze s) n);
        unfold Maze.getDistance, Maze.getDiscovered, Maze.hasNext,
          Maze.getNextDirection;
        cbn [Maze.setDiscovered Maze.setStraightAwayLength
             Maze.setNextDirection Maze.setDistance distance discovered
             nextSet nextDirection];
        unfold upd; rewrite ?Hc';
        repeat split; reflexivity.
    - rewrite (Hsame eq_refl). repeat split; reflexivity. }
  unfold Maze.isKnown, Maze.isWall.
  split; [congruence|]. split; [congruence|]. split; [congruence|].
  intros c' d'. split; [congruence|].
  assert (Hk : wallKnown (maze s') = wallKnown (maze s)) by congruence.
  assert (Hp : wallPresent (maze s') = wallPresent (maze s)) by congruence.
  rewrite Hk, Hp. reflexivity.
Qed.


(** ** A plan that runs in a circle *)

Lemma drawLoop_circle (a b : cell) (g : Grid) :
  Maze.hasNext g a = true -> Maze.hasNext g b = true ->
  hasNeighboringCell cfg a (Maze.getNextDirection g a) = true ->
  hasNeighboringCell cfg b (Maze.getNextDirection g b) = true ->
  neighbor a (Maze.getNextDirection g a) = b ->
  neighbor b (Maze.getNextDirection g b) = a ->
  forall (fuel : nat) (i : Z) (x : cell) (s : State),
    maze s = g -> x = a \/ x = b ->
    (exists s', drawLoop cfg fuel i x s = Timeout s' /\ maze s' = g)
    \/ (i = 0
        /\ exists c s', drawLoop cfg fuel i x s = Done c s'
                        /\ maze s' = g /\ (c = a \/ c = b)).
Proof.
  intros Ha Hb Hna Hnb Hab Hba.
  induction fuel as [|fuel IH]; intros i x s Hg Hx; cbn [drawLoop].
  { left. exists s. split; [reflexivity | exact Hg]. }
  rewrite bind_gets, Hg.
  assert (Hnext : Maze.hasNext g x = true) by (destruct Hx; subst x; assumption).
  assert (Hnx : hasNeighboringCell cfg x (Maze.getNextDirection g x) = true)
    by (destruct Hx; subst x; assumption).
  assert (Hto : neighbor x (Maze.getNextDirection g x) = a
                \/ neighbor x (Maze.getNextDirection g x) = b).
  { destruct Hx; subst x; [right | left]; assumption. }
  rewrite Hnext. run_bind (getNeighboringCell_has x _ s Hnx).
  destruct (i =? 0) eqn:Hi.
  - destruct (negb (Maze.isKnown g x (Maze.getNextDirection g x))).
    + right. apply Z.eqb_eq in Hi. split; [exact Hi|].
      exists x, s. split; [reflexivity|]. split; [exact Hg | exact Hx].
    + rewrite bind_tell. apply IH; [exact Hg | exact Hto].
  - rewrite bind_tell.
    match goal with
    | |- context [drawLoop cfg fuel i ?y ?s0] =>
        destruct (IH i y s0 Hg Hto) as [Ht | [Hi0 _]]
    end.
    + left. exact Ht.
    + subst i. discriminate.
Qed.

(** X21.  [drawPath] does not return from a plan that runs in a circle.
    If the pointers of two neighboring cells are set and lead to each
    other, then [drawPath] started on either of them is still running
    when the fuel ends, whatever the fuel: its second pass follows the
    pointers for as long as there is one, and neither it nor the first
    pass has a way out of the circle but the unknown edge that ends the
    first pass. *)
Theorem drawPath_never_leaves_a_circle (a b : cell) (fuel : nat) (s : State) :
  Maze.hasNext (maze s) a = true -> Maze.hasNext (maze s) b = true ->
  hasNeighboringCell cfg a (Maze.getNextDirection (maze s) a) = true ->
  hasNeighboringCell cfg b (Maze.getNextDirection (maze s) b) = true ->
  neighbor a (Maze.getNextDirection (maze s) a) = b ->
  neighbor b (Maze.getNextDirection (maze s) b) = a ->
  exists s', drawPath cfg fuel a s = Timeout s' /\ maze s' = maze s.
Proof.
  intros Ha Hb Hna Hnb Hab Hba. unfold drawPath.
  destruct (drawLoop_circle a b (maze s) Ha Hb Hna Hnb Hab Hba fuel 0 a s
              eq_refl (or_introl eq_refl))
    as [[s1 [E1 G1]] | [_ [c [s1 [E1 [G1 Hc]]]]]].
  - exists s1. unfold bind. rewrite E1. split; [reflexivity | exact G1].
  - run_bind E1.
    destruct (drawLoop_circle a b (maze s) Ha Hb Hna Hnb Hab Hba fuel 1 c s1
                G1 Hc) as [[s2 [E2 G2]] | [H1 _]]; [|discriminate].
    exists s2. unfold bind. rewrite E2. split; [reflexivity | exact G2].
Qed.

End Properties.

(** * The properties on concrete runs *)

Lemma Done_final {E : Type} (o : @outcome E unit) :
  isDone o = true -> o = Done tt (final o).
Proof. destruct o as [[] s | s | s]; simpl; intros H; congruence. Qed.

Lemma validConfig_cfg4 : validConfig cfg4.
Proof. unfold validConfig. simpl. lia. Qed.

Lemma validConfig_cfg16 : validConfig cfg16.
Proof. unfold validConfig. simpl. lia. Qed.

(** Evaluate every part of a conjunction of closed equations. *)
Ltac evaluate :=
  repeat (match goal with |- _ /\ _ => split end);
  vm_compute; reflexivity.

Ltac in_range :=
  vm_compute; repeat split;
  try (let H := fresh in intros H; discriminate H).

Lemma reachable_openStart : reachable cfg4 openStart.
Proof.
  assert (H : isDone (startUp cfg4 (initialState (worldOf (openMaze cfg4) [])))
              = true) by (vm_compute; reflexivity).
  exact (reach_start cfg4 (worldOf (openMaze cfg4) []) _ (Done_final _ H)).
Qed.

(** A step that returns leads from a reachable state to a reachable
    state. *)
Lemma reachable_after_step (cfg : Config) (fuel : nat) (s : @State Sim) :
  reachable cfg s -> isDone (step cfg fuel s) = true ->
  reachable cfg (final (step cfg fuel s)).
Proof.
  intros Hr Hd. exact (reach_step cfg fuel s _ Hr (Done_final _ Hd)).
Qed.

(** Three rounds into the run on the open 4 x 4 maze. *)
Lemma reachable_open_steps :
  reachable cfg4
    (final (step cfg4 100 (final (step cfg4 100
              (final (step cfg4 100 openStart)))))).
Proof.
  apply reachable_after_step; [|vm_compute; reflexivity].
  apply reachable_after_step; [|vm_compute; reflexivity].
  apply reachable_after_step; [|vm_compute; reflexivity].
  exact reachable_openStart.
Qed.

(** ** C1 and C10: a goal that is walled off is not given up on *)

Lemma ring_closed :
  forall c d, ring c = true -> validDirection d ->
    hasNeighboringCell cfg4 c d = true ->
    Maze.isWall (maze sealedSensed) c d = false ->
    ring (neighbor c d) = true.
Proof.
  apply (closed_by_check cfg4 (maze sealedSensed) ring).
  - intros c H. unfold ring in H. apply andb_true_iff in H. apply H.
  - vm_compute. reflexivity.
Qed.

Lemma nearCells_closed :
  forall c d, nearCells c = true -> validDirection d ->
    hasNeighboringCell cfgCorridor c d = true ->
    Maze.isWall (maze corridorSensed) c d = false ->
    nearCells (neighbor c d) = true.
Proof.
  apply (closed_by_check cfgCorridor (maze corridorSensed) nearCells).
  - intros c H. unfold nearCells in H. apply andb_true_iff in H. apply H.
  - vm_compute. reflexivity.
Qed.

(** C1, on runs the code can make.  First the corridor (0,0), (1,0),
    (2,0) with the goal cell (2,0) walled off, sensed truthfully: the
    first round moves the mouse to (1,0), and the sensing of the second
    round learns the wall in front of it.  The goal cell is then not
    connected to the cell of the mouse, yet the search returns the very
    cell it was rooted at; the step does not set GIVEUP, it aborts, and
    so does the run.  (The queue never holds more than one cell in this
    run, so the order among equal distances plays no part.)  Then the
    same on the 4 x 4 maze of the specification with its center block
    walled off, in the twelfth round, with the mouse at (0,1). *)
Theorem sealed_center_search_returns_start :
  (m_mode corridorSensed = CENTER
   /\ corridorCurrent = (1, 0)
   /\ (forall goal, inGoal cfgCorridor (m_mode corridorSensed) goal ->
         ~ connected cfgCorridor (maze corridorSensed) corridorCurrent goal)
   /\ resultOf (generatePath cfgCorridor 100 corridorCurrent corridorSensed)
      = Some corridorCurrent
   /\ isAborted (step cfgCorridor 100 corridorBefore) = true
   /\ isAborted (corridorRun 2) = true
   /\ m_mode (final (corridorRun 2)) = CENTER)
  /\ (m_mode sealedSensed = CENTER
      /\ sealedCurrent = (0, 1)
      /\ (forall goal, inGoal cfg4 (m_mode sealedSensed) goal ->
            ~ connected cfg4 (maze sealedSensed) sealedCurrent goal)
      /\ resultOf (generatePath cfg4 100 sealedCurrent sealedSensed)
         = Some sealedCurrent
      /\ isAborted (step cfg4 100 sealedBefore) = true
      /\ isAborted (sealedRun 12) = true
      /\ m_mode (final (sealedRun 12)) = CENTER).
Proof.
  split.
  - split; [vm_compute; reflexivity|].
    split; [vm_compute; reflexivity|].
    split.
    { intros goal Hgoal.
      replace (m_mode corridorSensed) with CENTER in Hgoal
        by (vm_compute; reflexivity).
      apply inGoal_region in Hgoal; [|unfold centerFitsBytes; simpl; lia].
      apply (not_connected cfgCorridor (maze corridorSensed) nearCells).
      - exact nearCells_closed.
      - vm_compute. reflexivity.
      - unfold nearCells. destruct goal as [x y].
        unfold Maze.getX, Maze.getY in Hgoal. cbn [fst snd] in *.
        rewrite Hgoal. apply andb_false_r. }
    evaluate.
  - split; [vm_compute; reflexivity|].
    split; [vm_compute; reflexivity|].
    split.
    { intros goal Hgoal.
      replace (m_mode sealedSensed) with CENTER in Hgoal
        by (vm_compute; reflexivity).
      apply inGoal_region in Hgoal; [|unfold centerFitsBytes; simpl; lia].
      apply (not_connected cfg4 (maze sealedSensed) ring).
      - exact ring_closed.
      - vm_compute. reflexivity.
      - unfold ring. destruct goal as [x y].
        unfold Maze.getX, Maze.getY in Hgoal. cbn [fst snd] in *.
        rewrite Hgoal. apply andb_false_r. }
    evaluate.
Qed.

(** C10, on the same runs.  In the second round on the corridor the
    plan handed to [followPath] points from the cell of the mouse,
    (1,0), EAST to the goal cell (2,0), across the wall just learned:
    known and present.  The edge is known, so [followPath] calls
    [moveOneCell] for (2,0), the assertion [isOneCellAway] fails there,
    and [followPath] aborts without a move.  In the twelfth round on the
    4 x 4 maze the same happens at (0,1), towards (1,1). *)
Theorem sealed_center_move_assertion_fails :
  ((m_x corridorPlanned, m_y corridorPlanned) = (1, 0)
   /\ Maze.hasNext (maze corridorPlanned) (1, 0) = true
   /\ Maze.getNextDirection (maze corridorPlanned) (1, 0) = EAST
   /\ Maze.isKnown (maze corridorPlanned) (1, 0) EAST = true
   /\ Maze.isWall (maze corridorPlanned) (1, 0) EAST = true
   /\ resultOf (getNeighboringCell cfgCorridor (1, 0) EAST corridorPlanned)
      = Some (2, 0)
   /\ isOneCellAway (2, 0) corridorPlanned = false
   /\ isAborted (moveOneCell (2, 0) corridorPlanned) = true
   /\ isAborted (followPath cfgCorridor 100 (1, 0) corridorPlanned) = true
   /\ forwardMoves
        (trace (final (followPath cfgCorridor 100 (1, 0) corridorPlanned)))
      = forwardMoves (trace corridorPlanned))
  /\ ((m_x sealedPlanned, m_y sealedPlanned) = (0, 1)
      /\ Maze.hasNext (maze sealedPlanned) (0, 1) = true
      /\ Maze.getNextDirection (maze sealedPlanned) (0, 1) = EAST
      /\ Maze.isKnown (maze sealedPlanned) (0, 1) EAST = true
      /\ Maze.isWall (maze sealedPlanned) (0, 1) EAST = true
      /\ resultOf (getNeighboringCell cfg4 (0, 1) EAST sealedPlanned)
         = Some (1, 1)
      /\ isOneCellAway (1, 1) sealedPlanned = false
      /\ isAborted (moveOneCell (1, 1) sealedPlanned) = true
      /\ isAborted (followPath cfg4 100 (0, 1) sealedPlanned) = true
      /\ forwardMoves
           (trace (final (followPath cfg4 100 (0, 1) sealedPlanned)))
         = forwardMoves (trace sealedPlanned)).
Proof. evaluate. Qed.

(** ** C6 and C7 on the 16 x 16 and the 4 x 4 grid *)

Lemma cost_model_witness :
  validConfig cfg16fast
  /\ 1 <= 3 < Z.max (WIDTH cfg16fast) (HEIGHT cfg16fast)
  /\ getTurnCost cfg16fast = 256
  /\ getStraightAwayCost cfg16fast 3 = Some (256 / 3)
  /\ exists a b, getStraightAwayCost cfg16fast 3 = Some a
                 /\ getStraightAwayCost cfg16fast 15 = Some b /\ b < a.
Proof.
  assert (Hv : validConfig cfg16fast) by (unfold validConfig; simpl; lia).
  assert (H : 1 <= 3 < Z.max (WIDTH cfg16fast) (HEIGHT cfg16fast))
    by (simpl; lia).
  destruct (cost_model cfg16fast 3 Hv H) as [_ [Hfast _]].
  destruct (Hfast eq_refl) as [H1 [H2 [H3 _]]].
  split; [exact Hv|]. split; [exact H|].
  split; [exact H1|]. split; [exact H2|].
  apply H3. simpl. lia.
Defined.


(** On the 4 x 4 grid with no inner wall the goals are taken in turn:
    from the second round on, every round ends on a goal, the center
    cell (1,1) in ORIGIN mode or the origin in CENTER mode, one after
    the other. *)
Lemma open_maze_modes_alternate :
  map (fun rounds => let s := final (openRun rounds) in
                     (m_mode s, (m_x s, m_y s))) (seq 2 8)
  = [(ORIGIN, (1, 1)); (CENTER, (0, 0)); (ORIGIN, (1, 1)); (CENTER, (0, 0));
     (ORIGIN, (1, 1)); (CENTER, (0, 0)); (ORIGIN, (1, 1)); (CENTER, (0, 0))].
Proof. vm_compute. reflexivity. Qed.

(** ** C9: an entry for a step that learned nothing *)

(** In the run on the open 4 x 4 maze the fourth round senses at a cell
    whose three walls are all known: no sensor is read, no wall is
    learned, and yet the log grows by an entry, with no learned
    direction in it. *)
Lemma entry_without_learning :
  let s := final (openRun 3) in
  let s' := final (readWalls cfg4 s) in
  trace s' = trace s
  /\ History.entries (history s')
     = (Maze.getCell (m_x s) (m_y s), 0) :: History.entries (history s)
  /\ length (History.entries (history s'))
     = S (length (History.entries (history s))).
Proof. cbv zeta. evaluate. Qed.

Lemma readWalls_witness :
  validConfig cfg4
  /\ validDirection (m_d openStart)
  /\ inGrid cfg4 (m_x openStart, m_y openStart)
  /\ exists s' delta data,
       readWalls cfg4 openStart = Done tt s'
       /\ trace s' = delta ++ trace openStart
       /\ History.entries (history s')
          = (Maze.getCell (m_x openStart) (m_y openStart), data)
            :: History.entries (history openStart).
Proof.
  assert (Hd : validDirection (m_d openStart))
    by in_range.
  assert (Hin : inGrid cfg4 (m_x openStart, m_y openStart))
    by in_range.
  split; [exact validConfig_cfg4|]. split; [exact Hd|]. split; [exact Hin|].
  destruct (readWalls_reads_unknown_walls cfg4 validConfig_cfg4 openStart
              Hd Hin) as [s' [delta [data [H1 [H2 [_ [_ [H5 _]]]]]]]].
  exists s', delta, data. split; [exact H1|]. split; [exact H2 | exact H5].
Defined.

(** ** Witnesses of the other properties *)

Lemma perimeter_witness :
  validConfig cfg4
  /\ exists s : @State Sim,
       startUp cfg4 (initialState (worldOf (openMaze cfg4) [])) = Done tt s
       /\ forall c d, Maze.isKnown (maze s) c d = true -> perimeterWall cfg4 c d.
Proof.
  split; [exact validConfig_cfg4|].
  destruct (perimeter_after_initialization cfg4 validConfig_cfg4
              (worldOf (openMaze cfg4) []) 100%nat)
    as [s [H1 [_ [_ H4]]]].
  exists s. split; [exact H1 | exact H4].
Defined.

Lemma reset_witness :
  validConfig cfg4
  /\ reachable cfg4
       (final (step cfg4 100 (final (step cfg4 100
                 (final (step cfg4 100 openStart))))))
  /\ exists s' : @State Sim,
       reset cfg4
         (final (step cfg4 100 (final (step cfg4 100
                   (final (step cfg4 100 openStart)))))) = Done tt s'
       /\ m_x s' = 0 /\ m_y s' = 0 /\ m_mode s' = CENTER.
Proof.
  split; [exact validConfig_cfg4|]. split; [exact reachable_open_steps|].
  destruct (reset_forgets_learned_walls cfg4 validConfig_cfg4 _
              reachable_open_steps) as [s' [H1 [_ [H3 [H4 [_ H6]]]]]].
  exists s'. auto.
Defined.

Lemma wall_symmetry_witness :
  validConfig cfg4
  /\ reachable cfg4
       (final (step cfg4 100 (final (step cfg4 100
                 (final (step cfg4 100 openStart))))))
  /\ wallsSymmetric cfg4
       (maze (final (step cfg4 100 (final (step cfg4 100
                       (final (step cfg4 100 openStart)))))))
  /\ perimeterKnown cfg4
       (maze (final (step cfg4 100 (final (step cfg4 100
                       (final (step cfg4 100 openStart))))))).
Proof.
  split; [exact validConfig_cfg4|]. split; [exact reachable_open_steps|].
  destruct (wall_symmetry_and_perimeter cfg4 validConfig_cfg4 _
              reachable_open_steps) as [H1 [H2 _]].
  split; [exact H1 | exact H2].
Defined.

Lemma followPath_witness :
  validConfig cfg4
  /\ validDirection (m_d openSearched)
  /\ inGrid cfg4 (m_x openSearched, m_y openSearched)
  /\ exists hops delta,
       knownChain cfg4 (maze openSearched)
         (Maze.getCell (m_x openSearched) (m_y openSearched)) hops
       /\ forwardMoves delta = length hops
       /\ hopBlocks delta.
Proof.
  assert (Hd : validDirection (m_d openSearched))
    by in_range.
  assert (Hin : inGrid cfg4 (m_x openSearched, m_y openSearched))
    by in_range.
  split; [exact validConfig_cfg4|]. split; [exact Hd|]. split; [exact Hin|].
  destruct (followPath_known_edges cfg4 validConfig_cfg4 100 openSearched
              Hd Hin) as [hops [delta [H1 [_ [_ [H4 [_ [_ [_ [H8 _]]]]]]]]]].
  exists hops, delta. split; [exact H1|]. split; [exact H4 | exact H8].
Defined.

Lemma twoPointers_chain :
  pointerChain cfg4 (maze twoPointers) ((0, 2) :: [(0, 1)] ++ [(0, 0)]).
Proof.
  apply pc_link; [in_range | reflexivity
                 | in_range | reflexivity
                 | reflexivity |].
  apply pc_link; [in_range | reflexivity
                 | in_range | reflexivity
                 | reflexivity |].
  apply pc_end; [in_range | reflexivity].
Qed.

Lemma reversal_witness :
  validConfig cfg4
  /\ pointerChain cfg4 (maze twoPointers) ((0, 2) :: [(0, 1)] ++ [(0, 0)])
  /\ (length ((0, 2) :: [(0, 1)] ++ [(0, 0)]) <= 3)%nat
  /\ exists s1 s2,
       reverseLinkedList cfg4 3 (0, 2) twoPointers = Done (0, 0) s1
       /\ reverseLinkedList cfg4 3 (0, 0) s1 = Done (0, 2) s2
       /\ pointerChain cfg4 (maze s2) ((0, 2) :: [(0, 1)] ++ [(0, 0)]).
Proof.
  assert (Hlen : (length ((0, 2) :: [(0, 1)] ++ [(0, 0)]) <= 3)%nat)
    by (simpl; lia).
  split; [exact validConfig_cfg4|]. split; [exact twoPointers_chain|].
  split; [exact Hlen|].
  destruct (reversal_is_an_involution cfg4 validConfig_cfg4 3 (0, 2) (0, 0)
              [(0, 1)] twoPointers twoPointers_chain Hlen)
    as [s1 [s2 [H1 [_ [H3 [H4 _]]]]]].
  exists s1, s2. split; [exact H1|]. split; [exact H3 | exact H4].
Defined.

(** ** Witnesses of the further properties *)

Lemma openStart_heading : validDirection (m_d openStart).
Proof. in_range. Qed.

Lemma openStart_on_grid : inGrid cfg4 (m_x openStart, m_y openStart).
Proof. in_range. Qed.

Lemma neighbor_round_trip_witness :
  validConfig cfg4 /\ inGrid cfg4 (0, 0) /\ validDirection NORTH
  /\ (hasNeighboringCell cfg4 (0, 0) NORTH = true
      <-> inGrid cfg4 (0 + stepX NORTH, 0 + stepY NORTH)).
Proof.
  assert (Hin : inGrid cfg4 (0, 0)) by in_range.
  assert (Hd : validDirection NORTH) by in_range.
  split; [exact validConfig_cfg4|]. split; [exact Hin|]. split; [exact Hd|].
  exact (proj1 (neighbor_round_trip cfg4 validConfig_cfg4 (0, 0) NORTH
                  openStart Hin Hd)).
Defined.

Lemma one_cell_away_witness :
  validConfig cfg4 /\ inGrid cfg4 (m_x openStart, m_y openStart)
  /\ (isOneCellAway (0, 1) openStart = true
      <-> exists dir,
            validDirection dir
            /\ (0, 1) = (m_x openStart + stepX dir, m_y openStart + stepY dir)
            /\ Maze.isWall (maze openStart) (m_x openStart, m_y openStart) dir
               = false).
Proof.
  split; [exact validConfig_cfg4|]. split; [exact openStart_on_grid|].
  exact (one_cell_away_iff_open_step cfg4 validConfig_cfg4 (0, 1) openStart
           openStart_on_grid).
Defined.

Lemma moveOneCell_witness :
  validConfig cfg4 /\ validDirection (m_d openStart)
  /\ inGrid cfg4 (m_x openStart, m_y openStart) /\ inGrid cfg4 (0, 1)
  /\ (isOneCellAway (0, 1) openStart = false ->
      moveOneCell (0, 1) openStart = Aborted openStart).
Proof.
  assert (Ht : inGrid cfg4 (0, 1)) by in_range.
  split; [exact validConfig_cfg4|]. split; [exact openStart_heading|].
  split; [exact openStart_on_grid|]. split; [exact Ht|].
  exact (proj1 (moveOneCell_turns_then_moves cfg4 validConfig_cfg4 (0, 1)
                  openStart openStart_heading openStart_on_grid Ht)).
Defined.

Lemma turns_witness :
  validDirection (m_d openStart)
  /\ final (turnRightUpdateState (final (turnLeftUpdateState openStart)))
     = openStart.
Proof.
  split; [exact openStart_heading|].
  pose proof (turns_are_quarter_rotations openStart openStart_heading) as H.
  cbv zeta in H. exact (proj1 (proj2 (proj2 (proj2 (proj2 (proj2 (proj2 H))))))).
Defined.

Lemma mouse_on_grid_witness :
  validConfig cfg4
  /\ reachable cfg4
       (final (step cfg4 100 (final (step cfg4 100
                 (final (step cfg4 100 openStart))))))
  /\ 0 <= m_x (final (step cfg4 100 (final (step cfg4 100
                        (final (step cfg4 100 openStart)))))) < WIDTH cfg4.
Proof.
  split; [exact validConfig_cfg4|]. split; [exact reachable_open_steps|].
  exact (proj1 (mouse_stays_on_the_grid cfg4 validConfig_cfg4 _
                  reachable_open_steps)).
Defined.

Lemma queue_empty_witness :
  validConfig cfg4
  /\ reachable cfg4
       (final (step cfg4 100 (final (step cfg4 100
                 (final (step cfg4 100 openStart))))))
  /\ heap (final (step cfg4 100 (final (step cfg4 100
                    (final (step cfg4 100 openStart)))))) = [].
Proof.
  split; [exact validConfig_cfg4|]. split; [exact reachable_open_steps|].
  exact (proj1 (queue_is_empty_between_steps cfg4 validConfig_cfg4 _
                  reachable_open_steps)).
Defined.

Lemma open_edges_witness :
  validConfig cfg4 /\ validDirection (m_d openSearched)
  /\ inGrid cfg4 (m_x openSearched, m_y openSearched)
  /\ exists hops delta,
       openChain cfg4 (maze openSearched)
         (Maze.getCell (m_x openSearched) (m_y openSearched)) hops
       /\ forwardMoves delta = length hops.
Proof.
  assert (Hd : validDirection (m_d openSearched)) by in_range.
  assert (Hin : inGrid cfg4 (m_x openSearched, m_y openSearched)) by in_range.
  split; [exact validConfig_cfg4|]. split; [exact Hd|]. split; [exact Hin|].
  pose proof (followPath_crosses_only_open_edges cfg4 validConfig_cfg4 100
                openSearched Hd Hin) as H.
  cbv zeta in H. destruct H as [hops [delta [H1 [_ [H3 _]]]]].
  exists hops, delta. split; [exact H1 | exact H3].
Defined.


Lemma solve_returns_witness :
  solve cfgWhole 1 100 (initialState (worldOf (openMaze cfgWhole) []))
  = Done tt (final (solve cfgWhole 1 100
                      (initialState (worldOf (openMaze cfgWhole) []))))
  /\ (~ (1 <= WIDTH cfgWhole <= 16 /\ 1 <= HEIGHT cfgWhole <= 16)
       /\ final (solve cfgWhole 1 100
                   (initialState (worldOf (openMaze cfgWhole) [])))
          = initialState (worldOf (openMaze cfgWhole) [])
      \/ (1 <= WIDTH cfgWhole <= 16 /\ 1 <= HEIGHT cfgWhole <= 16)
         /\ m_mode (final (solve cfgWhole 1 100
                             (initialState (worldOf (openMaze cfgWhole) []))))
            = GIVEUP).
Proof.
  assert (Hd : isDone (solve cfgWhole 1 100
                         (initialState (worldOf (openMaze cfgWhole) [])))
               = true) by (vm_compute; reflexivity).
  split; [exact (Done_final _ Hd)|].
  exact (solve_returns_only_to_give_up cfgWhole 1 100
           (initialState (worldOf (openMaze cfgWhole) []))
           (final (solve cfgWhole 1 100
                     (initialState (worldOf (openMaze cfgWhole) []))))
           (Done_final _ Hd)).
Defined.

Lemma readWall_witness :
  validDirection (m_d openStart) /\ validDirection EAST
  /\ (EAST = (m_d openStart + 1) mod 4 ->
      readWall EAST openStart = API_ask WallRight openStart).
Proof.
  assert (Hd : validDirection EAST) by in_range.
  split; [exact openStart_heading|]. split; [exact Hd|].
  exact (proj1 (proj2 (readWall_asks_the_facing_sensor EAST openStart
                         openStart_heading Hd))).
Defined.

Lemma learning_witness :
  validDirection NORTH
  /\ exists s1 s2 : @State Sim,
       setCellWall cfg4 (1, 1) NORTH true true openStart = Done tt s1
       /\ unsetCellWall cfg4 (1, 1) NORTH true s1 = Done tt s2
       /\ Maze.isKnown (maze s2) (1, 1) NORTH = false.
Proof.
  assert (Hd : validDirection NORTH) by in_range.
  split; [exact Hd|].
  destruct (learning_then_forgetting_a_wall cfg4 (1, 1) NORTH true openStart
              Hd) as [s1 [s2 [H1 [H2 [_ [_ [_ [H6 _]]]]]]]].
  exists s1, s2. split; [exact H1|]. split; [exact H2 | exact H6].
Defined.

Lemma reset_twice_witness :
  validConfig cfg4
  /\ reachable cfg4
       (final (step cfg4 100 (final (step cfg4 100
                 (final (step cfg4 100 openStart))))))
  /\ exists s1 s2 : @State Sim,
       reset cfg4
         (final (step cfg4 100 (final (step cfg4 100
                   (final (step cfg4 100 openStart)))))) = Done tt s1
       /\ reset cfg4 s1 = Done tt s2
       /\ history s2 = history s1.
Proof.
  split; [exact validConfig_cfg4|]. split; [exact reachable_open_steps|].
  destruct (reset_twice_is_reset_once cfg4 validConfig_cfg4 _
              reachable_open_steps) as [s1 [s2 [H1 [_ [H3 [_ [_ [H6 _]]]]]]]].
  exists s1, s2. split; [exact H1|]. split; [exact H3 | exact H6].
Defined.

Lemma sensing_again_witness :
  validConfig cfg4 /\ validDirection (m_d openStart)
  /\ inGrid cfg4 (m_x openStart, m_y openStart)
  /\ exists s1 : @State Sim,
       readWalls cfg4 openStart = Done tt s1
       /\ readWalls cfg4 s1
          = Done tt (set_history
                       (History.add (m_x openStart, m_y openStart) 0
                          (history s1)) s1).
Proof.
  split; [exact validConfig_cfg4|]. split; [exact openStart_heading|].
  split; [exact openStart_on_grid|].
  destruct (sensing_again_learns_nothing cfg4 validConfig_cfg4 openStart
              openStart_heading openStart_on_grid) as [s1 [H1 [_ H3]]].
  exists s1. split; [exact H1 | exact H3].
Defined.

Lemma inCenter_witness :
  centerFitsBytes cfg4
  /\ inCenter cfg4 100 1 2 openStart = Done true openStart
  /\ CLLX cfg4 <= 1 <= CURX cfg4 /\ CLLY cfg4 <= 2 <= CURY cfg4.
Proof.
  assert (Hc : centerFitsBytes cfg4) by (unfold centerFitsBytes; simpl; lia).
  assert (H : inCenter cfg4 100 1 2 openStart = Done true openStart)
    by reflexivity.
  split; [exact Hc|]. split; [exact H|].
  destruct (inCenter_tests_the_rectangle cfg4 100 1 2 openStart Hc)
    as [_ [_ [Hanswer _]]].
  exact (proj1 (proj2 (Hanswer true openStart H)) eq_refl).
Defined.

(** With the upper corner at 255 the counter of the outer loop wraps to
    0 instead of passing it: [inCenter] then answers true for the cell
    (3,0), which is not between the corners, and for a cell of no
    column at all, such as (3,1), it is still running when the fuel
    ends. *)
Lemma inCenter_wraps_at_255 :
  inCenterRegion cfgWrap 3 0 = false
  /\ inCenter cfgWrap 300 3 0 openStart = Done true openStart
  /\ isTimeout (inCenter cfgWrap 300 3 1 openStart) = true.
Proof.
  split; [reflexivity|]. split; [vm_compute; reflexivity|].
  vm_compute. reflexivity.
Qed.

Lemma closest_destination_witness :
  m_mode openStart = CENTER
  /\ centerFitsBytes cfg4 /\ centerFuel cfg4 100
  /\ exists c,
       getClosestDestinationCell cfg4 100 openStart = Done c openStart
       /\ forall x y,
            CLLX cfg4 <= x <= CURX cfg4 -> CLLY cfg4 <= y <= CURY cfg4 ->
            Maze.getDistance (maze openStart) c
            <= Maze.getDistance (maze openStart) (Maze.getCell x y).
Proof.
  assert (Hm : m_mode openStart = CENTER) by (vm_compute; reflexivity).
  assert (Hc : centerFitsBytes cfg4) by (unfold centerFitsBytes; simpl; lia).
  assert (Hf : centerFuel cfg4 100) by (unfold centerFuel; simpl; lia).
  split; [exact Hm|]. split; [exact Hc|]. split; [exact Hf|].
  destruct (closest_destination_is_nearest cfg4 100 openStart) as [H _].
  destruct (H Hm Hc Hf) as [c [E1 [G1 _]]].
  exists c. split; [exact E1 | exact G1].
Defined.

Lemma goal_distances_witness :
  centerFitsBytes cfg4 /\ centerFuel cfg4 100
  /\ exists s' : @State Sim,
       resetDestinationCellDistances cfg4 100 openStart = Done tt s'
       /\ forall c, inGoal cfg4 (m_mode openStart) c ->
                    Maze.getDistance (maze s') c = 65535.
Proof.
  assert (Hc : centerFitsBytes cfg4) by (unfold centerFitsBytes; simpl; lia).
  assert (Hf : centerFuel cfg4 100) by (unfold centerFuel; simpl; lia).
  split; [exact Hc|]. split; [exact Hf|].
  destruct (resetDestinationCellDistances_marks_the_goal cfg4 100 openStart)
    as [H _].
  destruct (H (fun _ => conj Hc Hf)) as [s' [E1 [G1 _]]].
  exists s'. split; [exact E1 | exact G1].
Defined.

Lemma checkNeighbor_witness :
  validConfig cfg4 /\ inGrid cfg4 (0, 0) /\ validDirection NORTH
  /\ hasNeighboringCell cfg4 (0, 0) NORTH = true
  /\ edgeCost cfg4 (maze openStart) (0, 0) (opposite NORTH) = Some 2
  /\ exists s' : @State Sim,
       checkNeighbor cfg4 (0, 0) NORTH openStart = Done tt s'.
Proof.
  assert (Hin : inGrid cfg4 (0, 0)) by in_range.
  assert (Hd : validDirection NORTH) by in_range.
  assert (Hn : hasNeighboringCell cfg4 (0, 0) NORTH = true) by reflexivity.
  assert (He : edgeCost cfg4 (maze openStart) (0, 0) (opposite NORTH) = Some 2)
    by (vm_compute; reflexivity).
  split; [exact validConfig_cfg4|]. split; [exact Hin|]. split; [exact Hd|].
  split; [exact Hn|]. split; [exact He|].
  pose proof (checkNeighbor_relaxes_the_neighbor cfg4 validConfig_cfg4
                (0, 0) NORTH 2 openStart Hin Hd Hn He) as H.
  cbv zeta in H. destruct H as [s' [E1 _]].
  exists s'. exact E1.
Defined.

Lemma circle_witness :
  Maze.hasNext (maze circle) (0, 0) = true
  /\ Maze.hasNext (maze circle) (0, 1) = true
  /\ hasNeighboringCell cfg4 (0, 0) (Maze.getNextDirection (maze circle) (0, 0))
     = true
  /\ hasNeighboringCell cfg4 (0, 1) (Maze.getNextDirection (maze circle) (0, 1))
     = true
  /\ neighbor (0, 0) (Maze.getNextDirection (maze circle) (0, 0)) = (0, 1)
  /\ neighbor (0, 1) (Maze.getNextDirection (maze circle) (0, 1)) = (0, 0)
  /\ exists s', drawPath cfg4 100 (0, 0) circle = Timeout s'
                /\ maze s' = maze circle.
Proof.
  repeat (split; [reflexivity|]).
  exact (drawPath_never_leaves_a_circle cfg4 (0, 0) (0, 1) 100 circle
           eq_refl eq_refl eq_refl eq_refl eq_refl eq_refl).
Defined.
